(** * Memory pool manager (mem-poolman): model and verification

    The pool manager serves fixed-size chunks of a few power-of-two size
    classes.  Per size class it keeps a singly linked chain of pools and an
    aggregate counter of free chunks.  The headers of the pools of the chains
    live in chunks of one distinguished pool, [mem_PoolForPoolHeaders].

    The manager is modelled by explicit state passing in a small state and
    failure monad.  The single-pool mechanics (mem-pool) and the heap
    (mem-heap) are collaborators whose code is not part of the manager: they
    are operations of the class [Collaborators], and what the manager relies
    on is collected in the class [Contracts]. *)

From stdpp Require Import gmap list.
From Stdlib Require Import ZArith Lia.

Open Scope Z_scope.

(** ** Data *)

(** Addresses are integers; the null pointer is address zero. *)
Definition NULL : Z := 0.

(** [mem_PoolState_t]: the header of one pool.  The manager reads the six
    fields below; [m_Internal] stands for what only the single-pool code
    touches (chunk size, bitmap). *)
Record mem_PoolState_t (I : Type) : Type := Build_PoolState {
  m_pPoolStart : Z;
  m_PoolSize : Z;
  m_pChunks : Z;
  m_ChunksNumber : Z;
  m_FreeChunksNumber : Z;
  m_pNextPool : Z;
  m_Internal : I
}.
Arguments Build_PoolState {I}.
Arguments m_pPoolStart {I}.
Arguments m_PoolSize {I}.
Arguments m_pChunks {I}.
Arguments m_ChunksNumber {I}.
Arguments m_FreeChunksNumber {I}.
Arguments m_pNextPool {I}.
Arguments m_Internal {I}.

(** [p->m_pNextPool = n] *)
Definition set_m_pNextPool {I} (n : Z) (r : mem_PoolState_t I) : mem_PoolState_t I :=
  Build_PoolState (m_pPoolStart r) (m_PoolSize r) (m_pChunks r)
    (m_ChunksNumber r) (m_FreeChunksNumber r) n (m_Internal r).

(** Life-time hint given to the heap. *)
Inductive mem_HeapAllocTerm_t := MEM_HEAP_ALLOC_SHORT_TERM | MEM_HEAP_ALLOC_LONG_TERM.

(** The collaborators and the constants of the headers the manager includes. *)
Class Collaborators := {
  pool_internal : Type;
  heap_t : Type;
  (** number of size classes *)
  MEM_POOL_CHUNK_TYPE__COUNT : nat;
  (** width of [size_t] in bits *)
  SIZE_WIDTH : Z;
  sizeof_mword_t : Z;
  sizeof_mem_PoolState_t : Z;
  mem_SizeToPoolChunkType : Z → nat;
  mem_HeapRecommendAllocationSize : Z → Z;
  mem_HeapAllocBlock : Z → mem_HeapAllocTerm_t → heap_t → Z * heap_t;
  mem_HeapFreeBlock : Z → heap_t → heap_t;
  mem_PoolInit : Z → Z → Z → mem_PoolState_t pool_internal;
  mem_PoolAllocChunk : mem_PoolState_t pool_internal → Z * mem_PoolState_t pool_internal;
  mem_PoolFreeChunk : mem_PoolState_t pool_internal → Z → mem_PoolState_t pool_internal
}.

(** A pool is named either as the global [mem_PoolForPoolHeaders] or by the
    address of its header. *)
Inductive pool_ref := HeaderPool | PoolAt (p : Z).

(** Calls made to the collaborators, recorded in the order they are made. *)
Inductive call :=
| Call_HeapRecommendAllocationSize (size : Z)
| Call_HeapAllocBlock (size : Z) (term : mem_HeapAllocTerm_t) (ret : Z)
| Call_HeapFreeBlock (block : Z)
| Call_PoolInit (pool : pool_ref) (chunkSize poolStart poolSize : Z)
| Call_PoolAllocChunk (pool : pool_ref) (ret : Z)
| Call_PoolFreeChunk (pool : pool_ref) (chunk : Z).

(** How a run can stop without returning. *)
Inductive failure :=
| AssertionFailed   (* a JERRY_ASSERT does not hold *)
| InvalidAccess     (* null or wild pointer dereference, array index out of bounds *)
| Diverged.         (* a loop that never leaves a cyclic chain *)

Abbreviation pool := (mem_PoolState_t pool_internal).

Section Model.
Context {C : Collaborators}.

(** The globals of the manager, the memory holding pool headers, the state of
    the heap, and the record of collaborator calls. *)
Record state : Type := Build_state {
  mem_Pools : list Z;
  mem_FreeChunksNumber : list Z;
  mem_PoolForPoolHeaders : pool;
  mem_SpaceForPoolForPoolHeaders : Z;
  pool_headers : gmap Z pool;
  heap : heap_t;
  calls : list call
}.

Definition set_mem_Pools (v : list Z) (s : state) : state :=
  Build_state v (mem_FreeChunksNumber s) (mem_PoolForPoolHeaders s)
    (mem_SpaceForPoolForPoolHeaders s) (pool_headers s) (heap s) (calls s).
Definition set_mem_FreeChunksNumber (v : list Z) (s : state) : state :=
  Build_state (mem_Pools s) v (mem_PoolForPoolHeaders s)
    (mem_SpaceForPoolForPoolHeaders s) (pool_headers s) (heap s) (calls s).
Definition set_mem_PoolForPoolHeaders (v : pool) (s : state) : state :=
  Build_state (mem_Pools s) (mem_FreeChunksNumber s) v
    (mem_SpaceForPoolForPoolHeaders s) (pool_headers s) (heap s) (calls s).
Definition set_mem_SpaceForPoolForPoolHeaders (v : Z) (s : state) : state :=
  Build_state (mem_Pools s) (mem_FreeChunksNumber s) (mem_PoolForPoolHeaders s)
    v (pool_headers s) (heap s) (calls s).
Definition set_pool_headers (v : gmap Z pool) (s : state) : state :=
  Build_state (mem_Pools s) (mem_FreeChunksNumber s) (mem_PoolForPoolHeaders s)
    (mem_SpaceForPoolForPoolHeaders s) v (heap s) (calls s).
Definition set_heap (v : heap_t) (s : state) : state :=
  Build_state (mem_Pools s) (mem_FreeChunksNumber s) (mem_PoolForPoolHeaders s)
    (mem_SpaceForPoolForPoolHeaders s) (pool_headers s) v (calls s).
Definition log (e : call) (s : state) : state :=
  Build_state (mem_Pools s) (mem_FreeChunksNumber s) (mem_PoolForPoolHeaders s)
    (mem_SpaceForPoolForPoolHeaders s) (pool_headers s) (heap s) (calls s ++ [e]).

(** ** The monad *)

Inductive outcome (A : Type) : Type :=
| Done (a : A) (s : state)
| Stop (f : failure) (s : state).
Arguments Done {A}.
Arguments Stop {A}.

Definition M (A : Type) : Type := state → outcome A.

Definition ret {A} (a : A) : M A := λ s, Done a s.
Definition bind {A B} (m : M A) (k : A → M B) : M B :=
  λ s, match m s with
       | Done a s' => k a s'
       | Stop f s' => Stop f s'
       end.
Definition stop {A} (f : failure) : M A := λ s, Stop f s.
Definition gets {A} (f : state → A) : M A := λ s, Done (f s) s.
Definition modify (f : state → state) : M unit := λ s, Done tt (f s).

(** [JERRY_ASSERT (b)] *)
Definition JERRY_ASSERT (b : bool) : M unit :=
  if b then ret tt else stop AssertionFailed.

(** The state in which a run ends, whichever way it ends. *)
Definition final_state {A} (o : outcome A) : state :=
  match o with Done _ s => s | Stop _ s => s end.

(** Whether a run returns, and what it returns ([d] when it does not). *)
Definition is_Done {A} (o : outcome A) : bool :=
  match o with Done _ _ => true | Stop _ _ => false end.
Definition returned {A} (d : A) (o : outcome A) : A :=
  match o with Done a _ => a | Stop _ _ => d end.

End Model.

Arguments Done {C A}.
Arguments Stop {C A}.

Notation "'let*' x := m 'in' k" := (bind m (λ x, k))
  (at level 10, x name, m at level 100, k at level 200, only parsing).
Notation "'let*' ' p := m 'in' k" := (bind m (λ x, match x with p => k end))
  (at level 10, p pattern, m at level 100, k at level 200, only parsing).
Notation "m >> k" := (bind m (λ _, k))
  (at level 100, k at level 200, right associativity, only parsing).


(** ** The operations of the manager *)

Section Manager.
Context {C : Collaborators}.

(** [size_t] arithmetic wraps around at [2 ^ SIZE_WIDTH]. *)
Definition SIZE_MODULUS : Z := 2 ^ SIZE_WIDTH.
Definition to_size_t (z : Z) : Z := z mod SIZE_MODULUS.
Definition to_uint32_t (z : Z) : Z := z mod 2 ^ 32.

(** *** Memory accesses *)

(** Reading through a pointer to a pool header. *)
Definition load (p : Z) : M pool :=
  λ s, if p =? NULL then Stop InvalidAccess s
       else match pool_headers s !! p with
            | Some r => Done r s
            | None => Stop InvalidAccess s
            end.

(** Writing a whole header through a pointer. *)
Definition store (p : Z) (r : pool) : M unit :=
  λ s, if p =? NULL then Stop InvalidAccess s
       else Done tt (set_pool_headers (<[p:=r]> (pool_headers s)) s).

(** [p->f] *)
Definition field (f : pool → Z) (p : Z) : M Z :=
  let* r := load p in ret (f r).

(** [p->m_pNextPool = n] *)
Definition write_m_pNextPool (p n : Z) : M unit :=
  let* r := load p in store p (set_m_pNextPool n r).

(** [mem_Pools[i]] and [mem_Pools[i] = v] *)
Definition read_mem_Pools (i : nat) : M Z :=
  λ s, match mem_Pools s !! i with
       | Some v => Done v s
       | None => Stop InvalidAccess s
       end.
Definition write_mem_Pools (i : nat) (v : Z) : M unit :=
  λ s, if decide (i < length (mem_Pools s))%nat
       then Done tt (set_mem_Pools (<[i:=v]> (mem_Pools s)) s)
       else Stop InvalidAccess s.

(** [mem_FreeChunksNumber[i]] and [mem_FreeChunksNumber[i] = v] *)
Definition read_mem_FreeChunksNumber (i : nat) : M Z :=
  λ s, match mem_FreeChunksNumber s !! i with
       | Some v => Done v s
       | None => Stop InvalidAccess s
       end.
Definition write_mem_FreeChunksNumber (i : nat) (v : Z) : M unit :=
  λ s, if decide (i < length (mem_FreeChunksNumber s))%nat
       then Done tt (set_mem_FreeChunksNumber (<[i:=v]> (mem_FreeChunksNumber s)) s)
       else Stop InvalidAccess s.

(** *** Calls to the collaborators *)

Definition read_pool (p : pool_ref) : M pool :=
  match p with
  | HeaderPool => gets mem_PoolForPoolHeaders
  | PoolAt a => load a
  end.
Definition write_pool (p : pool_ref) (r : pool) : M unit :=
  match p with
  | HeaderPool => modify (set_mem_PoolForPoolHeaders r)
  | PoolAt a => store a r
  end.

Definition call_HeapRecommendAllocationSize (size : Z) : M Z :=
  modify (log (Call_HeapRecommendAllocationSize size)) >>
  ret (mem_HeapRecommendAllocationSize size).

Definition call_HeapAllocBlock (size : Z) (term : mem_HeapAllocTerm_t) : M Z :=
  let* h := gets heap in
  let '(b, h') := mem_HeapAllocBlock size term h in
  modify (set_heap h') >>
  modify (log (Call_HeapAllocBlock size term b)) >>
  ret b.

Definition call_HeapFreeBlock (b : Z) : M unit :=
  let* h := gets heap in
  modify (set_heap (mem_HeapFreeBlock b h)) >>
  modify (log (Call_HeapFreeBlock b)).

Definition call_PoolInit (p : pool_ref) (chunkSize poolStart poolSize : Z) : M unit :=
  write_pool p (mem_PoolInit chunkSize poolStart poolSize) >>
  modify (log (Call_PoolInit p chunkSize poolStart poolSize)).

Definition call_PoolAllocChunk (p : pool_ref) : M Z :=
  let* r := read_pool p in
  let '(chunk, r') := mem_PoolAllocChunk r in
  write_pool p r' >>
  modify (log (Call_PoolAllocChunk p chunk)) >>
  ret chunk.

Definition call_PoolFreeChunk (p : pool_ref) (chunk : Z) : M unit :=
  let* r := read_pool p in
  write_pool p (mem_PoolFreeChunk r chunk) >>
  modify (log (Call_PoolFreeChunk p chunk)).

(** *** mem_GetChunkSize *)

(** [None] is the failure of the assertion on the chunk type. *)
Definition mem_GetChunkSize (chunkType : nat) : option Z :=
  let chunkTypeId := to_uint32_t (Z.of_nat chunkType) in
  if chunkTypeId <? Z.of_nat MEM_POOL_CHUNK_TYPE__COUNT
  then Some (to_size_t (to_uint32_t (Z.shiftl 1 (chunkTypeId + 2))))
  else None.

Definition run_mem_GetChunkSize (chunkType : nat) : M Z :=
  match mem_GetChunkSize chunkType with
  | Some size => ret size
  | None => stop AssertionFailed
  end.

(** *** mem_PoolsInit *)

(** The loop over the size classes: [n] iterations are left, [i] is the
    loop variable. *)
Fixpoint mem_PoolsInit_loop (n i : nat) : M unit :=
  match n with
  | O => ret tt
  | S n' =>
      write_mem_Pools i NULL >>
      write_mem_FreeChunksNumber i 0 >>
      mem_PoolsInit_loop n' (S i)
  end.

Definition mem_PoolsInit : M unit :=
  mem_PoolsInit_loop MEM_POOL_CHUNK_TYPE__COUNT 0 >>
  let* poolSpaceSize :=
    call_HeapRecommendAllocationSize
      (to_size_t (4 * sizeof_mem_PoolState_t + sizeof_mword_t)) in
  let* space := call_HeapAllocBlock poolSpaceSize MEM_HEAP_ALLOC_LONG_TERM in
  modify (set_mem_SpaceForPoolForPoolHeaders space) >>
  let chunkType := mem_SizeToPoolChunkType sizeof_mem_PoolState_t in
  let* chunkSize := run_mem_GetChunkSize chunkType in
  let* space := gets mem_SpaceForPoolForPoolHeaders in
  call_PoolInit HeaderPool chunkSize space poolSpaceSize.

(** *** mem_PoolsAlloc *)

(** The growth block, entered when the class has no free chunk.  It returns
    [false] where the source returns [NULL] from [mem_PoolsAlloc], and [true]
    where control reaches the end of the block. *)
Definition mem_PoolsAlloc_grow (chunkType : nat) (chunkSize : Z) : M bool :=
  let* poolState := call_PoolAllocChunk HeaderPool in
  if poolState =? NULL then ret false
  else
    let* poolSpaceSize :=
      call_HeapRecommendAllocationSize (to_size_t (8 * chunkSize + sizeof_mword_t)) in
    let* poolSpace := call_HeapAllocBlock poolSpaceSize MEM_HEAP_ALLOC_LONG_TERM in
    if poolSpace =? NULL then ret false
    else
      call_PoolInit (PoolAt poolState) chunkSize poolSpace poolSpaceSize >>
      let* head := read_mem_Pools chunkType in
      write_m_pNextPool poolState head >>
      write_mem_Pools chunkType poolState >>
      let* n := read_mem_FreeChunksNumber chunkType in
      let* k := field m_FreeChunksNumber poolState in
      write_mem_FreeChunksNumber chunkType (to_size_t (n + k)) >>
      ret true.

(** The search for the first pool with a free chunk.  [fuel] bounds the
    number of links followed. *)
Fixpoint mem_PoolsAlloc_search (fuel : nat) (poolState : Z) : M Z :=
  let* k := field m_FreeChunksNumber poolState in
  if k =? 0 then
    match fuel with
    | O => stop Diverged
    | S fuel' =>
        let* poolState := field m_pNextPool poolState in
        JERRY_ASSERT (negb (poolState =? NULL)) >>
        mem_PoolsAlloc_search fuel' poolState
    end
  else ret poolState.

(** A walk along a chain visits each stored header at most once unless the
    chain is cyclic, so the number of stored headers is fuel enough. *)
Definition chain_fuel : M nat := gets (λ s, size (pool_headers s)).

(** From the search to the end. *)
Definition mem_PoolsAlloc_take (chunkType : nat) : M Z :=
  let* head := read_mem_Pools chunkType in
  let* fuel := chain_fuel in
  let* poolState := mem_PoolsAlloc_search fuel head in
  let* n := read_mem_FreeChunksNumber chunkType in
  write_mem_FreeChunksNumber chunkType (to_size_t (n - 1)) >>
  call_PoolAllocChunk (PoolAt poolState).

Definition mem_PoolsAlloc (chunkType : nat) : M Z :=
  let* chunkSize := run_mem_GetChunkSize chunkType in
  let* n := read_mem_FreeChunksNumber chunkType in
  if n =? 0 then
    let* grown := mem_PoolsAlloc_grow chunkType chunkSize in
    if grown then mem_PoolsAlloc_take chunkType else ret NULL
  else mem_PoolsAlloc_take chunkType.

(** *** mem_PoolsFree *)

(** The range test of the search. *)
Definition chunk_in_pool (pChunk : Z) (r : pool) : bool :=
  (m_pChunks r <=? pChunk) && (pChunk <=? m_pPoolStart r + m_PoolSize r).

(** The search for the pool containing the chunk; it returns [poolState] and
    [prevPoolState]. *)
Fixpoint mem_PoolsFree_search (fuel : nat) (pChunk poolState prevPoolState : Z)
  : M (Z * Z) :=
  let* r := load poolState in
  if negb (chunk_in_pool pChunk r) then
    match fuel with
    | O => stop Diverged
    | S fuel' =>
        let prevPoolState := poolState in
        let* poolState := field m_pNextPool poolState in
        JERRY_ASSERT (negb (poolState =? NULL)) >>
        mem_PoolsFree_search fuel' pChunk poolState prevPoolState
    end
  else ret (poolState, prevPoolState).

(** The block that frees a pool all of whose chunks are free. *)
Definition mem_PoolsFree_release (chunkType : nat) (poolState prevPoolState : Z)
  : M unit :=
  (if negb (prevPoolState =? NULL) then
     let* next := field m_pNextPool poolState in
     write_m_pNextPool prevPoolState next
   else
     let* next := field m_pNextPool poolState in
     write_mem_Pools chunkType next) >>
  let* n := read_mem_FreeChunksNumber chunkType in
  let* k := field m_ChunksNumber poolState in
  write_mem_FreeChunksNumber chunkType (to_size_t (n - k)) >>
  let* start := field m_pPoolStart poolState in
  call_HeapFreeBlock start >>
  call_PoolFreeChunk HeaderPool poolState.

Definition mem_PoolsFree (chunkType : nat) (pChunk : Z) : M unit :=
  let* head := read_mem_Pools chunkType in
  let* fuel := chain_fuel in
  let* '(poolState, prevPoolState) := mem_PoolsFree_search fuel pChunk head NULL in
  call_PoolFreeChunk (PoolAt poolState) pChunk >>
  let* n := read_mem_FreeChunksNumber chunkType in
  write_mem_FreeChunksNumber chunkType (to_size_t (n + 1)) >>
  let* free := field m_FreeChunksNumber poolState in
  let* total := field m_ChunksNumber poolState in
  if free =? total then mem_PoolsFree_release chunkType poolState prevPoolState
  else ret tt.

End Manager.

(** ** What the manager relies on *)

(** Two headers describe the same pool layout and the same link. *)
Definition same_layout {I} (r r' : mem_PoolState_t I) : Prop :=
  m_pPoolStart r' = m_pPoolStart r ∧ m_PoolSize r' = m_PoolSize r ∧
  m_pChunks r' = m_pChunks r ∧ m_ChunksNumber r' = m_ChunksNumber r ∧
  m_pNextPool r' = m_pNextPool r.

(** Constants of the platform: every chunk size fits [unsigned int] and
    [size_t], the sizes the manager asks the heap for are below half of the
    range of [size_t], and the size class of a pool header exists. *)
Class PlatformOk (C : Collaborators) : Prop := {
  chunk_types_fit : Z.of_nat MEM_POOL_CHUNK_TYPE__COUNT + 1 < 32;
  size_width_ge : 32 ≤ SIZE_WIDTH;
  sizeof_mword_t_pos : 0 < sizeof_mword_t;
  pool_request_fits :
    8 * 2 ^ (Z.of_nat MEM_POOL_CHUNK_TYPE__COUNT + 1) + sizeof_mword_t < SIZE_MODULUS / 2;
  header_request_fits :
    0 ≤ 4 * sizeof_mem_PoolState_t + sizeof_mword_t < SIZE_MODULUS / 2;
  header_chunk_type :
    (mem_SizeToPoolChunkType sizeof_mem_PoolState_t < MEM_POOL_CHUNK_TYPE__COUNT)%nat
}.

(** Contracts of the single-pool code and of the heap.  [pool_valid] is the
    pool code's own consistency condition on a header, [chunk_used r q] says
    that the chunk at [q] is currently handed out by the pool [r], and
    [block_live h b n] that the heap [h] has handed out, and not got back, the
    block of [n] bytes at [b]. *)
Class Contracts (C : Collaborators) : Type := {
  pool_valid : pool → Prop;
  chunk_used : pool → Z → Prop;
  block_live : heap_t → Z → Z → Prop;

  (** a valid header: counts are [size_t] values, the bitmap sits in front
      of the chunks, every chunk takes room in the block *)
  valid_counts : ∀ r, pool_valid r →
    0 ≤ m_FreeChunksNumber r ≤ m_ChunksNumber r ∧ m_ChunksNumber r < SIZE_MODULUS;
  valid_layout : ∀ r, pool_valid r → 0 < m_ChunksNumber r →
    m_pPoolStart r < m_pChunks r ∧
    m_pChunks r + m_ChunksNumber r ≤ m_pPoolStart r + m_PoolSize r;
  used_in_range : ∀ r q, pool_valid r → chunk_used r q →
    m_pChunks r ≤ q < m_pPoolStart r + m_PoolSize r;
  used_not_free : ∀ r q, pool_valid r → chunk_used r q →
    m_FreeChunksNumber r < m_ChunksNumber r;
  (** the link to the next pool is of no concern to the pool code *)
  valid_set_next : ∀ r n, pool_valid r → pool_valid (set_m_pNextPool n r);
  used_set_next : ∀ r n q, chunk_used (set_m_pNextPool n r) q ↔ chunk_used r q;

  (** mem_PoolInit *)
  init_spec : ∀ chunkSize poolStart poolSize,
    0 < chunkSize → 0 ≤ poolSize < SIZE_MODULUS →
    let r := mem_PoolInit chunkSize poolStart poolSize in
    pool_valid r ∧ m_pPoolStart r = poolStart ∧ m_PoolSize r = poolSize ∧
    m_FreeChunksNumber r = m_ChunksNumber r ∧ ∀ q, ¬ chunk_used r q;
  init_nonempty : ∀ chunkSize poolStart poolSize,
    0 < chunkSize → 0 < poolStart →
    8 * chunkSize + sizeof_mword_t ≤ poolSize < SIZE_MODULUS →
    0 < m_ChunksNumber (mem_PoolInit chunkSize poolStart poolSize);

  (** mem_PoolAllocChunk: [NULL] exactly when no chunk is free *)
  alloc_none : ∀ r, pool_valid r → m_FreeChunksNumber r = 0 →
    mem_PoolAllocChunk r = (NULL, r);
  alloc_some : ∀ r q r', pool_valid r → m_FreeChunksNumber r ≠ 0 →
    mem_PoolAllocChunk r = (q, r') →
    q ≠ NULL ∧ pool_valid r' ∧ ¬ chunk_used r q ∧
    m_pChunks r ≤ q < m_pPoolStart r + m_PoolSize r ∧
    m_FreeChunksNumber r' = m_FreeChunksNumber r - 1 ∧ same_layout r r' ∧
    ∀ x, chunk_used r' x ↔ x = q ∨ chunk_used r x;

  (** mem_PoolFreeChunk, of a chunk the pool has handed out *)
  free_spec : ∀ r q, pool_valid r → chunk_used r q →
    let r' := mem_PoolFreeChunk r q in
    pool_valid r' ∧ m_FreeChunksNumber r' = m_FreeChunksNumber r + 1 ∧
    same_layout r r' ∧ ∀ x, chunk_used r' x ↔ x ≠ q ∧ chunk_used r x;

  (** mem_HeapRecommendAllocationSize *)
  recommend_spec : ∀ n, 0 ≤ n < SIZE_MODULUS / 2 →
    n ≤ mem_HeapRecommendAllocationSize n < SIZE_MODULUS;

  (** mem_HeapAllocBlock: blocks handed out stay, a new block overlaps none
      of them *)
  heap_alloc_keeps : ∀ n t h b0 n0,
    block_live h b0 n0 → block_live (mem_HeapAllocBlock n t h).2 b0 n0;
  heap_alloc_new : ∀ n t h, (mem_HeapAllocBlock n t h).1 ≠ NULL →
    let b := (mem_HeapAllocBlock n t h).1 in
    block_live (mem_HeapAllocBlock n t h).2 b n ∧
    ∀ b0 n0, block_live h b0 n0 → b0 + n0 ≤ b ∨ b + n ≤ b0;

  (** a block lies in the address space, which [size_t] spans *)
  live_in_space : ∀ h b n, block_live h b n → 0 ≤ b ∧ b + n ≤ SIZE_MODULUS;

  (** mem_HeapFreeBlock: the other blocks stay *)
  heap_free_keeps : ∀ h b b0 n0,
    block_live h b0 n0 → b0 ≠ b → block_live (mem_HeapFreeBlock b h) b0 n0
}.

(** ** Chains and the invariant of the manager *)

Section Invariant.
Context {C : Collaborators} {K : Contracts C}.

Implicit Types (m : gmap Z pool) (l : list Z) (s : state).

(** [is_seg m p l e]: following [m_pNextPool] from [p] in the memory [m]
    visits exactly the headers at the addresses [l] and then reaches [e]. *)
Fixpoint is_seg m (p : Z) l (e : Z) : Prop :=
  match l with
  | [] => p = e
  | a :: l' =>
      p = a ∧ a ≠ NULL ∧ ∃ r, m !! a = Some r ∧ is_seg m (m_pNextPool r) l' e
  end.

(** A chain is a segment that ends at [NULL]. *)
Definition is_chain m (p : Z) l : Prop := is_seg m p l NULL.

(** The same walk as a function; [None] when [fuel] links do not reach
    [NULL] or a link leads to no header. *)
Fixpoint chain_from (fuel : nat) m (p : Z) : option (list Z) :=
  if p =? NULL then Some []
  else match fuel with
       | O => None
       | S fuel' =>
           match m !! p with
           | Some r =>
               match chain_from fuel' m (m_pNextPool r) with
               | Some l => Some (p :: l)
               | None => None
               end
           | None => None
           end
       end.

(** The chain of a size class. *)
Definition pool_chain s (chunkType : nat) : option (list Z) :=
  match mem_Pools s !! chunkType with
  | Some head => chain_from (size (pool_headers s)) (pool_headers s) head
  | None => None
  end.

(** The free-chunk count of the pool whose header is at [a]. *)
Definition free_at m (a : Z) : Z :=
  match m !! a with
  | Some r => m_FreeChunksNumber r
  | None => 0
  end.

(** The sum of the free-chunk counts of the pools of a chain. *)
Definition sum_free m l : Z := foldr (λ a acc, free_at m a + acc) 0 l.

(** The accounting invariant: for every size class, the aggregate counter is
    the sum of the free-chunk counts of the pools of its chain. *)
Definition accounting s : Prop :=
  ∀ c, (c < MEM_POOL_CHUNK_TYPE__COUNT)%nat →
    ∃ l, pool_chain s c = Some l ∧
         mem_FreeChunksNumber s !! c = Some (sum_free (pool_headers s) l).

(** What holds of the pool at [a] when it is a member of a chain: the pool
    code accepts its header, it has chunks, its block is live in the heap,
    and its header occupies a used chunk of the header pool. *)
Definition member_ok s (a : Z) : Prop :=
  ∃ r, pool_headers s !! a = Some r ∧ pool_valid r ∧
       0 < m_ChunksNumber r ∧
       block_live (heap s) (m_pPoolStart r) (m_PoolSize r) ∧
       chunk_used (mem_PoolForPoolHeaders s) a.

(** The pool at [a] is not wholly free. *)
Definition busy s (a : Z) : Prop :=
  ∀ r, pool_headers s !! a = Some r → m_FreeChunksNumber r < m_ChunksNumber r.

(** The blocks of two pools do not overlap. *)
Definition blocks_apart (r1 r2 : pool) : Prop :=
  m_pPoolStart r1 + m_PoolSize r1 ≤ m_pPoolStart r2 ∨
  m_pPoolStart r2 + m_PoolSize r2 ≤ m_pPoolStart r1.

(** The invariant of the manager, for [chains] the list of the chains of
    the size classes. *)
Record wf_chains s (chains : list (list Z)) : Prop := {
  wf_len_pools : length (mem_Pools s) = MEM_POOL_CHUNK_TYPE__COUNT;
  wf_len_free : length (mem_FreeChunksNumber s) = MEM_POOL_CHUNK_TYPE__COUNT;
  wf_len_chains : length chains = MEM_POOL_CHUNK_TYPE__COUNT;
  wf_header : pool_valid (mem_PoolForPoolHeaders s);
  wf_nodup : NoDup (concat chains);
  wf_chain : ∀ c l, chains !! c = Some l →
    ∃ head, mem_Pools s !! c = Some head ∧ is_chain (pool_headers s) head l;
  wf_count : ∀ c l, chains !! c = Some l →
    mem_FreeChunksNumber s !! c = Some (sum_free (pool_headers s) l);
  wf_range : ∀ c n, mem_FreeChunksNumber s !! c = Some n → 0 ≤ n < SIZE_MODULUS;
  wf_member : ∀ a, a ∈ concat chains → member_ok s a;
  wf_apart : ∀ a b ra rb, a ∈ concat chains → b ∈ concat chains → a ≠ b →
    pool_headers s !! a = Some ra → pool_headers s !! b = Some rb →
    blocks_apart ra rb
}.

(** Between two calls, moreover, no pool of a chain is wholly free. *)
Definition wf s : Prop :=
  ∃ chains, wf_chains s chains ∧ ∀ a, a ∈ concat chains → busy s a.

(** A chunk of the size class [c] that is handed out: it is a used chunk of
    a pool of the chain of [c]. *)
Definition live_chunk s (c : nat) (p : Z) : Prop :=
  ∃ l a r, pool_chain s c = Some l ∧ a ∈ l ∧
           pool_headers s !! a = Some r ∧ chunk_used r p.

(** The states the manager goes through: [mem_PoolsInit] on the zeroed
    globals, then calls of [mem_PoolsAlloc] and of [mem_PoolsFree] that
    return, the latter on chunks that are handed out. *)
Inductive reachable `{!PlatformOk C} : state → Prop :=
| reach_init s s' :
    length (mem_Pools s) = MEM_POOL_CHUNK_TYPE__COUNT →
    length (mem_FreeChunksNumber s) = MEM_POOL_CHUNK_TYPE__COUNT →
    mem_PoolsInit s = Done tt s' → reachable s'
| reach_alloc s c p s' :
    reachable s → mem_PoolsAlloc c s = Done p s' → reachable s'
| reach_free s c p s' :
    reachable s → live_chunk s c p → mem_PoolsFree c p s = Done tt s' →
    reachable s'.

(** A header chunk is abandoned when the header pool counts it as used
    and no chain holds it. *)
Definition abandoned s (a : Z) : Prop :=
  chunk_used (mem_PoolForPoolHeaders s) a ∧
  ∀ c l, pool_chain s c = Some l → a ∉ l.

(** [later s s']: the manager gets from [s] to [s'] by calls that return. *)
Inductive later : state → state → Prop :=
| later_refl s : later s s
| later_alloc s s1 c p s2 :
    later s s1 → mem_PoolsAlloc c s1 = Done p s2 → later s s2
| later_free s s1 c p s2 :
    later s s1 → live_chunk s1 c p → mem_PoolsFree c p s1 = Done tt s2 →
    later s s2.

(** What a call on the size class [c] leaves alone in the size class [c']:
    the head of the chain, the counter, and the headers of the chain. *)
Definition frame (c' : nat) s s' : Prop :=
  mem_Pools s' !! c' = mem_Pools s !! c' ∧
  mem_FreeChunksNumber s' !! c' = mem_FreeChunksNumber s !! c' ∧
  pool_chain s' c' = pool_chain s c' ∧
  ∀ l a, pool_chain s c' = Some l → a ∈ l →
    pool_headers s' !! a = pool_headers s !! a.

End Invariant.

(** * Facts about lists of chains *)

Section Concat.
Context {A : Type}.
Implicit Types (ls : list (list A)) (l : list A).

Lemma concat_lookup_split ls c l :
  ls !! c = Some l →
  concat ls = concat (take c ls) ++ l ++ concat (drop (S c) ls).
Proof.
  intros H. rewrite <- (take_drop_middle ls c l H) at 1.
  rewrite concat_app. reflexivity.
Qed.

Lemma concat_insert_split ls c l l' :
  ls !! c = Some l →
  concat (<[c:=l']> ls) = concat (take c ls) ++ l' ++ concat (drop (S c) ls).
Proof.
  intros H. rewrite insert_take_drop by (eapply lookup_lt_Some; eauto).
  rewrite concat_app. reflexivity.
Qed.

Lemma elem_of_concat_lookup ls (a : A) :
  a ∈ concat ls ↔ ∃ c l, ls !! c = Some l ∧ a ∈ l.
Proof.
  induction ls as [|l0 ls IH]; simpl.
  - split; [by intros ?%elem_of_nil|by intros (c & l & ? & _)].
  - rewrite elem_of_app, IH. split.
    + intros [Ha|(c & l & Hc & Ha)]; [by exists 0%nat, l0|by exists (S c), l].
    + intros ([|c] & l & Hc & Ha); simpl in Hc; simplify_eq; eauto.
Qed.

Lemma elem_of_concat_insert ls c l l' (a : A) :
  ls !! c = Some l →
  a ∈ concat (<[c:=l']> ls) ↔
  a ∈ l' ∨ ∃ c' l'', c' ≠ c ∧ ls !! c' = Some l'' ∧ a ∈ l''.
Proof.
  intros H. rewrite elem_of_concat_lookup. split.
  - intros (c' & l'' & Hc & Ha). destruct (decide (c' = c)) as [->|Hne].
    + rewrite list_lookup_insert_eq in Hc by (eapply lookup_lt_Some; eauto).
      left. congruence.
    + rewrite list_lookup_insert_ne in Hc by done. right. eauto.
  - intros [Ha|(c' & l'' & Hne & Hc & Ha)].
    + exists c, l'. split; [|done].
      apply list_lookup_insert_eq. eapply lookup_lt_Some; eauto.
    + exists c', l''. split; [|done]. rewrite list_lookup_insert_ne; done.
Qed.

Lemma concat_replicate_nil (n : nat) : concat (replicate n ([] : list A)) = [].
Proof. induction n; simpl; done. Qed.

Lemma NoDup_concat_lookup ls c l :
  NoDup (concat ls) → ls !! c = Some l → NoDup l.
Proof.
  intros Hnd H. rewrite (concat_lookup_split ls c l H) in Hnd.
  apply NoDup_app in Hnd as (_ & _ & Hnd).
  apply NoDup_app in Hnd as (Hnd & _). done.
Qed.

Lemma NoDup_concat_apart ls c c' l l' (a : A) :
  NoDup (concat ls) → ls !! c = Some l → ls !! c' = Some l' → c ≠ c' →
  a ∈ l → a ∉ l'.
Proof.
  revert c c'. induction ls as [|l0 ls IH]; intros c c' Hnd Hc Hc' Hne Ha Ha'; [done|].
  simpl in Hnd. apply NoDup_app in Hnd as (Hnd0 & Hdis & Hnd).
  destruct c as [|c], c' as [|c']; simpl in *; simplify_eq.
  - apply (Hdis a Ha). apply elem_of_concat_lookup. eauto.
  - apply (Hdis a Ha'). apply elem_of_concat_lookup. eauto.
  - eapply (IH c c'); eauto.
Qed.

Lemma NoDup_concat_insert ls c l l' :
  NoDup (concat ls) → ls !! c = Some l → NoDup l' →
  (∀ a, a ∈ l' → a ∈ l ∨ a ∉ concat ls) →
  NoDup (concat (<[c:=l']> ls)).
Proof.
  intros Hnd H Hnd' Hin.
  rewrite (concat_insert_split ls c l l' H).
  assert (Hmem : ∀ a, a ∈ concat ls ↔
    a ∈ concat (take c ls) ∨ a ∈ l ∨ a ∈ concat (drop (S c) ls)).
  { intros a. rewrite (concat_lookup_split ls c l H). rewrite !elem_of_app. tauto. }
  rewrite (concat_lookup_split ls c l H) in Hnd.
  apply NoDup_app in Hnd as (Hnd1 & Hdis1 & Hnd).
  apply NoDup_app in Hnd as (Hnd2 & Hdis2 & Hnd3).
  apply NoDup_app. split; [done|]. split.
  - intros a Ha Ha'. apply elem_of_app in Ha' as [Ha'|Ha'].
    + destruct (Hin a Ha') as [Hl|Hn].
      * apply (Hdis1 a Ha). apply elem_of_app. auto.
      * apply Hn, Hmem. auto.
    + apply (Hdis1 a Ha). apply elem_of_app. auto.
  - apply NoDup_app. split; [done|]. split; [|done].
    intros a Ha Ha'. destruct (Hin a Ha) as [Hl|Hn].
    + apply (Hdis2 a Hl Ha').
    + apply Hn, Hmem. auto.
Qed.

End Concat.

(** * Facts about chains *)

Section ChainFacts.
Context {C : Collaborators}.
Implicit Types (m : gmap Z pool) (l : list Z).

Lemma is_seg_app m p l1 l2 e :
  is_seg m p (l1 ++ l2) e ↔ ∃ mid, is_seg m p l1 mid ∧ is_seg m mid l2 e.
Proof.
  revert p. induction l1 as [|a l1 IH]; intros p; simpl.
  - split; [eauto|]. by intros (mid & -> & H).
  - split.
    + intros (-> & Hn & r & Hr & H). apply IH in H as (mid & H1 & H2). eauto 10.
    + intros (mid & (-> & Hn & r & Hr & H1) & H2).
      repeat split; [done|]. exists r. split; [done|]. apply IH. eauto.
Qed.

Lemma is_seg_unique m p l l' :
  is_seg m p l NULL → is_seg m p l' NULL → l = l'.
Proof.
  revert p l'. induction l as [|a l IH]; intros p [|a' l']; simpl.
  - done.
  - intros -> (<- & Hn & _). done.
  - intros (-> & Hn & _) ->. done.
  - intros (-> & _ & r & Hr & H) (<- & _ & r' & Hr' & H').
    simplify_eq. f_equal. eauto.
Qed.

Lemma is_seg_elem m p l e a :
  is_seg m p l e → a ∈ l → a ≠ NULL ∧ is_Some (m !! a).
Proof.
  revert p. induction l as [|b l IH]; intros p; simpl; [by intros _ ?%elem_of_nil|].
  intros (-> & Hn & r & Hr & H) [->|Ha]%elem_of_cons; eauto.
Qed.

(** A walk may be replayed in a memory that agrees on the links. *)
Lemma is_seg_ext m m' p l e :
  (∀ a r, a ∈ l → m !! a = Some r →
     ∃ r', m' !! a = Some r' ∧ m_pNextPool r' = m_pNextPool r) →
  is_seg m p l e → is_seg m' p l e.
Proof.
  revert p. induction l as [|b l IH]; intros p Hext; simpl; [done|].
  intros (-> & Hn & r & Hr & H).
  destruct (Hext b r) as (r' & Hr' & Hnext); [by left|done|].
  repeat split; [done|]. exists r'. split; [done|].
  rewrite Hnext. apply IH; [|done].
  intros a0 r0 Ha0. apply Hext. by right.
Qed.

Lemma is_seg_insert_notin m p l e a r :
  a ∉ l → is_seg m p l e → is_seg (<[a:=r]> m) p l e.
Proof.
  intros Hnot. apply is_seg_ext. intros b rb Hb Hrb.
  exists rb. split; [|done]. rewrite lookup_insert_ne; [done|].
  intros ->. done.
Qed.

Lemma chain_length_le m p l e :
  NoDup l → is_seg m p l e → (length l ≤ size m)%nat.
Proof.
  intros Hnd Hc. rewrite <- (size_dom (D:=gset Z)).
  apply submseteq_length, NoDup_submseteq; [done|].
  intros a Ha. apply elem_of_elements, elem_of_dom.
  by eapply is_seg_elem.
Qed.

Lemma chain_from_complete m p l fuel :
  is_chain m p l → (length l ≤ fuel)%nat → chain_from fuel m p = Some l.
Proof.
  unfold is_chain. revert p fuel. induction l as [|a l IH]; intros p fuel; simpl.
  - intros -> _. by destruct fuel.
  - intros (-> & Hn & r & Hr & H) Hlen. destruct fuel as [|fuel]; [lia|].
    simpl. apply Z.eqb_neq in Hn. rewrite Hn, Hr.
    rewrite (IH _ fuel H); [done|lia].
Qed.

Lemma chain_from_sound m p l fuel :
  chain_from fuel m p = Some l → is_chain m p l.
Proof.
  unfold is_chain. revert p l. induction fuel as [|fuel IH]; intros p l; simpl.
  - destruct (p =? NULL) eqn:Hp; [|done]. intros [= <-]. by apply Z.eqb_eq.
  - destruct (p =? NULL) eqn:Hp.
    + intros [= <-]. by apply Z.eqb_eq.
    + destruct (m !! p) as [r|] eqn:Hr; [|done].
      destruct (chain_from fuel m (m_pNextPool r)) as [l'|] eqn:Hl; [|done].
      intros [= <-]. simpl. apply Z.eqb_neq in Hp. eauto 10.
Qed.

(** *** Sums of free-chunk counts *)

Lemma sum_free_app m l1 l2 :
  sum_free m (l1 ++ l2) = sum_free m l1 + sum_free m l2.
Proof. unfold sum_free. induction l1 as [|a l1 IH]; simpl; lia. Qed.

Lemma sum_free_cons m a l : sum_free m (a :: l) = free_at m a + sum_free m l.
Proof. done. Qed.

Lemma sum_free_ext m m' l :
  (∀ a, a ∈ l → free_at m' a = free_at m a) → sum_free m' l = sum_free m l.
Proof.
  induction l as [|b l IH]; intros H; [done|].
  rewrite !sum_free_cons, H, IH; [done| |by left].
  intros a Ha. apply H. by right.
Qed.

Lemma free_at_insert_eq m a r : free_at (<[a:=r]> m) a = m_FreeChunksNumber r.
Proof. unfold free_at. by rewrite lookup_insert_eq. Qed.

Lemma free_at_insert_ne m a b r : a ≠ b → free_at (<[a:=r]> m) b = free_at m b.
Proof. intros. unfold free_at. by rewrite lookup_insert_ne. Qed.

Lemma sum_free_insert_notin m l a r :
  a ∉ l → sum_free (<[a:=r]> m) l = sum_free m l.
Proof.
  intros Hnot. apply sum_free_ext. intros b Hb.
  apply free_at_insert_ne. by intros ->.
Qed.

Lemma sum_free_insert_in m l a r :
  NoDup l → a ∈ l →
  sum_free (<[a:=r]> m) l = sum_free m l - free_at m a + m_FreeChunksNumber r.
Proof.
  induction l as [|b l IH]; intros Hnd Ha; [by apply elem_of_nil in Ha|].
  apply NoDup_cons in Hnd as [Hb Hnd]. rewrite !sum_free_cons.
  apply elem_of_cons in Ha as [->|Ha].
  - rewrite free_at_insert_eq, sum_free_insert_notin by done. lia.
  - rewrite free_at_insert_ne, IH by (done || by intros ->). lia.
Qed.

Lemma sum_free_nonneg m l :
  (∀ a, a ∈ l → 0 ≤ free_at m a) → 0 ≤ sum_free m l.
Proof.
  induction l as [|b l IH]; intros H; [done|].
  rewrite sum_free_cons.
  assert (0 ≤ free_at m b) by (apply H; by left).
  assert (0 ≤ sum_free m l) by (apply IH; intros a Ha; apply H; by right).
  lia.
Qed.

Lemma sum_free_elem_le m l a :
  (∀ b, b ∈ l → 0 ≤ free_at m b) → a ∈ l → free_at m a ≤ sum_free m l.
Proof.
  induction l as [|b l IH]; intros H Ha; [by apply elem_of_nil in Ha|].
  rewrite sum_free_cons.
  assert (0 ≤ free_at m b) by (apply H; by left).
  assert (Hl : ∀ x, x ∈ l → 0 ≤ free_at m x) by (intros x Hx; apply H; by right).
  pose proof (sum_free_nonneg m l Hl).
  apply elem_of_cons in Ha as [->|Ha]; [lia|]. specialize (IH Hl Ha). lia.
Qed.

(** A chain with a non-zero sum has a first pool with a free chunk. *)
Lemma sum_free_first m l :
  sum_free m l ≠ 0 →
  ∃ l1 q l2, l = l1 ++ q :: l2 ∧ (∀ a, a ∈ l1 → free_at m a = 0) ∧ free_at m q ≠ 0.
Proof.
  induction l as [|b l IH]; intros H; [done|].
  rewrite sum_free_cons in H.
  destruct (decide (free_at m b = 0)) as [Hb|Hb].
  - destruct IH as (l1 & q & l2 & -> & Hz & Hq); [lia|].
    exists (b :: l1), q, l2. split; [done|]. split; [|done].
    intros a [->|Ha]%elem_of_cons; auto.
  - exists [], b, l. split; [done|]. split; [|done]. by intros a ?%elem_of_nil.
Qed.

End ChainFacts.

(** * Running the operations *)

Section Runs.
Context {C : Collaborators}.
Implicit Types (m : gmap Z pool) (l : list Z) (s : state).

Lemma Done_eta {A} (o : outcome A) (d : A) :
  is_Done o = true → o = Done (returned d o) (final_state o).
Proof. by destruct o. Qed.

Lemma Done_eta_tt (o : outcome ()) :
  is_Done o = true → o = Done () (final_state o).
Proof. by destruct o as [[]|]. Qed.

Lemma bind_Done {A B} (f : M A) (k : A → M B) s a s' :
  f s = Done a s' → bind f k s = k a s'.
Proof. unfold bind. by intros ->. Qed.

Lemma bind_Stop {A B} (f : M A) (k : A → M B) s e s' :
  f s = Stop e s' → bind f k s = Stop e s'.
Proof. unfold bind. by intros ->. Qed.

Lemma load_Done p r s :
  p ≠ NULL → pool_headers s !! p = Some r → load p s = Done r s.
Proof. intros Hp Hr. unfold load. apply Z.eqb_neq in Hp. by rewrite Hp, Hr. Qed.

Lemma load_NULL s : load NULL s = Stop InvalidAccess s.
Proof. done. Qed.

Lemma field_Done f p r s :
  p ≠ NULL → pool_headers s !! p = Some r → field f p s = Done (f r) s.
Proof. intros Hp Hr. unfold field. by rewrite (bind_Done _ _ _ _ _ (load_Done p r s Hp Hr)). Qed.

Lemma store_Done p r s :
  p ≠ NULL → store p r s = Done tt (set_pool_headers (<[p:=r]> (pool_headers s)) s).
Proof. intros Hp. unfold store. apply Z.eqb_neq in Hp. by rewrite Hp. Qed.

Lemma is_seg_start_not_null m p l e : is_seg m p l e → e ≠ NULL → p ≠ NULL.
Proof. destruct l; simpl; [by intros ->|]. by intros (-> & ? & _). Qed.

(** The search of [mem_PoolsAlloc] stops at the first pool with a free
    chunk. *)
Lemma mem_PoolsAlloc_search_found s l1 q rq fuel head :
  is_seg (pool_headers s) head l1 q →
  (∀ a, a ∈ l1 → free_at (pool_headers s) a = 0) →
  q ≠ NULL → pool_headers s !! q = Some rq → m_FreeChunksNumber rq ≠ 0 →
  (length l1 ≤ fuel)%nat →
  mem_PoolsAlloc_search fuel head s = Done q s.
Proof.
  intros Hseg Hz Hq Hrq Hfree. revert head fuel Hseg Hz.
  induction l1 as [|a l1 IH]; intros head fuel Hseg Hz Hlen; simpl in Hseg.
  - subst head. apply Z.eqb_neq in Hfree.
    destruct fuel; simpl; rewrite (bind_Done _ _ _ _ _ (field_Done _ q rq s Hq Hrq));
      by rewrite Hfree.
  - destruct Hseg as (-> & Ha & r & Hr & Hseg).
    destruct fuel as [|fuel]; [simpl in Hlen; lia|].
    assert (Hfa : m_FreeChunksNumber r = 0).
    { specialize (Hz a). unfold free_at in Hz. rewrite Hr in Hz. apply Hz. by left. }
    simpl. rewrite (bind_Done _ _ _ _ _ (field_Done _ a r s Ha Hr)).
    rewrite Hfa. simpl.
    rewrite (bind_Done _ _ _ _ _ (field_Done _ a r s Ha Hr)).
    pose proof (is_seg_start_not_null _ _ _ _ Hseg Hq) as Hnext.
    apply Z.eqb_neq in Hnext. rewrite Hnext. simpl.
    apply IH; [done| |simpl in Hlen; lia].
    intros b Hb. apply Hz. by right.
Qed.

Definition in_pool_at m (pChunk a : Z) : bool :=
  match m !! a with
  | Some r => chunk_in_pool pChunk r
  | None => false
  end.

(** The search of [mem_PoolsFree] stops at the first pool whose range holds
    the chunk, and remembers the pool in front of it. *)
Lemma mem_PoolsFree_search_found s pChunk l1 q fuel head prev :
  is_seg (pool_headers s) head l1 q →
  (∀ a, a ∈ l1 → in_pool_at (pool_headers s) pChunk a = false) →
  q ≠ NULL → in_pool_at (pool_headers s) pChunk q = true →
  (length l1 ≤ fuel)%nat →
  mem_PoolsFree_search fuel pChunk head prev s = Done (q, default prev (last l1)) s.
Proof.
  intros Hseg Hz Hq Hin. revert head fuel prev Hseg Hz.
  unfold in_pool_at in Hin. destruct (pool_headers s !! q) as [rq|] eqn:Hrq; [|done].
  induction l1 as [|a l1 IH]; intros head fuel prev Hseg Hz Hlen; simpl in Hseg.
  - subst head.
    destruct fuel; simpl; rewrite (bind_Done _ _ _ _ _ (load_Done q rq s Hq Hrq));
      by rewrite Hin.
  - destruct Hseg as (-> & Ha & r & Hr & Hseg).
    destruct fuel as [|fuel]; [simpl in Hlen; lia|].
    assert (Hfa : chunk_in_pool pChunk r = false).
    { specialize (Hz a). unfold in_pool_at in Hz. rewrite Hr in Hz. apply Hz. by left. }
    simpl. rewrite (bind_Done _ _ _ _ _ (load_Done a r s Ha Hr)).
    rewrite Hfa. simpl.
    rewrite (bind_Done _ _ _ _ _ (field_Done _ a r s Ha Hr)).
    pose proof (is_seg_start_not_null _ _ _ _ Hseg Hq) as Hnext.
    apply Z.eqb_neq in Hnext. rewrite Hnext. simpl.
    rewrite (bind_Done (ret ()) _ s () s eq_refl).
    rewrite (IH _ fuel a Hseg); [| |simpl in Hlen; lia].
    + do 2 f_equal. rewrite last_cons. by destruct (last l1).
    + intros b Hb. apply Hz. by right.
Qed.

(** When no pool of a non-empty chain holds the chunk, the search runs into
    the assertion, having changed nothing. *)
Lemma mem_PoolsFree_search_not_found s pChunk l fuel head prev :
  is_chain (pool_headers s) head l → l ≠ [] →
  (∀ a, a ∈ l → in_pool_at (pool_headers s) pChunk a = false) →
  (length l ≤ fuel)%nat →
  mem_PoolsFree_search fuel pChunk head prev s = Stop AssertionFailed s.
Proof.
  unfold is_chain. intros Hseg Hne Hz. revert head fuel prev Hseg Hz.
  induction l as [|a l IH]; intros head fuel prev Hseg Hz Hlen; [done|].
  simpl in Hseg. destruct Hseg as (-> & Ha & r & Hr & Hseg).
  destruct fuel as [|fuel]; [simpl in Hlen; lia|].
  assert (Hfa : chunk_in_pool pChunk r = false).
  { specialize (Hz a). unfold in_pool_at in Hz. rewrite Hr in Hz. apply Hz. by left. }
  simpl. rewrite (bind_Done _ _ _ _ _ (load_Done a r s Ha Hr)).
  rewrite Hfa. simpl.
  rewrite (bind_Done _ _ _ _ _ (field_Done _ a r s Ha Hr)).
  destruct l as [|b l].
  - simpl in Hseg. rewrite Hseg. done.
  - pose proof Hseg as (Hb & Hbn & _). apply Z.eqb_neq in Hbn.
    rewrite Hb, Hbn. simpl. rewrite <- Hb.
    apply IH; [done|done| |simpl in *; lia].
    intros x Hx. apply Hz. by right.
Qed.

Lemma read_mem_Pools_run s c v :
  mem_Pools s !! c = Some v → read_mem_Pools c s = Done v s.
Proof. unfold read_mem_Pools. by intros ->. Qed.

Lemma write_mem_Pools_run s c v :
  (c < length (mem_Pools s))%nat →
  write_mem_Pools c v s = Done tt (set_mem_Pools (<[c:=v]> (mem_Pools s)) s).
Proof. intros H. unfold write_mem_Pools. by rewrite decide_True. Qed.

Lemma read_mem_FreeChunksNumber_run s c v :
  mem_FreeChunksNumber s !! c = Some v → read_mem_FreeChunksNumber c s = Done v s.
Proof. unfold read_mem_FreeChunksNumber. by intros ->. Qed.

Lemma write_mem_FreeChunksNumber_run s c v :
  (c < length (mem_FreeChunksNumber s))%nat →
  write_mem_FreeChunksNumber c v s =
  Done tt (set_mem_FreeChunksNumber (<[c:=v]> (mem_FreeChunksNumber s)) s).
Proof. intros H. unfold write_mem_FreeChunksNumber. by rewrite decide_True. Qed.

Lemma write_m_pNextPool_run s p n r :
  p ≠ NULL → pool_headers s !! p = Some r →
  write_m_pNextPool p n s =
  Done tt (set_pool_headers (<[p:=set_m_pNextPool n r]> (pool_headers s)) s).
Proof.
  intros Hp Hr. unfold write_m_pNextPool.
  rewrite (bind_Done _ _ _ _ _ (load_Done p r s Hp Hr)). by apply store_Done.
Qed.

Lemma call_HeapRecommendAllocationSize_run s n :
  call_HeapRecommendAllocationSize n s =
  Done (mem_HeapRecommendAllocationSize n) (log (Call_HeapRecommendAllocationSize n) s).
Proof. done. Qed.

Lemma call_HeapAllocBlock_run s n t :
  call_HeapAllocBlock n t s =
  Done (mem_HeapAllocBlock n t (heap s)).1
    (log (Call_HeapAllocBlock n t (mem_HeapAllocBlock n t (heap s)).1)
       (set_heap (mem_HeapAllocBlock n t (heap s)).2 s)).
Proof.
  unfold call_HeapAllocBlock, bind, gets.
  by destruct (mem_HeapAllocBlock n t (heap s)).
Qed.

Lemma call_HeapFreeBlock_run s b :
  call_HeapFreeBlock b s =
  Done tt (log (Call_HeapFreeBlock b) (set_heap (mem_HeapFreeBlock b (heap s)) s)).
Proof. done. Qed.

Lemma call_PoolInit_at_run s p cs b n :
  p ≠ NULL →
  call_PoolInit (PoolAt p) cs b n s =
  Done tt (log (Call_PoolInit (PoolAt p) cs b n)
             (set_pool_headers (<[p:=mem_PoolInit cs b n]> (pool_headers s)) s)).
Proof.
  intros Hp. unfold call_PoolInit, write_pool.
  by rewrite (bind_Done _ _ _ _ _ (store_Done p _ s Hp)).
Qed.

Lemma call_PoolAllocChunk_header_run s :
  call_PoolAllocChunk HeaderPool s =
  Done (mem_PoolAllocChunk (mem_PoolForPoolHeaders s)).1
    (log (Call_PoolAllocChunk HeaderPool (mem_PoolAllocChunk (mem_PoolForPoolHeaders s)).1)
       (set_mem_PoolForPoolHeaders (mem_PoolAllocChunk (mem_PoolForPoolHeaders s)).2 s)).
Proof.
  unfold call_PoolAllocChunk, read_pool, bind, gets.
  by destruct (mem_PoolAllocChunk (mem_PoolForPoolHeaders s)).
Qed.

Lemma call_PoolAllocChunk_at_run s q rq :
  q ≠ NULL → pool_headers s !! q = Some rq →
  call_PoolAllocChunk (PoolAt q) s =
  Done (mem_PoolAllocChunk rq).1
    (log (Call_PoolAllocChunk (PoolAt q) (mem_PoolAllocChunk rq).1)
       (set_pool_headers (<[q:=(mem_PoolAllocChunk rq).2]> (pool_headers s)) s)).
Proof.
  intros Hq Hrq. unfold call_PoolAllocChunk, read_pool.
  rewrite (bind_Done _ _ _ _ _ (load_Done q rq s Hq Hrq)).
  destruct (mem_PoolAllocChunk rq) as [p rq']. unfold write_pool.
  by rewrite (bind_Done _ _ _ _ _ (store_Done q rq' s Hq)).
Qed.

Lemma call_PoolFreeChunk_header_run s p :
  call_PoolFreeChunk HeaderPool p s =
  Done tt (log (Call_PoolFreeChunk HeaderPool p)
             (set_mem_PoolForPoolHeaders
                (mem_PoolFreeChunk (mem_PoolForPoolHeaders s) p) s)).
Proof. done. Qed.

Lemma call_PoolFreeChunk_at_run s q rq p :
  q ≠ NULL → pool_headers s !! q = Some rq →
  call_PoolFreeChunk (PoolAt q) p s =
  Done tt (log (Call_PoolFreeChunk (PoolAt q) p)
             (set_pool_headers (<[q:=mem_PoolFreeChunk rq p]> (pool_headers s)) s)).
Proof.
  intros Hq Hrq. unfold call_PoolFreeChunk, read_pool.
  rewrite (bind_Done _ _ _ _ _ (load_Done q rq s Hq Hrq)). unfold write_pool.
  by rewrite (bind_Done _ _ _ _ _ (store_Done q _ s Hq)).
Qed.

(** On an empty chain the search reads through the null pointer. *)
Lemma mem_PoolsFree_search_empty s pChunk fuel prev :
  mem_PoolsFree_search fuel pChunk NULL prev s = Stop InvalidAccess s.
Proof. by destruct fuel. Qed.

End Runs.

(** * The states the operations lead to *)

Section Steps.
Context {C : Collaborators}.
Implicit Types (m : gmap Z pool) (l : list Z) (s : state).

(** The state after [mem_PoolsAlloc] has taken the chunk [p] from the pool
    at [q], whose header becomes [rq']; [n] is the counter of the class
    before. *)
Definition take_state s (c : nat) (n q : Z) (rq' : pool) (p : Z) : state :=
  log (Call_PoolAllocChunk (PoolAt q) p)
    (set_pool_headers (<[q:=rq']> (pool_headers s))
       (set_mem_FreeChunksNumber (<[c:=to_size_t (n - 1)]> (mem_FreeChunksNumber s)) s)).

Lemma take_state_counters s c n q rq' p :
  mem_FreeChunksNumber (take_state s c n q rq' p) =
  <[c:=to_size_t (n - 1)]> (mem_FreeChunksNumber s).
Proof. done. Qed.

Lemma take_state_headers s c n q rq' p :
  pool_headers (take_state s c n q rq' p) = <[q:=rq']> (pool_headers s).
Proof. done. Qed.

Lemma mem_PoolsAlloc_take_run s c head n l1 q rq :
  mem_Pools s !! c = Some head →
  mem_FreeChunksNumber s !! c = Some n →
  is_seg (pool_headers s) head l1 q →
  (∀ a, a ∈ l1 → free_at (pool_headers s) a = 0) →
  q ≠ NULL → pool_headers s !! q = Some rq → m_FreeChunksNumber rq ≠ 0 →
  (length l1 ≤ size (pool_headers s))%nat →
  mem_PoolsAlloc_take c s =
  Done (mem_PoolAllocChunk rq).1
    (take_state s c n q (mem_PoolAllocChunk rq).2 (mem_PoolAllocChunk rq).1).
Proof.
  intros Hhead Hn Hseg Hz Hq Hrq Hfree Hlen.
  unfold mem_PoolsAlloc_take.
  rewrite (bind_Done _ _ _ _ _ (read_mem_Pools_run s c head Hhead)).
  unfold bind at 1. unfold chain_fuel, gets.
  rewrite (bind_Done _ _ _ _ _
    (mem_PoolsAlloc_search_found s l1 q rq _ head Hseg Hz Hq Hrq Hfree Hlen)).
  rewrite (bind_Done _ _ _ _ _ (read_mem_FreeChunksNumber_run s c n Hn)).
  erewrite bind_Done
    by (apply write_mem_FreeChunksNumber_run; eapply lookup_lt_Some; eauto).
  by rewrite (call_PoolAllocChunk_at_run _ q rq Hq).
Qed.

(** The state after the header pool has been asked for a chunk. *)
Definition carve_state s : state :=
  log (Call_PoolAllocChunk HeaderPool (mem_PoolAllocChunk (mem_PoolForPoolHeaders s)).1)
    (set_mem_PoolForPoolHeaders (mem_PoolAllocChunk (mem_PoolForPoolHeaders s)).2 s).

(** The size asked of the heap for a pool of chunks of [chunkSize] bytes. *)
Definition grow_request (chunkSize : Z) : Z := to_size_t (8 * chunkSize + sizeof_mword_t).
Definition grow_size (chunkSize : Z) : Z :=
  mem_HeapRecommendAllocationSize (grow_request chunkSize).

(** The state after the heap has then been asked for a block. *)
Definition block_state s (chunkSize : Z) : state :=
  let s1 := log (Call_HeapRecommendAllocationSize (grow_request chunkSize)) (carve_state s) in
  let r := mem_HeapAllocBlock (grow_size chunkSize) MEM_HEAP_ALLOC_LONG_TERM (heap s1) in
  log (Call_HeapAllocBlock (grow_size chunkSize) MEM_HEAP_ALLOC_LONG_TERM r.1)
    (set_heap r.2 s1).

(** The header chunk and the block obtained by the growth block. *)
Definition new_header s : Z := (mem_PoolAllocChunk (mem_PoolForPoolHeaders s)).1.
Definition new_block s (chunkSize : Z) : Z :=
  (mem_HeapAllocBlock (grow_size chunkSize) MEM_HEAP_ALLOC_LONG_TERM (heap s)).1.

(** The header written for the new pool, linked in front of [head]. *)
Definition new_pool s (chunkSize head : Z) : pool :=
  set_m_pNextPool head
    (mem_PoolInit chunkSize (new_block s chunkSize) (grow_size chunkSize)).

(** The state at the end of the growth block; [head] and [n] are the head of
    the chain and the counter of the class before. *)
Definition grown_state s (c : nat) (chunkSize head n : Z) : state :=
  let s2 := block_state s chunkSize in
  set_mem_FreeChunksNumber
    (<[c:=to_size_t (n + m_FreeChunksNumber (new_pool s chunkSize head))]>
       (mem_FreeChunksNumber s))
    (set_mem_Pools (<[c:=new_header s]> (mem_Pools s))
       (set_pool_headers
          (<[new_header s:=new_pool s chunkSize head]> (pool_headers s))
          (log (Call_PoolInit (PoolAt (new_header s)) chunkSize
                  (new_block s chunkSize) (grow_size chunkSize)) s2))).

Lemma mem_PoolsAlloc_grow_header_fail s c cs :
  new_header s = NULL →
  mem_PoolsAlloc_grow c cs s = Done false (carve_state s).
Proof.
  intros H. unfold mem_PoolsAlloc_grow.
  rewrite (bind_Done _ _ _ _ _ (call_PoolAllocChunk_header_run s)).
  apply Z.eqb_eq in H. unfold new_header in H. by rewrite H.
Qed.

Lemma mem_PoolsAlloc_grow_heap_fail s c cs :
  new_header s ≠ NULL → new_block s cs = NULL →
  mem_PoolsAlloc_grow c cs s = Done false (block_state s cs).
Proof.
  intros Hh Hb. unfold mem_PoolsAlloc_grow.
  rewrite (bind_Done _ _ _ _ _ (call_PoolAllocChunk_header_run s)).
  fold (new_header s). apply Z.eqb_neq in Hh. rewrite Hh.
  rewrite (bind_Done _ _ _ _ _ (call_HeapRecommendAllocationSize_run _ _)).
  rewrite (bind_Done _ _ _ _ _ (call_HeapAllocBlock_run _ _ _)).
  simpl. fold (grow_request cs). fold (grow_size cs). fold (new_block s cs).
  apply Z.eqb_eq in Hb. by rewrite Hb.
Qed.

Lemma mem_PoolsAlloc_grow_ok s c cs head n :
  new_header s ≠ NULL → new_block s cs ≠ NULL →
  mem_Pools s !! c = Some head → mem_FreeChunksNumber s !! c = Some n →
  mem_PoolsAlloc_grow c cs s = Done true (grown_state s c cs head n).
Proof.
  intros Hh Hb Hhead Hn. unfold mem_PoolsAlloc_grow.
  rewrite (bind_Done _ _ _ _ _ (call_PoolAllocChunk_header_run s)).
  fold (new_header s). pose proof Hh as Hh'. apply Z.eqb_neq in Hh'. rewrite Hh'.
  rewrite (bind_Done _ _ _ _ _ (call_HeapRecommendAllocationSize_run _ _)).
  rewrite (bind_Done _ _ _ _ _ (call_HeapAllocBlock_run _ _ _)).
  simpl. fold (grow_request cs). fold (grow_size cs). fold (new_block s cs).
  pose proof Hb as Hb'. apply Z.eqb_neq in Hb'. rewrite Hb'.
  rewrite (bind_Done _ _ _ _ _ (call_PoolInit_at_run _ _ _ _ _ Hh)).
  erewrite bind_Done by (apply read_mem_Pools_run; exact Hhead).
  erewrite bind_Done
    by (apply write_m_pNextPool_run; [exact Hh|simpl; apply lookup_insert_eq]).
  erewrite bind_Done
    by (apply write_mem_Pools_run; simpl; eapply lookup_lt_Some; eauto).
  erewrite bind_Done by (apply read_mem_FreeChunksNumber_run; exact Hn).
  erewrite bind_Done
    by (apply field_Done; [exact Hh|simpl; apply lookup_insert_eq]).
  erewrite bind_Done
    by (apply write_mem_FreeChunksNumber_run; simpl; eapply lookup_lt_Some; eauto).
  unfold ret, grown_state, new_pool. simpl. rewrite insert_insert_eq. done.
Qed.

(** The state after [mem_PoolsFree] has given the chunk [p] back to the pool
    at [q], whose header was [rq]; [n] is the counter of the class before. *)
Definition released_state s (c : nat) (n q : Z) (rq : pool) (p : Z) : state :=
  set_mem_FreeChunksNumber (<[c:=to_size_t (n + 1)]> (mem_FreeChunksNumber s))
    (log (Call_PoolFreeChunk (PoolAt q) p)
       (set_pool_headers (<[q:=mem_PoolFreeChunk rq p]> (pool_headers s)) s)).

(** Taking a pool out of its chain: the link of the pool in front of it, at
    [prev] with header [rp], or else the head of the chain, is set to
    [next]. *)
Definition unlinked_state s (c : nat) (prev : Z) (rp : pool) (next : Z) : state :=
  if prev =? NULL then set_mem_Pools (<[c:=next]> (mem_Pools s)) s
  else set_pool_headers (<[prev:=set_m_pNextPool next rp]> (pool_headers s)) s.

(** The state after the pool at [q], with header [rq'], has been taken out of
    the chain and freed; [n] is the counter of the class before. *)
Definition consolidated_state s (c : nat) (q : Z) (rq' : pool) (prev : Z) (rp : pool)
    (n : Z) : state :=
  let s1 := unlinked_state s c prev rp (m_pNextPool rq') in
  log (Call_PoolFreeChunk HeaderPool q)
    (set_mem_PoolForPoolHeaders (mem_PoolFreeChunk (mem_PoolForPoolHeaders s) q)
       (log (Call_HeapFreeBlock (m_pPoolStart rq'))
          (set_heap (mem_HeapFreeBlock (m_pPoolStart rq') (heap s))
             (set_mem_FreeChunksNumber
                (<[c:=to_size_t (n - m_ChunksNumber rq')]> (mem_FreeChunksNumber s))
                s1)))).

Lemma mem_PoolsFree_release_run s c q rq' prev rp n :
  q ≠ NULL → pool_headers s !! q = Some rq' →
  mem_FreeChunksNumber s !! c = Some n →
  (c < length (mem_Pools s))%nat →
  (prev ≠ NULL → prev ≠ q ∧ pool_headers s !! prev = Some rp) →
  mem_PoolsFree_release c q prev s = Done tt (consolidated_state s c q rq' prev rp n).
Proof.
  intros Hq Hrq Hn Hc Hprev. unfold mem_PoolsFree_release, consolidated_state, unlinked_state.
  destruct (prev =? NULL) eqn:Hp; simpl.
  - erewrite bind_Done; cycle 1.
    { erewrite bind_Done by (apply field_Done; [exact Hq|exact Hrq]).
      by apply write_mem_Pools_run. }
    erewrite bind_Done by (apply read_mem_FreeChunksNumber_run; exact Hn).
    erewrite bind_Done by (apply field_Done; [exact Hq|exact Hrq]).
    erewrite bind_Done
      by (apply write_mem_FreeChunksNumber_run; simpl; eapply lookup_lt_Some; eauto).
    erewrite bind_Done by (apply field_Done; [exact Hq|exact Hrq]).
    rewrite (bind_Done _ _ _ _ _ (call_HeapFreeBlock_run _ _)).
    by rewrite call_PoolFreeChunk_header_run.
  - apply Z.eqb_neq in Hp. destruct (Hprev Hp) as [Hne Hrp].
    erewrite bind_Done; cycle 1.
    { erewrite bind_Done by (apply field_Done; [exact Hq|exact Hrq]).
      by apply write_m_pNextPool_run. }
    assert (Hrq2 : <[prev:=set_m_pNextPool (m_pNextPool rq') rp]> (pool_headers s) !! q
                   = Some rq') by (by rewrite lookup_insert_ne).
    erewrite bind_Done by (apply read_mem_FreeChunksNumber_run; exact Hn).
    erewrite bind_Done by (apply field_Done; [exact Hq|exact Hrq2]).
    erewrite bind_Done
      by (apply write_mem_FreeChunksNumber_run; simpl; eapply lookup_lt_Some; eauto).
    erewrite bind_Done by (apply field_Done; [exact Hq|exact Hrq2]).
    rewrite (bind_Done _ _ _ _ _ (call_HeapFreeBlock_run _ _)).
    by rewrite call_PoolFreeChunk_header_run.
Qed.

(** The part of [mem_PoolsFree] up to the test for a wholly free pool. *)
Lemma mem_PoolsFree_run s c p head n l1 q rq :
  mem_Pools s !! c = Some head →
  mem_FreeChunksNumber s !! c = Some n →
  is_seg (pool_headers s) head l1 q →
  (∀ a, a ∈ l1 → in_pool_at (pool_headers s) p a = false) →
  q ≠ NULL → pool_headers s !! q = Some rq → chunk_in_pool p rq = true →
  (length l1 ≤ size (pool_headers s))%nat →
  mem_PoolsFree c p s =
  let rq' := mem_PoolFreeChunk rq p in
  if m_FreeChunksNumber rq' =? m_ChunksNumber rq'
  then mem_PoolsFree_release c q (default NULL (last l1)) (released_state s c n q rq p)
  else Done tt (released_state s c n q rq p).
Proof.
  intros Hhead Hn Hseg Hz Hq Hrq Hin Hlen.
  assert (Hin' : in_pool_at (pool_headers s) p q = true)
    by (unfold in_pool_at; by rewrite Hrq).
  unfold mem_PoolsFree.
  rewrite (bind_Done _ _ _ _ _ (read_mem_Pools_run s c head Hhead)).
  unfold bind at 1. unfold chain_fuel, gets.
  rewrite (bind_Done _ _ _ _ _
    (mem_PoolsFree_search_found s p l1 q _ head NULL Hseg Hz Hq Hin' Hlen)).
  rewrite (bind_Done _ _ _ _ _ (call_PoolFreeChunk_at_run s q rq p Hq Hrq)).
  erewrite bind_Done by (apply read_mem_FreeChunksNumber_run; exact Hn).
  erewrite bind_Done
    by (apply write_mem_FreeChunksNumber_run; simpl; eapply lookup_lt_Some; eauto).
  erewrite bind_Done
    by (apply field_Done; [exact Hq|simpl; apply lookup_insert_eq]).
  erewrite bind_Done
    by (apply field_Done; [exact Hq|simpl; apply lookup_insert_eq]).
  simpl. destruct (_ =? _); done.
Qed.

End Steps.

(** * Blocks that do not overlap fit in the address space *)

Section Packing.

(** A block is a pair of a start address and a size. *)
Definition apart (x y : Z * Z) : Prop := x.1 + x.2 ≤ y.1 ∨ y.1 + y.2 ≤ x.1.

Fixpoint all_apart (L : list (Z * Z)) : Prop :=
  match L with
  | [] => True
  | x :: L' => Forall (apart x) L' ∧ all_apart L'
  end.

Definition total_size (L : list (Z * Z)) : Z := foldr (λ x acc, x.2 + acc) 0 L.

Lemma total_size_filter (P : Z * Z → Prop) `{!∀ x, Decision (P x)} L :
  total_size L = total_size (filter P L) + total_size (filter (λ x, ¬ P x) L).
Proof.
  induction L as [|x L IH]; [done|].
  destruct (decide (P x)) as [HP|HP].
  - rewrite (filter_cons_True P) by done.
    rewrite (filter_cons_False (λ x, ¬ P x)) by tauto. simpl. lia.
  - rewrite (filter_cons_False P) by done.
    rewrite (filter_cons_True (λ x, ¬ P x)) by done. simpl. lia.
Qed.

Lemma all_apart_filter (P : Z * Z → Prop) `{!∀ x, Decision (P x)} L :
  all_apart L → all_apart (filter P L).
Proof.
  induction L as [|x L IH]; [done|]. intros [Hx HL].
  destruct (decide (P x)).
  - rewrite filter_cons_True by done. split; [|auto].
    apply Forall_forall. intros y [_ Hy]%list_elem_of_filter.
    by eapply Forall_forall in Hx.
  - rewrite filter_cons_False by done. auto.
Qed.

Lemma packing (n : nat) : ∀ L lo hi,
  (length L ≤ n)%nat → lo ≤ hi →
  Forall (λ x, lo ≤ x.1 ∧ x.1 + x.2 ≤ hi) L → all_apart L →
  total_size L ≤ hi - lo.
Proof.
  induction n as [|n IH]; intros L lo hi Hlen Hlh Hin Hap.
  - destruct L; [simpl; lia|simpl in Hlen; lia].
  - destruct L as [|x L]; [simpl; lia|].
    apply Forall_cons in Hin as [[Hx1 Hx2] Hin]. destruct Hap as [Hx Hap].
    simpl in Hlen.
    rewrite (Forall_forall (apart x)) in Hx. rewrite Forall_forall in Hin.
    set (P := λ y : Z * Z, y.1 + y.2 ≤ x.1).
    assert (Hl : total_size (filter P L) ≤ x.1 - lo).
    { apply IH.
      - pose proof (length_filter P L). lia.
      - done.
      - apply Forall_forall. intros y [Hy Hy']%list_elem_of_filter.
        split; [by apply Hin|done].
      - by apply all_apart_filter. }
    assert (Hr : total_size (filter (λ y, ¬ P y) L) ≤ hi - (x.1 + x.2)).
    { apply IH.
      - pose proof (length_filter (λ y, ¬ P y) L). lia.
      - done.
      - apply Forall_forall. intros y [Hy Hy']%list_elem_of_filter.
        split; [|by apply Hin].
        destruct (Hx y Hy') as [?|?]; [done|]. unfold P in Hy. lia.
      - by apply all_apart_filter. }
    change (total_size (x :: L)) with (x.2 + total_size L).
    rewrite (total_size_filter P L). lia.
Qed.

End Packing.

(** * The invariant is kept *)

Section Preservation.
Context {C : Collaborators} {K : Contracts C}.
Implicit Types (m : gmap Z pool) (l : list Z) (s : state).

Lemma wf_chains_nodup s chains c l :
  wf_chains s chains → chains !! c = Some l → NoDup l.
Proof. intros Hwf. eapply NoDup_concat_lookup, Hwf. Qed.

Lemma wf_chains_elem s chains c l a :
  wf_chains s chains → chains !! c = Some l → a ∈ l → a ∈ concat chains.
Proof. intros _ Hc Ha. apply elem_of_concat_lookup. eauto. Qed.

Lemma wf_chains_not_null s chains a :
  wf_chains s chains → a ∈ concat chains → a ≠ NULL.
Proof.
  intros Hwf (c & l & Hc & Ha)%elem_of_concat_lookup.
  destruct (wf_chain _ _ Hwf c l Hc) as (head & _ & Hch).
  by destruct (is_seg_elem _ _ _ _ a Hch Ha).
Qed.

Lemma wf_chains_free_nonneg s chains a :
  wf_chains s chains → a ∈ concat chains → 0 ≤ free_at (pool_headers s) a.
Proof.
  intros Hwf Ha. destruct (wf_member _ _ Hwf a Ha) as (r & Hr & Hv & _).
  unfold free_at. rewrite Hr. by destruct (valid_counts r Hv) as [[? _] _].
Qed.

(** Replacing the header of a pool of the chain of [c] by one of the same
    layout, and adjusting the counter of [c] accordingly. *)
Lemma wf_update_pool s s' chains c l q rq rq' n v :
  wf_chains s chains → chains !! c = Some l → q ∈ l →
  pool_headers s !! q = Some rq → mem_FreeChunksNumber s !! c = Some n →
  pool_valid rq' → same_layout rq rq' →
  v = n - m_FreeChunksNumber rq + m_FreeChunksNumber rq' → 0 ≤ v < SIZE_MODULUS →
  mem_Pools s' = mem_Pools s →
  mem_FreeChunksNumber s' = <[c:=v]> (mem_FreeChunksNumber s) →
  mem_PoolForPoolHeaders s' = mem_PoolForPoolHeaders s →
  pool_headers s' = <[q:=rq']> (pool_headers s) →
  heap s' = heap s →
  wf_chains s' chains.
Proof.
  intros Hwf Hc Hq Hrq Hn Hv (Hl1 & Hl2 & Hl3 & Hl4 & Hl5) -> Hrange HP HF HH HS Hheap.
  pose proof (wf_chains_nodup _ _ _ _ Hwf Hc) as Hnd.
  assert (Hlt : (c < length (mem_FreeChunksNumber s))%nat) by (eapply lookup_lt_Some; eauto).
  destruct Hwf as [W1 W2 W3 W4 W5 W6 W7 W8 W9 W10].
  constructor; rewrite ?HP, ?HF, ?HH, ?HS, ?Hheap; try done.
  - by rewrite length_insert.
  - intros c' l' Hc'. destruct (W6 c' l' Hc') as (head & Hhead & Hch).
    exists head. split; [done|]. revert Hch. apply is_seg_ext.
    intros a r Ha Hr. destruct (decide (a = q)) as [->|Hne].
    + exists rq'. rewrite lookup_insert_eq. split; [done|]. congruence.
    + exists r. by rewrite lookup_insert_ne.
  - intros c' l' Hc'. destruct (decide (c' = c)) as [->|Hne].
    + rewrite list_lookup_insert_eq by done. f_equal.
      assert (l' = l) as -> by congruence.
      rewrite sum_free_insert_in by done.
      specialize (W7 c l Hc). rewrite Hn in W7. injection W7 as ->.
      unfold free_at. rewrite Hrq. lia.
    + rewrite list_lookup_insert_ne by done. rewrite (W7 c' l' Hc'). f_equal.
      symmetry. apply sum_free_insert_notin.
      eapply (NoDup_concat_apart chains c c'); eauto.
  - intros c' n'. destruct (decide (c' = c)) as [->|Hne].
    + rewrite list_lookup_insert_eq by done. by intros [= <-].
    + rewrite list_lookup_insert_ne by done. apply W8.
  - intros a Ha. destruct (W9 a Ha) as (r & Hr & Hvr & Hpos & Hlive & Hused).
    unfold member_ok. rewrite HS, Hheap, HH.
    destruct (decide (a = q)) as [->|Hne].
    + exists rq'. rewrite lookup_insert_eq. rewrite Hr in Hrq. injection Hrq as ->.
      rewrite Hl1, Hl2, Hl4. done.
    + exists r. rewrite lookup_insert_ne by done. done.
  - intros a b ra rb Ha Hb Hab Hra Hrb.
    assert (Hold : ∀ x rx, x ∈ concat chains → <[q:=rq']> (pool_headers s) !! x = Some rx →
      ∃ rx0, pool_headers s !! x = Some rx0 ∧
             m_pPoolStart rx = m_pPoolStart rx0 ∧ m_PoolSize rx = m_PoolSize rx0).
    { intros x rx Hx Hrx. destruct (decide (x = q)) as [->|Hne].
      - rewrite lookup_insert_eq in Hrx. injection Hrx as <-. eauto.
      - rewrite lookup_insert_ne in Hrx by done. eauto. }
    destruct (Hold a ra Ha Hra) as (ra0 & Hra0 & Ea1 & Ea2).
    destruct (Hold b rb Hb Hrb) as (rb0 & Hrb0 & Eb1 & Eb2).
    pose proof (W10 a b ra0 rb0 Ha Hb Hab Hra0 Hrb0) as Hap.
    unfold blocks_apart in *. rewrite Ea1, Ea2, Eb1, Eb2. done.
Qed.

(** The block of the pool whose header is at [a]. *)
Definition block_at m (a : Z) : Z * Z :=
  match m !! a with
  | Some r => (m_pPoolStart r, m_PoolSize r)
  | None => (0, 0)
  end.

Lemma sum_free_capacity m l :
  NoDup l →
  (∀ a, a ∈ l → ∃ r, m !! a = Some r ∧
     m_FreeChunksNumber r + 1 ≤ m_PoolSize r ∧
     0 ≤ m_pPoolStart r ∧ m_pPoolStart r + m_PoolSize r ≤ SIZE_MODULUS) →
  (∀ a b ra rb, a ∈ l → b ∈ l → a ≠ b →
     m !! a = Some ra → m !! b = Some rb → blocks_apart ra rb) →
  sum_free m l + Z.of_nat (length l) ≤ SIZE_MODULUS.
Proof.
  intros Hnd Hin Hap.
  assert (Hsum : sum_free m l + Z.of_nat (length l) ≤ total_size (map (block_at m) l)).
  { clear Hnd Hap. induction l as [|a l IH]; [done|].
    rewrite sum_free_cons. simpl.
    destruct (Hin a) as (r & Hr & Hle & _); [by left|].
    unfold free_at, block_at at 1. rewrite Hr. simpl.
    assert (sum_free m l + Z.of_nat (length l) ≤ total_size (map (block_at m) l)).
    { apply IH. intros b Hb. apply Hin. by right. }
    lia. }
  assert (Hall : all_apart (map (block_at m) l)).
  { clear Hsum. induction l as [|a l IH]; [done|].
    apply NoDup_cons in Hnd as [Ha Hnd]. simpl. split.
    - apply Forall_forall. intros y (b & -> & Hb)%list_elem_of_fmap.
      destruct (Hin a) as (ra & Hra & _); [by left|].
      destruct (Hin b) as (rb & Hrb & _); [by right|].
      unfold block_at. rewrite Hra, Hrb.
      apply (Hap a b ra rb); [by left|by right| |done|done]. by intros ->.
    - apply IH; [done| |].
      + intros b Hb. apply Hin. by right.
      + intros x y rx ry Hx Hy. apply Hap; by right. }
  assert (Hfit : Forall (λ x, 0 ≤ x.1 ∧ x.1 + x.2 ≤ SIZE_MODULUS) (map (block_at m) l)).
  { apply Forall_forall. intros y (b & -> & Hb)%list_elem_of_fmap.
    destruct (Hin b Hb) as (rb & Hrb & _ & H1 & H2).
    unfold block_at. by rewrite Hrb. }
  assert (0 ≤ SIZE_MODULUS) by (unfold SIZE_MODULUS; apply Z.pow_nonneg; lia).
  pose proof (packing _ _ 0 SIZE_MODULUS (le_n _) H Hfit Hall). lia.
Qed.

(** A valid header with chunks leaves room for them in a block within the
    address space. *)
Lemma member_room s r :
  pool_valid r → 0 < m_ChunksNumber r →
  block_live (heap s) (m_pPoolStart r) (m_PoolSize r) →
  m_FreeChunksNumber r + 1 ≤ m_PoolSize r ∧
  0 ≤ m_pPoolStart r ∧ m_pPoolStart r + m_PoolSize r ≤ SIZE_MODULUS.
Proof.
  intros Hv Hpos Hlive.
  destruct (valid_counts r Hv) as [[_ ?] _].
  destruct (valid_layout r Hv Hpos).
  destruct (live_in_space _ _ _ Hlive). lia.
Qed.

(** The counter of a class can be incremented without wrapping around when
    a pool of its chain has a used chunk. *)
Lemma wf_counter_room s chains c l q rq :
  wf_chains s chains → chains !! c = Some l → q ∈ l →
  pool_headers s !! q = Some rq → m_FreeChunksNumber rq < m_ChunksNumber rq →
  sum_free (pool_headers s) l + 1 < SIZE_MODULUS.
Proof.
  intros Hwf Hc Hq Hrq Hlt.
  pose proof (wf_chains_nodup _ _ _ _ Hwf Hc) as Hnd.
  set (rq' := Build_PoolState (m_pPoolStart rq) (m_PoolSize rq) (m_pChunks rq)
                (m_ChunksNumber rq) (m_FreeChunksNumber rq + 1) (m_pNextPool rq)
                (m_Internal rq)).
  pose proof (sum_free_capacity (<[q:=rq']> (pool_headers s)) l Hnd) as Hcap.
  rewrite sum_free_insert_in in Hcap by done.
  unfold free_at in Hcap. rewrite Hrq in Hcap. simpl in Hcap.
  assert (1 ≤ Z.of_nat (length l)).
  { destruct l; [by apply elem_of_nil in Hq|simpl; lia]. }
  assert (Hmem : ∀ a, a ∈ l → ∃ r, pool_headers s !! a = Some r ∧
     pool_valid r ∧ 0 < m_ChunksNumber r ∧
     block_live (heap s) (m_pPoolStart r) (m_PoolSize r)).
  { intros a Ha.
    destruct (wf_member _ _ Hwf a (wf_chains_elem _ _ _ _ _ Hwf Hc Ha))
      as (r & Hr & Hv & Hpos & Hlive & _). eauto. }
  enough (sum_free (pool_headers s) l - m_FreeChunksNumber rq
          + (m_FreeChunksNumber rq + 1) + Z.of_nat (length l) ≤ SIZE_MODULUS) by lia.
  apply Hcap.
  - intros a Ha. destruct (Hmem a Ha) as (r & Hr & Hv & Hpos & Hlive).
    destruct (decide (a = q)) as [->|Hne].
    + exists rq'. rewrite lookup_insert_eq. split; [done|]. simpl.
      assert (r = rq) as -> by congruence.
      destruct (valid_layout rq Hv Hpos). destruct (live_in_space _ _ _ Hlive). lia.
    + exists r. rewrite lookup_insert_ne by done. split; [done|].
      by eapply member_room.
  - intros a b ra rb Ha Hb Hab Hra Hrb.
    assert (Hold : ∀ x rx, <[q:=rq']> (pool_headers s) !! x = Some rx →
      ∃ rx0, pool_headers s !! x = Some rx0 ∧
             m_pPoolStart rx = m_pPoolStart rx0 ∧ m_PoolSize rx = m_PoolSize rx0).
    { intros x rx Hrx. destruct (decide (x = q)) as [->|Hne].
      - rewrite lookup_insert_eq in Hrx. injection Hrx as <-. eauto.
      - rewrite lookup_insert_ne in Hrx by done. eauto. }
    destruct (Hold a ra Hra) as (ra0 & Hra0 & Ea1 & Ea2).
    destruct (Hold b rb Hrb) as (rb0 & Hrb0 & Eb1 & Eb2).
    pose proof (wf_apart _ _ Hwf a b ra0 rb0
      (wf_chains_elem _ _ _ _ _ Hwf Hc Ha) (wf_chains_elem _ _ _ _ _ Hwf Hc Hb)
      Hab Hra0 Hrb0) as Hap.
    unfold blocks_apart in *. rewrite Ea1, Ea2, Eb1, Eb2. done.
Qed.

Lemma to_size_t_small z : 0 ≤ z < SIZE_MODULUS → to_size_t z = z.
Proof. intros. unfold to_size_t. by apply Z.mod_small. Qed.

Lemma to_size_t_range z : 0 < SIZE_MODULUS → 0 ≤ to_size_t z < SIZE_MODULUS.
Proof. intros. unfold to_size_t. by apply Z.mod_pos_bound. Qed.

Lemma wf_chains_counter s chains c l n :
  wf_chains s chains → chains !! c = Some l →
  mem_FreeChunksNumber s !! c = Some n →
  n = sum_free (pool_headers s) l ∧ 0 ≤ n < SIZE_MODULUS.
Proof.
  intros Hwf Hc Hn. split; [|by eapply wf_range].
  pose proof (wf_count _ _ Hwf c l Hc). congruence.
Qed.

(** *** Taking a chunk *)

Lemma wf_take s chains c l q rq n :
  wf_chains s chains → chains !! c = Some l → q ∈ l →
  pool_headers s !! q = Some rq → m_FreeChunksNumber rq ≠ 0 →
  mem_FreeChunksNumber s !! c = Some n →
  let p := (mem_PoolAllocChunk rq).1 in
  let rq' := (mem_PoolAllocChunk rq).2 in
  wf_chains (take_state s c n q rq' p) chains ∧
  to_size_t (n - 1) = n - 1 ∧
  p ≠ NULL ∧ chunk_used rq' p ∧ pool_valid rq' ∧ same_layout rq rq' ∧
  m_FreeChunksNumber rq' = m_FreeChunksNumber rq - 1 ∧
  m_pChunks rq ≤ p < m_pPoolStart rq + m_PoolSize rq.
Proof.
  intros Hwf Hc Hq Hrq Hfree Hn p rq'.
  pose proof (wf_chains_elem _ _ _ _ _ Hwf Hc Hq) as Hqc.
  destruct (wf_member _ _ Hwf q Hqc) as (r & Hr & Hv & Hpos & Hlive & Hused).
  assert (r = rq) as -> by congruence.
  destruct (alloc_some rq p rq' Hv Hfree) as (Hp & Hv' & Hnu & Hpr & Hf' & Hlay & Hu').
  { subst p rq'. by destruct (mem_PoolAllocChunk rq). }
  destruct (wf_chains_counter _ _ _ _ _ Hwf Hc Hn) as [Hsum Hrange].
  assert (Hge : m_FreeChunksNumber rq ≤ n).
  { rewrite Hsum. replace (m_FreeChunksNumber rq) with (free_at (pool_headers s) q)
      by (unfold free_at; by rewrite Hrq).
    apply sum_free_elem_le; [|done].
    intros b Hb. eapply wf_chains_free_nonneg; [done|]. by eapply wf_chains_elem. }
  destruct (valid_counts rq Hv) as [[Hf0 _] _].
  assert (Hsmall : to_size_t (n - 1) = n - 1) by (apply to_size_t_small; lia).
  split; [|split; [done|]].
  - eapply (wf_update_pool s _ chains c l q rq rq' n (to_size_t (n - 1)));
      try done; rewrite ?Hsmall; lia.
  - pose proof Hlay as (? & ? & ? & ? & ?).
    repeat split; try done; try lia. apply Hu'. by left.
Qed.

(** *** Growing a chain *)

Lemma header_carve s :
  pool_valid (mem_PoolForPoolHeaders s) → new_header s ≠ NULL →
  let hp := mem_PoolForPoolHeaders s in
  let hp' := (mem_PoolAllocChunk hp).2 in
  pool_valid hp' ∧ ¬ chunk_used hp (new_header s) ∧
  m_FreeChunksNumber hp' = m_FreeChunksNumber hp - 1 ∧
  ∀ x, chunk_used hp' x ↔ x = new_header s ∨ chunk_used hp x.
Proof.
  intros Hv Hps hp hp'.
  assert (Hfree : m_FreeChunksNumber hp ≠ 0).
  { intros Hz. apply Hps. unfold new_header. fold hp.
    by rewrite (alloc_none hp Hv Hz). }
  destruct (alloc_some hp (new_header s) hp' Hv Hfree) as (_ & ? & ? & _ & ? & _ & ?).
  { unfold new_header, hp'. fold hp. by destruct (mem_PoolAllocChunk hp). }
  done.
Qed.

Lemma grow_size_spec `{!PlatformOk C} cs :
  0 < cs → 8 * cs + sizeof_mword_t < SIZE_MODULUS / 2 →
  8 * cs + sizeof_mword_t ≤ grow_size cs < SIZE_MODULUS.
Proof.
  intros Hcs Hfit. pose proof sizeof_mword_t_pos.
  assert (SIZE_MODULUS / 2 ≤ SIZE_MODULUS).
  { apply Z.div_le_upper_bound; [lia|]. unfold SIZE_MODULUS.
    assert (0 ≤ 2 ^ SIZE_WIDTH) by (apply Z.pow_nonneg; lia). lia. }
  unfold grow_size, grow_request. rewrite to_size_t_small by lia.
  apply recommend_spec. lia.
Qed.

Lemma wf_grow `{!PlatformOk C} s chains c l cs head :
  wf_chains s chains → chains !! c = Some l →
  mem_Pools s !! c = Some head → mem_FreeChunksNumber s !! c = Some 0 →
  0 < cs → 8 * cs + sizeof_mword_t < SIZE_MODULUS / 2 →
  new_header s ≠ NULL → new_block s cs ≠ NULL →
  let rnew := new_pool s cs head in
  wf_chains (grown_state s c cs head 0) (<[c:=(new_header s :: l)]> chains) ∧
  (new_header s ∉ concat chains) ∧
  pool_valid rnew ∧ 0 < m_ChunksNumber rnew ∧
  m_FreeChunksNumber rnew = m_ChunksNumber rnew ∧
  (∀ x, ¬ chunk_used rnew x).
Proof.
  intros Hwf Hc Hhead Hn Hcs Hfit Hps Hb rnew.
  destruct (header_carve s (wf_header _ _ Hwf) Hps) as (Hhv & Hfresh & _ & Hhu).
  set (ps := new_header s) in *.
  set (hp' := (mem_PoolAllocChunk (mem_PoolForPoolHeaders s)).2) in *.
  assert (Hnotin : ps ∉ concat chains).
  { intros Hin. destruct (wf_member _ _ Hwf ps Hin) as (? & _ & _ & _ & _ & Hu). done. }
  destruct (grow_size_spec cs Hcs Hfit) as [Hsz1 Hsz2].
  pose proof sizeof_mword_t_pos as Hw.
  set (sz := grow_size cs) in *. set (b := new_block s cs) in *.
  destruct (heap_alloc_new sz MEM_HEAP_ALLOC_LONG_TERM (heap s) Hb) as [Hlive Hapart].
  fold b in Hlive, Hapart.
  set (h' := (mem_HeapAllocBlock sz MEM_HEAP_ALLOC_LONG_TERM (heap s)).2) in *.
  destruct (init_spec cs b sz Hcs) as (Hiv & Hi1 & Hi2 & Hi3 & Hi4); [lia|].
  assert (Hbpos : 0 < b).
  { destruct (live_in_space _ _ _ Hlive) as [Hb0 _]. change (0 ≤ b) in Hb0.
    unfold NULL in Hb. lia. }
  pose proof (init_nonempty cs b sz Hcs Hbpos (conj Hsz1 Hsz2)) as Hipos.
  assert (Hrv : pool_valid rnew) by (by apply valid_set_next).
  assert (Hru : ∀ x, ¬ chunk_used rnew x).
  { intros x Hx. apply (Hi4 x). by apply used_set_next in Hx. }
  destruct (valid_counts _ Hiv) as [_ Htot].
  assert (Hrf : m_FreeChunksNumber rnew = m_ChunksNumber rnew) by exact Hi3.
  assert (Hrp : 0 < m_ChunksNumber rnew) by exact Hipos.
  assert (Hrt : m_ChunksNumber rnew < SIZE_MODULUS) by exact Htot.
  assert (Hrs : m_pPoolStart rnew = b) by exact Hi1.
  assert (Hrz : m_PoolSize rnew = sz) by exact Hi2.
  assert (Hrn : m_pNextPool rnew = head) by reflexivity.
  assert (Hnd : NoDup (ps :: l)).
  { apply NoDup_cons. split; [|by eapply wf_chains_nodup].
    intros Hin. apply Hnotin. by eapply wf_chains_elem. }
  assert (Hmem : ∀ a, a ∈ concat (<[c:=(ps :: l)]> chains) → a = ps ∨ a ∈ concat chains).
  { intros a Ha.
    apply (elem_of_concat_insert chains c l (ps :: l) a Hc) in Ha
      as [Ha|(c' & l' & _ & Hc' & Ha)].
    - apply elem_of_cons in Ha as [->|Ha]; [by left|right]. by eapply wf_chains_elem.
    - right. apply elem_of_concat_lookup. eauto. }
  assert (Hlook : ∀ a, a ∈ concat chains →
    pool_headers (grown_state s c cs head 0) !! a = pool_headers s !! a).
  { intros a Ha. simpl. apply lookup_insert_ne. by intros <-. }
  assert (Hnew : pool_headers (grown_state s c cs head 0) !! ps = Some rnew).
  { simpl. apply lookup_insert_eq. }
  assert (Hltc : (c < length chains)%nat) by (eapply lookup_lt_Some; eauto).
  split; [|by rewrite Hrf].
  destruct Hwf as [W1 W2 W3 W4 W5 W6 W7 W8 W9 W10].
  assert (Hl1 : (c < length (mem_Pools s))%nat) by (eapply lookup_lt_Some; eauto).
  assert (Hl2 : (c < length (mem_FreeChunksNumber s))%nat) by (eapply lookup_lt_Some; eauto).
  constructor.
  - simpl. by rewrite length_insert.
  - simpl. by rewrite length_insert.
  - by rewrite length_insert.
  - done.
  - eapply NoDup_concat_insert; [done|done|done|].
    intros a [->|Ha]%elem_of_cons; auto.
  - intros c' l' Hc'. simpl. destruct (decide (c' = c)) as [->|Hne].
    + rewrite list_lookup_insert_eq in Hc' by done. injection Hc' as <-.
      exists ps. split; [by apply list_lookup_insert_eq|].
      split; [done|]. split; [done|]. exists rnew. split; [apply lookup_insert_eq|].
      rewrite Hrn.
      destruct (W6 c l Hc) as (head' & Hhead' & Hch).
      assert (head' = head) as -> by congruence.
      apply is_seg_insert_notin; [|done]. by apply NoDup_cons in Hnd as [? _].
    + rewrite list_lookup_insert_ne in Hc' by done.
      rewrite list_lookup_insert_ne by done.
      destruct (W6 c' l' Hc') as (head' & Hhead' & Hch). exists head'. split; [done|].
      apply is_seg_insert_notin; [|done].
      intros Hin. apply Hnotin. apply elem_of_concat_lookup. eauto.
  - intros c' l' Hc'. simpl. destruct (decide (c' = c)) as [->|Hne].
    + rewrite list_lookup_insert_eq in Hc' by done. injection Hc' as <-.
      rewrite list_lookup_insert_eq by done. f_equal.
      rewrite sum_free_cons, free_at_insert_eq.
      rewrite sum_free_insert_notin by (by apply NoDup_cons in Hnd as [? _]).
      pose proof (W7 c l Hc) as Hz. rewrite Hn in Hz.
      assert (Hz0 : sum_free (pool_headers s) l = 0) by congruence.
      rewrite Hz0.
      change (m_FreeChunksNumber (mem_PoolInit cs (new_block s cs) (grow_size cs)))
        with (m_FreeChunksNumber rnew).
      fold rnew. rewrite to_size_t_small; lia.
    + rewrite list_lookup_insert_ne in Hc' by done.
      rewrite list_lookup_insert_ne by done. rewrite (W7 c' l' Hc'). f_equal.
      symmetry. apply sum_free_insert_notin.
      intros Hin. apply Hnotin. apply elem_of_concat_lookup. eauto.
  - intros c' n'. simpl. destruct (decide (c' = c)) as [->|Hne].
    + rewrite list_lookup_insert_eq by done. intros [= <-].
      apply to_size_t_range. lia.
    + rewrite list_lookup_insert_ne by done. apply W8.
  - intros a Ha. destruct (Hmem a Ha) as [->|Hold].
    + exists rnew. split; [done|]. split; [done|]. split; [done|].
      split; [|simpl; apply Hhu; by left].
      by rewrite Hrs, Hrz.
    + destruct (W9 a Hold) as (r & Hr & Hv & Hpos & Hl & Hu).
      exists r. rewrite Hlook by done. split; [done|]. split; [done|]. split; [done|].
      simpl. split; [by apply heap_alloc_keeps|]. apply Hhu. by right.
  - assert (Hside : ∀ a ra, a ∈ concat chains → pool_headers s !! a = Some ra →
      blocks_apart rnew ra ∧ blocks_apart ra rnew).
    { intros a ra Ha Hra. destruct (W9 a Ha) as (r & Hr & _ & _ & Hl & _).
      assert (r = ra) as -> by congruence.
      destruct (Hapart _ _ Hl); unfold blocks_apart; rewrite Hrs, Hrz; auto. }
    intros x y rx ry Hx Hy Hxy Hrx Hry.
    destruct (Hmem x Hx) as [->|Hxo], (Hmem y Hy) as [->|Hyo].
    + done.
    + rewrite Hnew in Hrx. injection Hrx as <-. rewrite Hlook in Hry by done.
      by apply (Hside y ry).
    + rewrite Hnew in Hry. injection Hry as <-. rewrite Hlook in Hrx by done.
      by apply (Hside x rx).
    + rewrite Hlook in Hrx, Hry by done.
      exact (W10 x y rx ry Hxo Hyo Hxy Hrx Hry).
Qed.

(** *** Failed growth *)

(** The invariant only looks at used header chunks and live blocks, of which
    there may be more. *)
Lemma wf_chains_weaken s s' chains :
  wf_chains s chains →
  mem_Pools s' = mem_Pools s →
  mem_FreeChunksNumber s' = mem_FreeChunksNumber s →
  pool_headers s' = pool_headers s →
  pool_valid (mem_PoolForPoolHeaders s') →
  (∀ x, chunk_used (mem_PoolForPoolHeaders s) x → chunk_used (mem_PoolForPoolHeaders s') x) →
  (∀ b n, block_live (heap s) b n → block_live (heap s') b n) →
  wf_chains s' chains.
Proof.
  intros [W1 W2 W3 W4 W5 W6 W7 W8 W9 W10] HP HF HS Hv Hu Hl.
  constructor; rewrite ?HP, ?HF, ?HS; try done.
  intros a Ha. destruct (W9 a Ha) as (r & Hr & Hvr & Hpos & Hlive & Hused).
  exists r. rewrite HS. auto 10.
Qed.

Lemma wf_carve_fail s chains :
  wf_chains s chains → new_header s = NULL → wf_chains (carve_state s) chains.
Proof.
  intros Hwf Hps.
  assert (Hz : m_FreeChunksNumber (mem_PoolForPoolHeaders s) = 0).
  { destruct (decide (m_FreeChunksNumber (mem_PoolForPoolHeaders s) = 0)) as [|Hne]; [done|].
    destruct (alloc_some (mem_PoolForPoolHeaders s) (new_header s)
      (mem_PoolAllocChunk (mem_PoolForPoolHeaders s)).2 (wf_header _ _ Hwf) Hne)
      as (? & _); [|done].
    unfold new_header. by destruct (mem_PoolAllocChunk _). }
  pose proof (alloc_none _ (wf_header _ _ Hwf) Hz) as Hal.
  apply (wf_chains_weaken s); try done; simpl; rewrite Hal; simpl;
    [apply Hwf|done].
Qed.

Lemma wf_block_fail s chains cs :
  wf_chains s chains → new_header s ≠ NULL → wf_chains (block_state s cs) chains.
Proof.
  intros Hwf Hps.
  destruct (header_carve s (wf_header _ _ Hwf) Hps) as (Hhv & _ & _ & Hhu).
  apply (wf_chains_weaken s); try done; simpl.
  - intros x Hx. apply Hhu. by right.
  - intros b n Hl. by apply heap_alloc_keeps.
Qed.

(** *** Giving a chunk back *)

Lemma wf_release s chains c l q rq n p :
  wf_chains s chains → chains !! c = Some l → q ∈ l →
  pool_headers s !! q = Some rq → mem_FreeChunksNumber s !! c = Some n →
  chunk_used rq p →
  let rq' := mem_PoolFreeChunk rq p in
  wf_chains (released_state s c n q rq p) chains ∧
  to_size_t (n + 1) = n + 1 ∧
  pool_valid rq' ∧ same_layout rq rq' ∧
  m_FreeChunksNumber rq' = m_FreeChunksNumber rq + 1 ∧
  ∀ x, chunk_used rq' x ↔ x ≠ p ∧ chunk_used rq x.
Proof.
  intros Hwf Hc Hq Hrq Hn Hused rq'. subst rq'.
  pose proof (wf_chains_elem _ _ _ _ _ Hwf Hc Hq) as Hqc.
  destruct (wf_member _ _ Hwf q Hqc) as (r & Hr & Hv & Hpos & Hlive & _).
  assert (r = rq) as -> by congruence.
  destruct (free_spec rq p Hv Hused) as (Hv' & Hf' & Hlay & Hu').
  destruct (wf_chains_counter _ _ _ _ _ Hwf Hc Hn) as [Hsum Hrange].
  pose proof (wf_counter_room s chains c l q rq Hwf Hc Hq Hrq
                (used_not_free rq p Hv Hused)) as Hroom.
  assert (Hsmall : to_size_t (n + 1) = n + 1) by (apply to_size_t_small; lia).
  split; [|done].
  eapply (wf_update_pool s _ chains c l q rq _ n (to_size_t (n + 1)));
    try done; rewrite ?Hsmall; lia.
Qed.

(** *** Freeing a wholly free pool *)

Lemma consolidated_pool_headers s c q rq' prev rp n :
  pool_headers (consolidated_state s c q rq' prev rp n) =
  if prev =? NULL then pool_headers s
  else <[prev:=set_m_pNextPool (m_pNextPool rq') rp]> (pool_headers s).
Proof. unfold consolidated_state, unlinked_state. by destruct (prev =? NULL). Qed.

Lemma consolidated_mem_Pools s c q rq' prev rp n :
  mem_Pools (consolidated_state s c q rq' prev rp n) =
  if prev =? NULL then <[c:=m_pNextPool rq']> (mem_Pools s) else mem_Pools s.
Proof. unfold consolidated_state, unlinked_state. by destruct (prev =? NULL). Qed.

Lemma consolidated_calls s c q rq' prev rp n :
  calls (consolidated_state s c q rq' prev rp n) =
  calls s ++ [Call_HeapFreeBlock (m_pPoolStart rq'); Call_PoolFreeChunk HeaderPool q].
Proof.
  unfold consolidated_state, unlinked_state.
  destruct (prev =? NULL); simpl; by rewrite <- app_assoc.
Qed.

(** The pool in front of a pool of a chain. *)
Lemma chain_prev m head l1 q :
  is_seg m head l1 q → q ≠ NULL →
  (l1 = [] ∧ head = q ∧ default NULL (last l1) = NULL) ∨
  (∃ l1' x rx, l1 = l1' ++ [x] ∧ default NULL (last l1) = x ∧ x ≠ NULL ∧
     is_seg m head l1' x ∧ m !! x = Some rx ∧ m_pNextPool rx = q).
Proof.
  intros Hseg Hq. destruct l1 as [|a l1] using rev_ind.
  - left. by simpl in Hseg.
  - right. apply is_seg_app in Hseg as (mid & H1 & H2). simpl in H2.
    destruct H2 as (-> & Hx & rx & Hrx & Hnext).
    exists l1, a, rx. rewrite last_snoc. done.
Qed.

Lemma wf_consolidate s chains c l1 q l2 rq' n rp :
  wf_chains s chains → chains !! c = Some (l1 ++ q :: l2) →
  pool_headers s !! q = Some rq' → mem_FreeChunksNumber s !! c = Some n →
  m_FreeChunksNumber rq' = m_ChunksNumber rq' →
  (default NULL (last l1) ≠ NULL → pool_headers s !! default NULL (last l1) = Some rp) →
  wf_chains (consolidated_state s c q rq' (default NULL (last l1)) rp n)
    (<[c:=l1 ++ l2]> chains).
Proof.
  intros Hwf Hc Hrq Hn Hfull Hrp.
  pose proof (wf_chains_nodup _ _ _ _ Hwf Hc) as Hnd.
  apply NoDup_app in Hnd as (Hnd1 & Hdis & Hnd2).
  apply NoDup_cons in Hnd2 as [Hq2 Hnd2].
  assert (Hq1 : q ∉ l1). { intros H. apply (Hdis q H). by left. }
  assert (Hnd' : NoDup (l1 ++ l2)).
  { apply NoDup_app. split; [done|]. split; [|done].
    intros x Hx Hx2. apply (Hdis x Hx). by right. }
  destruct (wf_chain _ _ Hwf c _ Hc) as (head & Hhead & Hch).
  apply is_seg_app in Hch as (mid & Hs1 & Hs2). simpl in Hs2.
  destruct Hs2 as (-> & Hqn & r & Hr & Hs2). assert (r = rq') as -> by congruence.
  assert (Hqc : q ∈ concat chains).
  { eapply wf_chains_elem; [done|done|]. apply elem_of_app. right. by left. }
  assert (Hin : ∀ a, a ∈ l1 ++ l2 → a ∈ l1 ++ q :: l2).
  { intros a [?|?]%elem_of_app; apply elem_of_app; [by left|right; by right]. }
  assert (Hmem : ∀ a, a ∈ concat (<[c:=l1 ++ l2]> chains) → a ∈ concat chains ∧ a ≠ q).
  { intros a Ha.
    apply (elem_of_concat_insert chains c _ (l1 ++ l2) a Hc) in Ha
      as [Ha|(c' & l' & Hne & Hc' & Ha)].
    - split; [eapply wf_chains_elem; eauto|].
      intros ->. apply elem_of_app in Ha as [?|?]; done.
    - split; [apply elem_of_concat_lookup; eauto|]. intros ->.
      eapply (NoDup_concat_apart chains c' c); eauto using wf_nodup.
      apply elem_of_app; right; by left. }
  destruct (wf_member _ _ Hwf q Hqc) as (r & Hr' & Hvq & Hposq & Hliveq & Husedq).
  assert (r = rq') as -> by congruence. clear Hr'.
  destruct (free_spec _ q (wf_header _ _ Hwf) Husedq) as (Hhv & _ & _ & Hhu).
  pose proof (chain_prev _ _ _ _ Hs1 Hqn) as Hprev.
  remember (default NULL (last l1)) as prev eqn:Hpd in *. clear Hpd.
  set (s2 := consolidated_state s c q rq' prev rp n).
  (* the headers of the remaining pools keep all but, for one, the link *)
  assert (Hstore : ∀ a, a ∈ concat chains → a ≠ q →
    ∃ r0 r, pool_headers s !! a = Some r0 ∧ pool_headers s2 !! a = Some r ∧
      m_pPoolStart r = m_pPoolStart r0 ∧ m_PoolSize r = m_PoolSize r0 ∧
      m_ChunksNumber r = m_ChunksNumber r0 ∧
      m_FreeChunksNumber r = m_FreeChunksNumber r0 ∧
      pool_valid r ∧ (a ≠ prev → r = r0)).
  { intros a Ha Haq.
    destruct (wf_member _ _ Hwf a Ha) as (r0 & Hr0 & Hv0 & _).
    subst s2. rewrite consolidated_pool_headers.
    destruct (prev =? NULL) eqn:E.
    - exists r0, r0. done.
    - apply Z.eqb_neq in E. destruct (decide (a = prev)) as [->|Hne].
      + rewrite (Hrp E) in Hr0. injection Hr0 as ->.
        exists r0, (set_m_pNextPool (m_pNextPool rq') r0).
        rewrite lookup_insert_eq. split; [by apply Hrp|].
        repeat split; try done. by apply valid_set_next.
      + exists r0, r0. rewrite lookup_insert_ne by done. done. }
  assert (Hprevin : prev ≠ NULL → prev ∈ l1).
  { intros E. destruct Hprev as [(_ & _ & ?)|(l1' & x & rx & -> & <- & _)]; [done|].
    apply elem_of_app. right. by left. }
  (* the chain of the class *)
  assert (Hchain : ∃ head2, mem_Pools s2 !! c = Some head2 ∧
                            is_chain (pool_headers s2) head2 (l1 ++ l2)).
  { subst s2. rewrite consolidated_pool_headers, consolidated_mem_Pools.
    destruct Hprev as [(-> & -> & E)|(l1' & x & rx & -> & E & Hx & Hs1' & Hrx & Hnext)].
    - rewrite E. simpl. exists (m_pNextPool rq'). split; [|done].
      apply list_lookup_insert_eq. eapply lookup_lt_Some; eauto.
    - rewrite E. pose proof Hx as Hx'. apply Z.eqb_neq in Hx'. rewrite Hx'.
      exists head. split; [done|].
      assert (rp = rx) as ->.
      { rewrite E in Hrp. specialize (Hrp Hx). congruence. }
      apply NoDup_app in Hnd1 as (_ & Hdis1 & _).
      unfold is_chain. rewrite <- app_assoc. apply is_seg_app. exists x. split.
      + apply is_seg_insert_notin; [|done]. intros Hin1. apply (Hdis1 x Hin1). by left.
      + simpl. split; [done|]. split; [done|].
        eexists. split; [apply lookup_insert_eq|]. simpl.
        apply is_seg_insert_notin; [|done].
        intros Hin2. apply (Hdis x); [|by right]. apply elem_of_app. right. by left. }
  destruct Hwf as [W1 W2 W3 W4 W5 W6 W7 W8 W9 W10].
  assert (Hl2 : (c < length (mem_FreeChunksNumber s))%nat) by (eapply lookup_lt_Some; eauto).
  assert (Hltc : (c < length chains)%nat) by (eapply lookup_lt_Some; eauto).
  assert (Hsumeq : ∀ l, (∀ a, a ∈ l → a ∈ concat chains ∧ a ≠ q) →
    sum_free (pool_headers s2) l = sum_free (pool_headers s) l).
  { intros l Hl. apply sum_free_ext. intros a Ha. destruct (Hl a Ha) as [Hac Haq].
    destruct (Hstore a Hac Haq) as (r0 & r2 & Hr0 & Hr2 & _ & _ & _ & Hf & _).
    unfold free_at. by rewrite Hr0, Hr2. }
  constructor.
  - subst s2. rewrite consolidated_mem_Pools.
    destruct (prev =? NULL); [by rewrite length_insert|done].
  - simpl. by rewrite length_insert.
  - by rewrite length_insert.
  - done.
  - eapply NoDup_concat_insert; [done|done|done|]. auto.
  - intros c' l' Hc'. destruct (decide (c' = c)) as [->|Hne].
    + rewrite list_lookup_insert_eq in Hc' by done. by injection Hc' as <-.
    + rewrite list_lookup_insert_ne in Hc' by done.
      destruct (W6 c' l' Hc') as (head' & Hhead' & Hch').
      exists head'. split.
      * subst s2. rewrite consolidated_mem_Pools.
        destruct (prev =? NULL); [by rewrite list_lookup_insert_ne|done].
      * pose proof Hch' as Hch''. revert Hch'. apply is_seg_ext. intros a r Ha Hra.
        assert (Hac : a ∈ concat chains) by (apply elem_of_concat_lookup; eauto).
        assert (Haq : a ≠ q).
        { intros ->. eapply (NoDup_concat_apart chains c' c); eauto.
          apply elem_of_app; right; by left. }
        destruct (Hstore a Hac Haq) as (r0 & r2 & Hr0 & Hr2 & _ & _ & _ & _ & _ & Hsame).
        exists r2. split; [done|]. rewrite Hsame; [congruence|].
        intros ->. assert (prev ≠ NULL) as E.
        { destruct (is_seg_elem _ _ _ _ prev Hch'' Ha). done. }
        eapply (NoDup_concat_apart chains c' c); eauto.
        apply elem_of_app. left. by apply Hprevin.
  - intros c' l' Hc'. simpl. destruct (decide (c' = c)) as [->|Hne].
    + rewrite list_lookup_insert_eq in Hc' by done. injection Hc' as <-.
      rewrite list_lookup_insert_eq by done. f_equal.
      rewrite Hsumeq.
      2:{ intros a Ha. apply Hmem.
          apply (elem_of_concat_insert chains c _ (l1 ++ l2) a Hc). by left. }
      pose proof (W7 c _ Hc) as Hsum. rewrite Hn in Hsum. injection Hsum as Hsum.
      rewrite sum_free_app, sum_free_cons in Hsum. rewrite sum_free_app.
      unfold free_at in Hsum. rewrite Hrq in Hsum.
      assert (0 ≤ sum_free (pool_headers s) l1).
      { apply sum_free_nonneg. intros a Ha.
        eapply wf_chains_free_nonneg; [by constructor|].
        apply elem_of_concat_lookup. exists c. eexists. split; [done|].
        apply elem_of_app. by left. }
      assert (0 ≤ sum_free (pool_headers s) l2).
      { apply sum_free_nonneg. intros a Ha.
        eapply wf_chains_free_nonneg; [by constructor|].
        apply elem_of_concat_lookup. exists c. eexists. split; [done|].
        apply elem_of_app. right. by right. }
      destruct (valid_counts _ Hvq) as [[? _] _].
      pose proof (W8 c n Hn).
      rewrite to_size_t_small; lia.
    + rewrite list_lookup_insert_ne in Hc' by done.
      rewrite list_lookup_insert_ne by done. rewrite (W7 c' l' Hc'). f_equal.
      symmetry. apply Hsumeq. intros a Ha. apply Hmem.
      apply (elem_of_concat_insert chains c _ (l1 ++ l2) a Hc). right. eauto.
  - intros c' n'. simpl. destruct (decide (c' = c)) as [->|Hne].
    + rewrite list_lookup_insert_eq by done. intros [= <-].
      apply to_size_t_range. pose proof (W8 c n Hn). lia.
    + rewrite list_lookup_insert_ne by done. apply W8.
  - intros a Ha. destruct (Hmem a Ha) as [Hac Haq].
    destruct (Hstore a Hac Haq) as (r0 & r2 & Hr0 & Hr2 & E1 & E2 & E3 & E4 & Hv & _).
    destruct (W9 a Hac) as (r0' & Hr0' & Hv0 & Hpos0 & Hlive0 & Hused0).
    assert (r0' = r0) as -> by congruence.
    exists r2. split; [done|]. split; [done|]. split; [lia|]. simpl. split.
    + rewrite E1, E2. apply heap_free_keeps; [done|].
      pose proof (W10 a q r0 rq' Hac Hqc Haq Hr0 Hrq) as Hap.
      destruct (valid_layout _ Hv0 Hpos0). destruct (valid_layout _ Hvq Hposq).
      unfold blocks_apart in Hap. lia.
    + apply Hhu. done.
  - intros x y rx ry Hx Hy Hxy Hrx Hry.
    destruct (Hmem x Hx) as [Hxc Hxq], (Hmem y Hy) as [Hyc Hyq].
    destruct (Hstore x Hxc Hxq) as (rx0 & rx' & Hrx0 & Hrx' & Ex1 & Ex2 & _).
    destruct (Hstore y Hyc Hyq) as (ry0 & ry' & Hry0 & Hry' & Ey1 & Ey2 & _).
    assert (rx' = rx) as -> by congruence. assert (ry' = ry) as -> by congruence.
    pose proof (W10 x y rx0 ry0 Hxc Hyc Hxy Hrx0 Hry0) as Hap.
    unfold blocks_apart in *. rewrite Ex1, Ex2, Ey1, Ey2. done.
Qed.

(** *** The invariant and the chains as computed *)

Lemma wf_pool_chain s chains c l :
  wf_chains s chains → chains !! c = Some l → pool_chain s c = Some l.
Proof.
  intros Hwf Hc. destruct (wf_chain _ _ Hwf c l Hc) as (head & Hhead & Hch).
  unfold pool_chain. rewrite Hhead. apply chain_from_complete; [done|].
  eapply chain_length_le; [|exact Hch]. by eapply wf_chains_nodup.
Qed.

Lemma wf_chains_lookup s chains c :
  wf_chains s chains → (c < MEM_POOL_CHUNK_TYPE__COUNT)%nat → ∃ l, chains !! c = Some l.
Proof.
  intros Hwf Hc. apply lookup_lt_is_Some. by rewrite (wf_len_chains _ _ Hwf).
Qed.

Lemma pool_chain_wf s chains c l :
  wf_chains s chains → pool_chain s c = Some l → chains !! c = Some l.
Proof.
  intros Hwf Hl.
  assert (Hc : (c < MEM_POOL_CHUNK_TYPE__COUNT)%nat).
  { unfold pool_chain in Hl. destruct (mem_Pools s !! c) eqn:E; [|done].
    rewrite <- (wf_len_pools _ _ Hwf). eapply lookup_lt_Some; eauto. }
  destruct (wf_chains_lookup _ _ _ Hwf Hc) as [l' Hl'].
  rewrite (wf_pool_chain _ _ _ _ Hwf Hl') in Hl. congruence.
Qed.

Lemma wf_chains_accounting s chains : wf_chains s chains → accounting s.
Proof.
  intros Hwf c Hc. destruct (wf_chains_lookup _ _ _ Hwf Hc) as [l Hl].
  exists l. split; [by eapply wf_pool_chain|by eapply wf_count].
Qed.

Lemma wf_accounting s : wf s → accounting s.
Proof. intros (chains & Hwf & _). by eapply wf_chains_accounting. Qed.

(** *** Chunk sizes *)

Lemma mem_GetChunkSize_exact (c : nat) :
  Z.of_nat MEM_POOL_CHUNK_TYPE__COUNT + 1 < 32 → 32 ≤ SIZE_WIDTH →
  (c < MEM_POOL_CHUNK_TYPE__COUNT)%nat →
  mem_GetChunkSize c = Some (Z.shiftl 1 (Z.of_nat c + 2)).
Proof.
  intros HK HW Hc. unfold mem_GetChunkSize, to_uint32_t, to_size_t, SIZE_MODULUS.
  assert (H32 : (2 ^ 32 : Z) = 4294967296) by done.
  rewrite (Z.mod_small (Z.of_nat c)) by lia.
  destruct (Z.ltb_spec (Z.of_nat c) (Z.of_nat MEM_POOL_CHUNK_TYPE__COUNT)); [|lia].
  rewrite Z.shiftl_1_l.
  assert (0 < 2 ^ (Z.of_nat c + 2)) by (apply Z.pow_pos_nonneg; lia).
  assert (2 ^ (Z.of_nat c + 2) < 2 ^ 32) by (apply Z.pow_lt_mono_r; lia).
  assert (2 ^ 32 ≤ 2 ^ SIZE_WIDTH) by (apply Z.pow_le_mono_r; lia).
  rewrite (Z.mod_small (2 ^ (Z.of_nat c + 2)) (2 ^ 32)) by lia.
  rewrite Z.mod_small by lia. done.
Qed.

Lemma chunk_size_fits `{!PlatformOk C} (c : nat) cs :
  (c < MEM_POOL_CHUNK_TYPE__COUNT)%nat → mem_GetChunkSize c = Some cs →
  0 < cs ∧ 8 * cs + sizeof_mword_t < SIZE_MODULUS / 2.
Proof.
  intros Hc Hcs.
  rewrite (mem_GetChunkSize_exact c chunk_types_fit size_width_ge Hc) in Hcs.
  injection Hcs as <-. rewrite Z.shiftl_1_l.
  assert (0 < 2 ^ (Z.of_nat c + 2)) by (apply Z.pow_pos_nonneg; lia).
  assert (2 ^ (Z.of_nat c + 2) ≤ 2 ^ (Z.of_nat MEM_POOL_CHUNK_TYPE__COUNT + 1))
    by (apply Z.pow_le_mono_r; lia).
  pose proof pool_request_fits. lia.
Qed.

Lemma run_mem_GetChunkSize_Done s (c : nat) cs :
  mem_GetChunkSize c = Some cs → run_mem_GetChunkSize c s = Done cs s.
Proof. unfold run_mem_GetChunkSize. by intros ->. Qed.

Lemma size_modulus_pos `{!PlatformOk C} : 0 < SIZE_MODULUS.
Proof. unfold SIZE_MODULUS. apply Z.pow_pos_nonneg; [lia|]. pose proof size_width_ge. lia. Qed.

(** *** mem_PoolsInit *)

Lemma mem_PoolsInit_loop_run n : ∀ i s,
  (i + n ≤ length (mem_Pools s))%nat → (i + n ≤ length (mem_FreeChunksNumber s))%nat →
  ∃ s', mem_PoolsInit_loop n i s = Done tt s' ∧
    length (mem_Pools s') = length (mem_Pools s) ∧
    length (mem_FreeChunksNumber s') = length (mem_FreeChunksNumber s) ∧
    (∀ j, (i ≤ j < i + n)%nat →
       mem_Pools s' !! j = Some NULL ∧ mem_FreeChunksNumber s' !! j = Some 0) ∧
    (∀ j, (j < i)%nat →
       mem_Pools s' !! j = mem_Pools s !! j ∧
       mem_FreeChunksNumber s' !! j = mem_FreeChunksNumber s !! j) ∧
    mem_PoolForPoolHeaders s' = mem_PoolForPoolHeaders s ∧
    pool_headers s' = pool_headers s ∧ heap s' = heap s ∧ calls s' = calls s.
Proof.
  induction n as [|n IH]; intros i s H1 H2.
  - exists s. simpl. repeat split; try done; lia.
  - simpl.
    rewrite (bind_Done _ _ _ _ _ (write_mem_Pools_run s i NULL ltac:(lia))).
    erewrite bind_Done by (apply write_mem_FreeChunksNumber_run; simpl; lia).
    edestruct (IH (S i)) as (s' & Hrun & L1 & L2 & Hin & Hout & E1 & E2 & E3 & E4);
      [| |exists s'; split; [exact Hrun|]].
    + simpl. rewrite length_insert. lia.
    + simpl. rewrite length_insert. lia.
    + simpl in *. rewrite length_insert in L1, L2.
      repeat split; try done.
      * destruct (decide (j = i)) as [->|Hne].
        -- destruct (Hout i ltac:(lia)) as [-> _]. apply list_lookup_insert_eq. lia.
        -- apply Hin. lia.
      * destruct (decide (j = i)) as [->|Hne].
        -- destruct (Hout i ltac:(lia)) as [_ ->]. apply list_lookup_insert_eq. lia.
        -- apply Hin. lia.
      * destruct (Hout j ltac:(lia)) as [-> _]. apply list_lookup_insert_ne. lia.
      * destruct (Hout j ltac:(lia)) as [_ ->]. apply list_lookup_insert_ne. lia.
Qed.

Lemma mem_PoolsInit_wf `{!PlatformOk C} s :
  length (mem_Pools s) = MEM_POOL_CHUNK_TYPE__COUNT →
  length (mem_FreeChunksNumber s) = MEM_POOL_CHUNK_TYPE__COUNT →
  ∃ s', mem_PoolsInit s = Done tt s' ∧
        wf_chains s' (replicate MEM_POOL_CHUNK_TYPE__COUNT []) ∧
        (∀ c, (c < MEM_POOL_CHUNK_TYPE__COUNT)%nat →
           mem_Pools s' !! c = Some NULL ∧ mem_FreeChunksNumber s' !! c = Some 0).
Proof.
  intros H1 H2.
  destruct (mem_PoolsInit_loop_run MEM_POOL_CHUNK_TYPE__COUNT 0 s)
    as (s1 & Hrun & L1 & L2 & Hin & _ & E1 & E2 & E3 & E4); [lia|lia|].
  destruct (mem_GetChunkSize (mem_SizeToPoolChunkType sizeof_mem_PoolState_t))
    as [cs|] eqn:Hcs.
  2:{ rewrite (mem_GetChunkSize_exact _ chunk_types_fit size_width_ge header_chunk_type)
        in Hcs. done. }
  destruct (chunk_size_fits _ cs header_chunk_type Hcs) as [Hpos _].
  pose proof header_request_fits as Hreq.
  pose proof size_modulus_pos as HM.
  assert (SIZE_MODULUS / 2 ≤ SIZE_MODULUS) by (apply Z.div_le_upper_bound; lia).
  unfold mem_PoolsInit. rewrite (bind_Done _ _ _ _ _ Hrun).
  rewrite (bind_Done _ _ _ _ _ (call_HeapRecommendAllocationSize_run _ _)).
  rewrite (bind_Done _ _ _ _ _ (call_HeapAllocBlock_run _ _ _)).
  unfold bind at 1. unfold modify at 1.
  rewrite (bind_Done _ _ _ _ _ (run_mem_GetChunkSize_Done _ _ cs Hcs)).
  unfold bind at 1. unfold gets at 1.
  eexists. split; [reflexivity|].
  rewrite to_size_t_small by lia.
  destruct (recommend_spec (4 * sizeof_mem_PoolState_t + sizeof_mword_t) Hreq) as [Hr1 Hr2].
  match goal with |- context [mem_PoolInit cs ?b ?n] =>
    destruct (init_spec cs b n Hpos) as (Hv & _); [lia|] end.
  split.
  - constructor; simpl.
    + lia.
    + lia.
    + by rewrite length_replicate.
    + exact Hv.
    + rewrite concat_replicate_nil. apply NoDup_nil_2.
    + intros c l [-> Hc]%lookup_replicate. exists NULL. split; [|done].
      apply Hin. lia.
    + intros c l [-> Hc]%lookup_replicate. apply Hin. lia.
    + intros c n Hn. assert (Hc : (c < MEM_POOL_CHUNK_TYPE__COUNT)%nat).
      { rewrite <- H2, <- L2. eapply lookup_lt_Some; eauto. }
      destruct (Hin c ltac:(lia)) as [_ Hz]. rewrite Hz in Hn. injection Hn as <-. lia.
    + intros a Ha. rewrite concat_replicate_nil in Ha. by apply elem_of_nil in Ha.
    + intros a b ra rb Ha. rewrite concat_replicate_nil in Ha. by apply elem_of_nil in Ha.
  - intros c Hc. simpl. apply Hin. lia.
Qed.

(** *** The four ways through mem_PoolsAlloc *)

Lemma busy_insert s s' q rq' a :
  pool_headers s' = <[q:=rq']> (pool_headers s) →
  (a ≠ q → busy s a) → m_FreeChunksNumber rq' < m_ChunksNumber rq' →
  busy s' a.
Proof.
  intros HS Hb Hlt r. rewrite HS. destruct (decide (a = q)) as [->|Hne].
  - rewrite lookup_insert_eq. by intros [= <-].
  - rewrite lookup_insert_ne by done. by apply Hb.
Qed.

(** The class has a free chunk: no growth. *)
Lemma mem_PoolsAlloc_take_path s chains c l n cs :
  wf_chains s chains → (∀ a, a ∈ concat chains → busy s a) →
  chains !! c = Some l → mem_FreeChunksNumber s !! c = Some n →
  mem_GetChunkSize c = Some cs → n ≠ 0 →
  ∃ l1 q l2 rq, l = l1 ++ q :: l2 ∧
    (∀ a, a ∈ l1 → free_at (pool_headers s) a = 0) ∧
    pool_headers s !! q = Some rq ∧ m_FreeChunksNumber rq ≠ 0 ∧
    let p := (mem_PoolAllocChunk rq).1 in
    let rq' := (mem_PoolAllocChunk rq).2 in
    let s' := take_state s c n q rq' p in
    mem_PoolsAlloc c s = Done p s' ∧
    wf_chains s' chains ∧ (∀ a, a ∈ concat chains → busy s' a) ∧
    to_size_t (n - 1) = n - 1 ∧ p ≠ NULL ∧ chunk_used rq' p ∧
    m_FreeChunksNumber rq' = m_FreeChunksNumber rq - 1 ∧
    m_ChunksNumber rq' = m_ChunksNumber rq ∧
    m_FreeChunksNumber rq < m_ChunksNumber rq ∧
    mem_FreeChunksNumber s' !! c = Some (n - 1) ∧
    pool_headers s' !! q = Some rq'.
Proof.
  intros Hwf Hbusy Hc Hn Hcs Hn0.
  destruct (wf_chains_counter _ _ _ _ _ Hwf Hc Hn) as [Hsum Hrange].
  destruct (sum_free_first (pool_headers s) l) as (l1 & q & l2 & -> & Hz & Hq);
    [congruence|].
  assert (Hql : q ∈ l1 ++ q :: l2) by (apply elem_of_app; right; by left).
  pose proof (wf_chains_elem _ _ _ _ _ Hwf Hc Hql) as Hqc.
  destruct (wf_member _ _ Hwf q Hqc) as (rq & Hrq & Hv & Hpos & _).
  assert (Hfree : m_FreeChunksNumber rq ≠ 0).
  { unfold free_at in Hq. by rewrite Hrq in Hq. }
  exists l1, q, l2, rq. split; [done|]. split; [done|]. split; [done|]. split; [done|].
  destruct (wf_take s chains c _ q rq n Hwf Hc Hql Hrq Hfree Hn)
    as (Hwf' & Hsmall & Hp & Hu & Hv' & Hlay & Hf' & _).
  destruct (wf_chain _ _ Hwf c _ Hc) as (head & Hhead & Hch).
  pose proof Hch as Hch'. apply is_seg_app in Hch' as (mid & Hs1 & Hs2).
  simpl in Hs2. destruct Hs2 as (-> & Hqn & _).
  assert (Hlen : (length l1 ≤ size (pool_headers s))%nat).
  { pose proof (chain_length_le _ _ _ _ (wf_chains_nodup _ _ _ _ Hwf Hc) Hch) as Hle.
    rewrite length_app in Hle. lia. }
  pose proof (Hbusy q Hqc rq Hrq) as Hbq.
  destruct Hlay as (_ & _ & _ & Htot & _).
  simpl. split; [|split; [done|split]].
  - unfold mem_PoolsAlloc.
    rewrite (bind_Done _ _ _ _ _ (run_mem_GetChunkSize_Done s c cs Hcs)).
    rewrite (bind_Done _ _ _ _ _ (read_mem_FreeChunksNumber_run s c n Hn)).
    apply Z.eqb_neq in Hn0. rewrite Hn0.
    by eapply mem_PoolsAlloc_take_run.
  - intros a Ha. eapply busy_insert; [reflexivity|by auto|lia].
  - repeat split; try done.
    + rewrite Hsmall. apply list_lookup_insert_eq. eapply lookup_lt_Some; eauto.
    + apply lookup_insert_eq.
Qed.

(** No free chunk, and the header pool gives no chunk. *)
Lemma mem_PoolsAlloc_header_fail_path s chains c cs :
  wf_chains s chains → mem_FreeChunksNumber s !! c = Some 0 →
  mem_GetChunkSize c = Some cs → new_header s = NULL →
  mem_PoolsAlloc c s = Done NULL (carve_state s) ∧ wf_chains (carve_state s) chains.
Proof.
  intros Hwf Hn Hcs Hps. split; [|by apply wf_carve_fail].
  unfold mem_PoolsAlloc.
  rewrite (bind_Done _ _ _ _ _ (run_mem_GetChunkSize_Done s c cs Hcs)).
  rewrite (bind_Done _ _ _ _ _ (read_mem_FreeChunksNumber_run s c 0 Hn)).
  simpl. by rewrite (bind_Done _ _ _ _ _ (mem_PoolsAlloc_grow_header_fail s c cs Hps)).
Qed.

(** No free chunk, a header chunk, and the heap gives no block. *)
Lemma mem_PoolsAlloc_heap_fail_path s chains c cs :
  wf_chains s chains → mem_FreeChunksNumber s !! c = Some 0 →
  mem_GetChunkSize c = Some cs → new_header s ≠ NULL → new_block s cs = NULL →
  mem_PoolsAlloc c s = Done NULL (block_state s cs) ∧ wf_chains (block_state s cs) chains.
Proof.
  intros Hwf Hn Hcs Hps Hb. split; [|by apply wf_block_fail].
  unfold mem_PoolsAlloc.
  rewrite (bind_Done _ _ _ _ _ (run_mem_GetChunkSize_Done s c cs Hcs)).
  rewrite (bind_Done _ _ _ _ _ (read_mem_FreeChunksNumber_run s c 0 Hn)).
  simpl. by rewrite (bind_Done _ _ _ _ _ (mem_PoolsAlloc_grow_heap_fail s c cs Hps Hb)).
Qed.

(** No free chunk, and the growth succeeds: the chunk comes from the new
    pool. *)
Lemma mem_PoolsAlloc_grow_path `{!PlatformOk C} s chains c l cs head :
  wf_chains s chains → (∀ a, a ∈ concat chains → busy s a) →
  chains !! c = Some l → (c < MEM_POOL_CHUNK_TYPE__COUNT)%nat →
  mem_Pools s !! c = Some head → mem_FreeChunksNumber s !! c = Some 0 →
  mem_GetChunkSize c = Some cs → new_header s ≠ NULL → new_block s cs ≠ NULL →
  let s1 := grown_state s c cs head 0 in
  let rnew := new_pool s cs head in
  let p := (mem_PoolAllocChunk rnew).1 in
  let r' := (mem_PoolAllocChunk rnew).2 in
  let s' := take_state s1 c (m_ChunksNumber rnew) (new_header s) r' p in
  let chains' := <[c:=(new_header s :: l)]> chains in
  mem_PoolsAlloc_grow c cs s = Done true s1 ∧
  mem_PoolsAlloc c s = Done p s' ∧
  wf_chains s1 chains' ∧
  mem_FreeChunksNumber s1 !! c = Some (m_ChunksNumber rnew) ∧
  wf_chains s' chains' ∧ (∀ a, a ∈ concat chains' → busy s' a) ∧
  (new_header s ∉ concat chains) ∧
  to_size_t (m_ChunksNumber rnew - 1) = m_ChunksNumber rnew - 1 ∧
  p ≠ NULL ∧ chunk_used r' p ∧
  m_FreeChunksNumber r' = m_ChunksNumber rnew - 1 ∧
  m_ChunksNumber r' = m_ChunksNumber rnew ∧
  mem_FreeChunksNumber s' !! c = Some (m_ChunksNumber rnew - 1) ∧
  pool_headers s' !! new_header s = Some r'.
Proof.
  intros Hwf Hbusy Hc Hck Hhead Hn Hcs Hps Hb s1 rnew p r' s' chains'.
  destruct (chunk_size_fits c cs Hck Hcs) as [Hpos Hfit].
  destruct (wf_grow s chains c l cs head Hwf Hc Hhead Hn Hpos Hfit Hps Hb)
    as (Hwf1 & Hnotin & Hrv & Hrpos & Hrf & Hru).
  fold s1 rnew chains' in Hwf1, Hrv, Hrpos, Hrf, Hru.
  pose proof (mem_PoolsAlloc_grow_ok s c cs head 0 Hps Hb Hhead Hn) as Hgrow.
  fold s1 in Hgrow.
  assert (Hltc : (c < length chains)%nat) by (eapply lookup_lt_Some; eauto).
  assert (Hc1 : chains' !! c = Some (new_header s :: l))
    by (by apply list_lookup_insert_eq).
  assert (Hn1 : mem_FreeChunksNumber s1 !! c = Some (m_ChunksNumber rnew)).
  { pose proof (wf_count _ _ Hwf1 c _ Hc1) as Hcount. rewrite Hcount. f_equal.
    rewrite sum_free_cons.
    change (pool_headers s1) with (<[new_header s:=rnew]> (pool_headers s)).
    rewrite free_at_insert_eq.
    rewrite sum_free_insert_notin.
    2:{ intros Hin. apply Hnotin. by eapply wf_chains_elem. }
    pose proof (wf_count _ _ Hwf c l Hc) as Hz. rewrite Hn in Hz.
    injection Hz as Hz. lia. }
  assert (Hr1 : pool_headers s1 !! new_header s = Some rnew)
    by (simpl; apply lookup_insert_eq).
  assert (Hql : new_header s ∈ new_header s :: l) by (by left).
  assert (Hfree : m_FreeChunksNumber rnew ≠ 0) by lia.
  destruct (wf_take s1 chains' c _ (new_header s) rnew _ Hwf1 Hc1 Hql Hr1 Hfree Hn1)
    as (Hwf' & Hsmall & Hp & Hu & Hv' & Hlay & Hf' & _).
  fold p r' s' in Hwf', Hp, Hu, Hv', Hlay, Hf'.
  destruct Hlay as (_ & _ & _ & Htot & _).
  assert (Hhd1 : mem_Pools s1 !! c = Some (new_header s)).
  { simpl. apply list_lookup_insert_eq. eapply lookup_lt_Some; eauto. }
  split; [done|]. split.
  - unfold mem_PoolsAlloc.
    rewrite (bind_Done _ _ _ _ _ (run_mem_GetChunkSize_Done s c cs Hcs)).
    rewrite (bind_Done _ _ _ _ _ (read_mem_FreeChunksNumber_run s c 0 Hn)).
    simpl. rewrite (bind_Done _ _ _ _ _ Hgrow).
    eapply (mem_PoolsAlloc_take_run s1 c (new_header s) _ [] (new_header s) rnew);
      try done.
    + by intros a ?%elem_of_nil.
    + simpl. lia.
  - split; [done|]. split; [done|]. split; [done|]. split.
    + intros a Ha. eapply busy_insert; [reflexivity| |lia].
      intros Hne r Hr. simpl in Hr. rewrite lookup_insert_ne in Hr by done.
      apply (elem_of_concat_insert chains c l _ a Hc) in Ha
        as [Ha|(c' & l' & _ & Hc' & Ha)].
      * apply elem_of_cons in Ha as [->|Ha]; [done|].
        apply (Hbusy a); [by eapply wf_chains_elem|done].
      * apply (Hbusy a); [|done]. apply elem_of_concat_lookup. eauto.
    + repeat split; try done; try lia.
      * unfold s'. rewrite take_state_counters, Hsmall.
        apply list_lookup_insert_eq. eapply lookup_lt_Some; eauto.
      * unfold s'. rewrite take_state_headers. apply lookup_insert_eq.
Qed.

(** *** The two ways through mem_PoolsFree *)

(** The pool that has handed out a chunk is the first of its chain whose
    range holds the chunk. *)
Lemma owner_first s chains c l1 q l2 rq p :
  wf_chains s chains → chains !! c = Some (l1 ++ q :: l2) →
  pool_headers s !! q = Some rq → chunk_used rq p →
  (∀ a, a ∈ l1 → in_pool_at (pool_headers s) p a = false) ∧
  chunk_in_pool p rq = true.
Proof.
  intros Hwf Hc Hrq Hused.
  assert (Hql : q ∈ l1 ++ q :: l2) by (apply elem_of_app; right; by left).
  pose proof (wf_chains_elem _ _ _ _ _ Hwf Hc Hql) as Hqc.
  destruct (wf_member _ _ Hwf q Hqc) as (r & Hr & Hv & Hpos & _).
  assert (r = rq) as -> by congruence.
  destruct (used_in_range rq p Hv Hused) as [Hp1 Hp2].
  destruct (valid_layout rq Hv Hpos) as [Hq1 _].
  split.
  - intros a Ha.
    assert (Hal : a ∈ l1 ++ q :: l2) by (apply elem_of_app; by left).
    pose proof (wf_chains_elem _ _ _ _ _ Hwf Hc Hal) as Hac.
    destruct (wf_member _ _ Hwf a Hac) as (ra & Hra & Hva & Hposa & _).
    assert (Hne : a ≠ q).
    { intros ->. pose proof (wf_chains_nodup _ _ _ _ Hwf Hc) as Hnd.
      apply NoDup_app in Hnd as (_ & Hdis & _). apply (Hdis q Ha). by left. }
    pose proof (wf_apart _ _ Hwf a q ra rq Hac Hqc Hne Hra Hrq) as Hap.
    destruct (valid_layout ra Hva Hposa) as [Ha1 _].
    unfold in_pool_at. rewrite Hra. unfold chunk_in_pool.
    apply andb_false_iff. unfold blocks_apart in Hap.
    destruct (Z.leb_spec (m_pChunks ra) p); [right|by left].
    apply Z.leb_gt. lia.
  - unfold chunk_in_pool. apply andb_true_iff. split; apply Z.leb_le; lia.
Qed.

(** The head of the chain, the pools in front of the owner, and the fuel. *)
Lemma owner_walk s chains c l1 q l2 :
  wf_chains s chains → chains !! c = Some (l1 ++ q :: l2) →
  ∃ head, mem_Pools s !! c = Some head ∧ is_seg (pool_headers s) head l1 q ∧
          q ≠ NULL ∧ (length l1 ≤ size (pool_headers s))%nat.
Proof.
  intros Hwf Hc. destruct (wf_chain _ _ Hwf c _ Hc) as (head & Hhead & Hch).
  exists head. split; [done|].
  pose proof (chain_length_le _ _ _ _ (wf_chains_nodup _ _ _ _ Hwf Hc) Hch) as Hle.
  rewrite length_app in Hle.
  apply is_seg_app in Hch as (mid & Hs1 & Hs2). simpl in Hs2.
  destruct Hs2 as (-> & Hqn & _). repeat split; [done|done|lia].
Qed.

(** The pool keeps a used chunk: it stays in its chain. *)
Lemma mem_PoolsFree_keep_path s chains c l1 q l2 rq n p :
  wf_chains s chains → (∀ a, a ∈ concat chains → busy s a) →
  chains !! c = Some (l1 ++ q :: l2) →
  pool_headers s !! q = Some rq → chunk_used rq p →
  mem_FreeChunksNumber s !! c = Some n →
  m_FreeChunksNumber rq + 1 ≠ m_ChunksNumber rq →
  let s' := released_state s c n q rq p in
  mem_PoolsFree c p s = Done tt s' ∧
  wf_chains s' chains ∧ (∀ a, a ∈ concat chains → busy s' a) ∧
  to_size_t (n + 1) = n + 1 ∧
  mem_FreeChunksNumber s' !! c = Some (n + 1).
Proof.
  intros Hwf Hbusy Hc Hrq Hused Hn Hkeep s'.
  assert (Hql : q ∈ l1 ++ q :: l2) by (apply elem_of_app; right; by left).
  destruct (wf_release s chains c _ q rq n p Hwf Hc Hql Hrq Hn Hused)
    as (Hwf' & Hsmall & Hv' & Hlay & Hf' & _).
  destruct (owner_first s chains c l1 q l2 rq p Hwf Hc Hrq Hused) as [Hz Hin].
  destruct (owner_walk s chains c l1 q l2 Hwf Hc) as (head & Hhead & Hseg & Hqn & Hlen).
  destruct Hlay as (_ & _ & _ & Htot & _).
  destruct (valid_counts _ Hv') as [[_ Hle] _].
  split; [|split; [done|split; [|split; [done|]]]].
  - rewrite (mem_PoolsFree_run s c p head n l1 q rq Hhead Hn Hseg Hz Hqn Hrq Hin Hlen).
    simpl. destruct (Z.eqb_spec (m_FreeChunksNumber (mem_PoolFreeChunk rq p))
                       (m_ChunksNumber (mem_PoolFreeChunk rq p))); [lia|done].
  - intros a Ha. eapply busy_insert; [reflexivity|by auto|lia].
  - simpl. rewrite Hsmall. apply list_lookup_insert_eq. eapply lookup_lt_Some; eauto.
Qed.

(** The pool becomes wholly free: it leaves its chain and is freed. *)
Lemma mem_PoolsFree_consolidate_path s chains c l1 q l2 rq n p :
  wf_chains s chains → (∀ a, a ∈ concat chains → busy s a) →
  chains !! c = Some (l1 ++ q :: l2) →
  pool_headers s !! q = Some rq → chunk_used rq p →
  mem_FreeChunksNumber s !! c = Some n →
  m_FreeChunksNumber rq + 1 = m_ChunksNumber rq →
  ∃ rp, (default NULL (last l1) ≠ NULL →
           pool_headers s !! default NULL (last l1) = Some rp) ∧
  let s1 := released_state s c n q rq p in
  let s' := consolidated_state s1 c q (mem_PoolFreeChunk rq p)
              (default NULL (last l1)) rp (n + 1) in
  let chains' := <[c:=l1 ++ l2]> chains in
  mem_PoolsFree c p s = Done tt s' ∧
  wf_chains s' chains' ∧ (∀ a, a ∈ concat chains' → busy s' a) ∧
  to_size_t (n + 1) = n + 1 ∧
  m_ChunksNumber (mem_PoolFreeChunk rq p) = m_ChunksNumber rq ∧
  mem_FreeChunksNumber s' !! c = Some (n + 1 - m_ChunksNumber rq).
Proof.
  intros Hwf Hbusy Hc Hrq Hused Hn Hfull.
  assert (Hql : q ∈ l1 ++ q :: l2) by (apply elem_of_app; right; by left).
  destruct (wf_release s chains c _ q rq n p Hwf Hc Hql Hrq Hn Hused)
    as (Hwf1 & Hsmall & Hv' & Hlay & Hf' & _).
  destruct (owner_first s chains c l1 q l2 rq p Hwf Hc Hrq Hused) as [Hz Hin].
  destruct (owner_walk s chains c l1 q l2 Hwf Hc) as (head & Hhead & Hseg & Hqn & Hlen).
  destruct Hlay as (_ & _ & _ & Htot & _).
  pose proof (wf_chains_nodup _ _ _ _ Hwf Hc) as Hnd.
  apply NoDup_app in Hnd as (_ & Hdis & _).
  assert (Hq1 : q ∉ l1). { intros H. apply (Hdis q H). by left. }
  pose proof (chain_prev _ _ _ _ Hseg Hqn) as Hprev.
  assert (Hrp : ∃ rp, (default NULL (last l1) ≠ NULL →
     default NULL (last l1) ∈ l1 ∧
     pool_headers s !! default NULL (last l1) = Some rp)).
  { destruct Hprev as [(_ & _ & E)|(l1' & x & rx & -> & E & Hx & _ & Hrx & _)].
    - exists rq. by rewrite E.
    - exists rx. rewrite E. intros _. split; [|done]. apply elem_of_app. right. by left. }
  destruct Hrp as [rp Hrp]. exists rp. split; [by intros E; apply Hrp|].
  set (prev := default NULL (last l1)) in *.
  set (s1 := released_state s c n q rq p) in *.
  set (rq' := mem_PoolFreeChunk rq p) in *.
  assert (Hrq1 : pool_headers s1 !! q = Some rq') by (simpl; apply lookup_insert_eq).
  assert (Hn1 : mem_FreeChunksNumber s1 !! c = Some (n + 1)).
  { simpl. rewrite Hsmall. apply list_lookup_insert_eq. eapply lookup_lt_Some; eauto. }
  assert (Hrp1 : prev ≠ NULL → prev ≠ q ∧ pool_headers s1 !! prev = Some rp).
  { intros E. destruct (Hrp E) as [Hpin Hprp].
    assert (prev ≠ q) by (by intros ->). split; [done|].
    simpl. by rewrite lookup_insert_ne. }
  assert (Hfull' : m_FreeChunksNumber rq' = m_ChunksNumber rq') by lia.
  pose proof (wf_consolidate s1 chains c l1 q l2 rq' (n + 1) rp Hwf1 Hc Hrq1 Hn1 Hfull'
                (λ E, proj2 (Hrp1 E))) as Hwf'.
  fold prev in Hwf'.
  simpl. split; [|split; [done|split; [|split; [done|split; [done|]]]]].
  - rewrite (mem_PoolsFree_run s c p head n l1 q rq Hhead Hn Hseg Hz Hqn Hrq Hin Hlen).
    simpl. fold rq'. apply Z.eqb_eq in Hfull'. rewrite Hfull'.
    fold s1 prev.
    apply (mem_PoolsFree_release_run s1 c q rq' prev rp (n + 1) Hqn Hrq1 Hn1);
      [|done].
    simpl. eapply lookup_lt_Some; eauto.
  - intros a Ha r Hr.
    assert (Hac : a ∈ concat chains ∧ a ≠ q).
    { apply (elem_of_concat_insert chains c _ (l1 ++ l2) a Hc) in Ha
        as [Ha|(c' & l' & Hne & Hc' & Ha)].
      - split.
        + eapply wf_chains_elem; [done|done|].
          apply elem_of_app in Ha as [?|?]; apply elem_of_app; [by left|right; by right].
        + intros ->. pose proof (wf_chains_nodup _ _ _ _ Hwf Hc) as Hnd.
          apply NoDup_app in Hnd as (_ & _ & [Hq2 _]%NoDup_cons).
          apply elem_of_app in Ha as [?|?]; done.
      - split; [apply elem_of_concat_lookup; eauto|]. intros ->.
        eapply (NoDup_concat_apart chains c' c); eauto using wf_nodup. }
    destruct Hac as [Hac Haq].
    rewrite consolidated_pool_headers in Hr.
    destruct (prev =? NULL) eqn:E.
    + simpl in Hr. rewrite lookup_insert_ne in Hr by done. by apply (Hbusy a).
    + apply Z.eqb_neq in E. destruct (Hrp E) as [_ Hprp].
      destruct (decide (a = prev)) as [Heq|Hne].
      * rewrite Heq, lookup_insert_eq in Hr. injection Hr as <-. simpl.
        apply (Hbusy prev); [by rewrite <- Heq|done].
      * rewrite lookup_insert_ne in Hr by done.
        simpl in Hr. rewrite lookup_insert_ne in Hr by done. by apply (Hbusy a).
  - destruct (wf_chains_counter _ _ _ _ _ Hwf1 Hc Hn1) as [Hsum Hrange].
    destruct (valid_counts _ Hv') as [[Hf0 _] _].
    rewrite Htot, to_size_t_small.
    { apply list_lookup_insert_eq. rewrite length_insert. eapply lookup_lt_Some; eauto. }
    assert (m_FreeChunksNumber rq' ≤ n + 1); [|lia].
    rewrite Hsum. replace (m_FreeChunksNumber rq') with (free_at (pool_headers s1) q)
      by (unfold free_at; by rewrite Hrq1).
    apply sum_free_elem_le; [|done].
    intros b Hb. eapply wf_chains_free_nonneg; [done|]. by eapply wf_chains_elem.
Qed.

(** *** Whole calls *)

Lemma mem_PoolsAlloc_in_range s (c : nat) p s' :
  length (mem_FreeChunksNumber s) = MEM_POOL_CHUNK_TYPE__COUNT →
  mem_PoolsAlloc c s = Done p s' → (c < MEM_POOL_CHUNK_TYPE__COUNT)%nat.
Proof.
  intros Hlen Hrun. unfold mem_PoolsAlloc, bind, run_mem_GetChunkSize in Hrun.
  destruct (mem_GetChunkSize c); [|done]. simpl in Hrun.
  unfold read_mem_FreeChunksNumber in Hrun.
  destruct (mem_FreeChunksNumber s !! c) eqn:E; [|done].
  rewrite <- Hlen. eapply lookup_lt_Some; eauto.
Qed.

Lemma mem_PoolsAlloc_total `{!PlatformOk C} s (c : nat) :
  wf s → (c < MEM_POOL_CHUNK_TYPE__COUNT)%nat →
  ∃ p s', mem_PoolsAlloc c s = Done p s' ∧ wf s'.
Proof.
  intros (chains & Hwf & Hbusy) Hc.
  destruct (wf_chains_lookup _ _ _ Hwf Hc) as [l Hl].
  destruct (wf_chain _ _ Hwf c l Hl) as (head & Hhead & _).
  pose proof (wf_count _ _ Hwf c l Hl) as Hn.
  pose proof (mem_GetChunkSize_exact c chunk_types_fit size_width_ge Hc) as Hcs.
  destruct (decide (sum_free (pool_headers s) l = 0)) as [Hz|Hnz].
  - rewrite Hz in Hn.
    destruct (decide (new_header s = NULL)) as [Hh|Hh].
    { destruct (mem_PoolsAlloc_header_fail_path s chains c _ Hwf Hn Hcs Hh) as [Hrun Hwf'].
      eexists _, _. split; [exact Hrun|]. exists chains. split; [done|].
      intros a Ha r Hr. by apply (Hbusy a Ha). }
    destruct (decide (new_block s (Z.shiftl 1 (Z.of_nat c + 2)) = NULL)) as [Hb|Hb].
    { destruct (mem_PoolsAlloc_heap_fail_path s chains c _ Hwf Hn Hcs Hh Hb) as [Hrun Hwf'].
      eexists _, _. split; [exact Hrun|]. exists chains. split; [done|].
      intros a Ha r Hr. by apply (Hbusy a Ha). }
    destruct (mem_PoolsAlloc_grow_path s chains c l _ head Hwf Hbusy Hl Hc Hhead Hn Hcs Hh Hb)
      as (_ & Hrun & _ & _ & Hwf' & Hbusy' & _).
    eexists _, _. split; [exact Hrun|]. eexists. split; [exact Hwf'|exact Hbusy'].
  - destruct (mem_PoolsAlloc_take_path s chains c l _ _ Hwf Hbusy Hl Hn Hcs Hnz)
      as (l1 & q & l2 & rq & _ & _ & _ & _ & Hrun & Hwf' & Hbusy' & _).
    eexists _, _. split; [exact Hrun|]. exists chains. split; [exact Hwf'|exact Hbusy'].
Qed.

Lemma mem_PoolsAlloc_wf `{!PlatformOk C} s (c : nat) p s' :
  wf s → mem_PoolsAlloc c s = Done p s' → wf s'.
Proof.
  intros Hwf Hrun.
  assert (Hc : (c < MEM_POOL_CHUNK_TYPE__COUNT)%nat).
  { destruct Hwf as (chains & Hwf & _).
    eapply mem_PoolsAlloc_in_range; [|exact Hrun]. apply Hwf. }
  destruct (mem_PoolsAlloc_total s c Hwf Hc) as (p' & s'' & Hrun' & Hwf').
  congruence.
Qed.

(** The owner of a chunk that is handed out, in terms of the invariant. *)
Lemma live_chunk_owner s chains c p :
  wf_chains s chains → live_chunk s c p →
  ∃ l1 q l2 rq, chains !! c = Some (l1 ++ q :: l2) ∧
    pool_headers s !! q = Some rq ∧ chunk_used rq p.
Proof.
  intros Hwf (l & q & rq & Hl & Hq & Hrq & Hu).
  apply (pool_chain_wf _ _ _ _ Hwf) in Hl.
  apply list_elem_of_split in Hq as (l1 & l2 & ->). eauto 10.
Qed.

Lemma mem_PoolsFree_total s (c : nat) p :
  wf s → live_chunk s c p → ∃ s', mem_PoolsFree c p s = Done tt s' ∧ wf s'.
Proof.
  intros (chains & Hwf & Hbusy) Hlive.
  destruct (live_chunk_owner _ _ _ _ Hwf Hlive) as (l1 & q & l2 & rq & Hc & Hrq & Hu).
  destruct (wf_chains_counter s chains c _ _ Hwf Hc (wf_count _ _ Hwf c _ Hc)) as [_ Hrange].
  pose proof (wf_count _ _ Hwf c _ Hc) as Hn.
  destruct (decide (m_FreeChunksNumber rq + 1 = m_ChunksNumber rq)) as [Hfull|Hkeep].
  - destruct (mem_PoolsFree_consolidate_path s chains c l1 q l2 rq _ p
                Hwf Hbusy Hc Hrq Hu Hn Hfull) as (rp & _ & Hrun & Hwf' & Hbusy' & _).
    eexists. split; [exact Hrun|]. eexists. split; [exact Hwf'|exact Hbusy'].
  - destruct (mem_PoolsFree_keep_path s chains c l1 q l2 rq _ p
                Hwf Hbusy Hc Hrq Hu Hn Hkeep) as (Hrun & Hwf' & Hbusy' & _).
    eexists. split; [exact Hrun|]. exists chains. split; [exact Hwf'|exact Hbusy'].
Qed.

Lemma mem_PoolsFree_wf s (c : nat) p s' :
  wf s → live_chunk s c p → mem_PoolsFree c p s = Done tt s' → wf s'.
Proof.
  intros Hwf Hlive Hrun.
  destruct (mem_PoolsFree_total s c p Hwf Hlive) as (s'' & Hrun' & Hwf').
  congruence.
Qed.

Lemma mem_PoolsInit_total `{!PlatformOk C} s :
  length (mem_Pools s) = MEM_POOL_CHUNK_TYPE__COUNT →
  length (mem_FreeChunksNumber s) = MEM_POOL_CHUNK_TYPE__COUNT →
  ∃ s', mem_PoolsInit s = Done tt s' ∧ wf s'.
Proof.
  intros H1 H2. destruct (mem_PoolsInit_wf s H1 H2) as (s' & Hrun & Hwf & _).
  exists s'. split; [done|]. eexists. split; [exact Hwf|].
  intros a Ha. rewrite concat_replicate_nil in Ha. by apply elem_of_nil in Ha.
Qed.

(** *** Abandoned header chunks stay abandoned *)

Lemma abandoned_chains s chains a :
  wf_chains s chains →
  abandoned s a ↔ chunk_used (mem_PoolForPoolHeaders s) a ∧ a ∉ concat chains.
Proof.
  intros Hwf. unfold abandoned. split; intros [Hu Hn]; (split; [done|]).
  - intros (c & l & Hc & Ha)%elem_of_concat_lookup.
    apply (Hn c l); [|done]. by eapply wf_pool_chain.
  - intros c l Hl Ha. apply Hn. apply elem_of_concat_lookup.
    exists c, l. split; [|done]. by eapply pool_chain_wf.
Qed.

Lemma header_none s :
  pool_valid (mem_PoolForPoolHeaders s) → new_header s = NULL →
  (mem_PoolAllocChunk (mem_PoolForPoolHeaders s)).2 = mem_PoolForPoolHeaders s.
Proof.
  intros Hv Hps.
  destruct (decide (m_FreeChunksNumber (mem_PoolForPoolHeaders s) = 0)) as [Hz|Hne].
  - by rewrite (alloc_none _ Hv Hz).
  - destruct (alloc_some (mem_PoolForPoolHeaders s) (new_header s)
      (mem_PoolAllocChunk (mem_PoolForPoolHeaders s)).2 Hv Hne) as (? & _); [|done].
    unfold new_header. by destruct (mem_PoolAllocChunk _).
Qed.

Lemma abandoned_alloc `{!PlatformOk C} s (c : nat) p s' a :
  wf s → abandoned s a → mem_PoolsAlloc c s = Done p s' → abandoned s' a.
Proof.
  intros (chains & Hwf & Hbusy) Hab Hrun.
  assert (Hc : (c < MEM_POOL_CHUNK_TYPE__COUNT)%nat).
  { eapply mem_PoolsAlloc_in_range; [|exact Hrun]. apply Hwf. }
  apply (abandoned_chains _ _ _ Hwf) in Hab as [Hu Hnotin].
  destruct (wf_chains_lookup _ _ _ Hwf Hc) as [l Hl].
  destruct (wf_chain _ _ Hwf c l Hl) as (head & Hhead & _).
  pose proof (wf_count _ _ Hwf c l Hl) as Hn.
  pose proof (mem_GetChunkSize_exact c chunk_types_fit size_width_ge Hc) as Hcs.
  destruct (decide (sum_free (pool_headers s) l = 0)) as [Hz|Hnz].
  - rewrite Hz in Hn.
    destruct (decide (new_header s = NULL)) as [Hh|Hh].
    { destruct (mem_PoolsAlloc_header_fail_path s chains c _ Hwf Hn Hcs Hh) as [Hrun' Hwf'].
      rewrite Hrun in Hrun'. injection Hrun' as -> ->.
      apply (abandoned_chains _ _ _ Hwf'). split; [|done].
      simpl. by rewrite (header_none s (wf_header _ _ Hwf) Hh). }
    destruct (header_carve s (wf_header _ _ Hwf) Hh) as (_ & Hfresh & _ & Hhu).
    destruct (decide (new_block s (Z.shiftl 1 (Z.of_nat c + 2)) = NULL)) as [Hb|Hb].
    { destruct (mem_PoolsAlloc_heap_fail_path s chains c _ Hwf Hn Hcs Hh Hb) as [Hrun' Hwf'].
      rewrite Hrun in Hrun'. injection Hrun' as -> ->.
      apply (abandoned_chains _ _ _ Hwf'). split; [|done].
      simpl. apply Hhu. by right. }
    destruct (mem_PoolsAlloc_grow_path s chains c l _ head Hwf Hbusy Hl Hc Hhead Hn Hcs Hh Hb)
      as (_ & Hrun' & _ & _ & Hwf' & _).
    rewrite Hrun in Hrun'. injection Hrun' as -> ->.
    apply (abandoned_chains _ _ _ Hwf'). split.
    + simpl. apply Hhu. by right.
    + intros Hin. apply (elem_of_concat_insert chains c l _ a Hl) in Hin
        as [Hin|(c' & l' & _ & Hc' & Hin)].
      * apply elem_of_cons in Hin as [->|Hin]; [done|].
        apply Hnotin. by eapply wf_chains_elem.
      * apply Hnotin. apply elem_of_concat_lookup. eauto.
  - destruct (mem_PoolsAlloc_take_path s chains c l _ _ Hwf Hbusy Hl Hn Hcs Hnz)
      as (l1 & q & l2 & rq & _ & _ & _ & _ & Hrun' & Hwf' & _).
    rewrite Hrun in Hrun'. injection Hrun' as -> ->.
    by apply (abandoned_chains _ _ _ Hwf').
Qed.

Lemma abandoned_free s (c : nat) p s' a :
  wf s → abandoned s a → live_chunk s c p → mem_PoolsFree c p s = Done tt s' →
  abandoned s' a.
Proof.
  intros (chains & Hwf & Hbusy) Hab Hlive Hrun.
  apply (abandoned_chains _ _ _ Hwf) in Hab as [Hu Hnotin].
  destruct (live_chunk_owner _ _ _ _ Hwf Hlive) as (l1 & q & l2 & rq & Hc & Hrq & Hused).
  pose proof (wf_count _ _ Hwf c _ Hc) as Hn.
  destruct (decide (m_FreeChunksNumber rq + 1 = m_ChunksNumber rq)) as [Hfull|Hkeep].
  - destruct (mem_PoolsFree_consolidate_path s chains c l1 q l2 rq _ p
                Hwf Hbusy Hc Hrq Hused Hn Hfull) as (rp & _ & Hrun' & Hwf' & _).
    rewrite Hrun in Hrun'. injection Hrun' as ->.
    apply (abandoned_chains _ _ _ Hwf').
    assert (Hqc : q ∈ concat chains).
    { eapply wf_chains_elem; [done|done|]. apply elem_of_app. right. by left. }
    destruct (wf_member _ _ Hwf q Hqc) as (_ & _ & _ & _ & _ & Hqu).
    destruct (free_spec _ q (wf_header _ _ Hwf) Hqu) as (_ & _ & _ & Hhu).
    split.
    + simpl. apply Hhu. split; [|done]. by intros ->.
    + intros Hin. apply Hnotin.
      apply (elem_of_concat_insert chains c _ _ a Hc) in Hin
        as [Hin|(c' & l' & _ & Hc' & Hin)].
      * eapply wf_chains_elem; [done|done|].
        apply elem_of_app in Hin as [?|?]; apply elem_of_app; [by left|right; by right].
      * apply elem_of_concat_lookup. eauto.
  - destruct (mem_PoolsFree_keep_path s chains c l1 q l2 rq _ p
                Hwf Hbusy Hc Hrq Hused Hn Hkeep) as (Hrun' & Hwf' & _).
    rewrite Hrun in Hrun'. injection Hrun' as ->.
    by apply (abandoned_chains _ _ _ Hwf').
Qed.

Lemma later_wf `{!PlatformOk C} s s' : later s s' → wf s → wf s'.
Proof.
  induction 1 as [s|s s1 c p s2 _ IH Hrun|s s1 c p s2 _ IH Hlive Hrun]; intros Hwf.
  - done.
  - eapply mem_PoolsAlloc_wf; [|exact Hrun]. by apply IH.
  - eapply mem_PoolsFree_wf; [|exact Hlive|exact Hrun]. by apply IH.
Qed.

Lemma abandoned_later `{!PlatformOk C} s s' a :
  later s s' → wf s → abandoned s a → abandoned s' a.
Proof.
  induction 1 as [s|s s1 c p s2 Hl IH Hrun|s s1 c p s2 Hl IH Hlive Hrun];
    intros Hwf Hab.
  - done.
  - eapply abandoned_alloc; [|by apply IH|exact Hrun]. by eapply later_wf.
  - eapply abandoned_free; [|by apply IH|exact Hlive|exact Hrun]. by eapply later_wf.
Qed.

Lemma reachable_wf `{!PlatformOk C} s : reachable s → wf s.
Proof.
  induction 1 as [s s' H1 H2 Hrun|s c p s' _ IH Hrun|s c p s' _ IH Hlive Hrun].
  - destruct (mem_PoolsInit_total s H1 H2) as (s'' & Hrun' & Hwf). congruence.
  - by eapply mem_PoolsAlloc_wf.
  - by eapply mem_PoolsFree_wf.
Qed.

End Preservation.

(** * A small instance of the collaborators

    A pool whose tracking is a list of free and a list of used chunk
    addresses, with one word of bookkeeping in front of the chunks, and a
    heap that hands out consecutive blocks up to a limit.  The instance
    shows that the contracts can be met, and the operations of the manager
    can be evaluated on it. *)

Module Demo.

Record pool_tracking : Type := Build_tracking {
  d_chunk : Z;
  d_free : list Z;
  d_used : list Z
}.

Record bump_heap : Type := Build_heap { brk : Z; limit : Z }.

Definition demo_pool : Type := mem_PoolState_t pool_tracking.

Definition MODULUS : Z := 2 ^ 32.

(** Number of chunks of [cs] bytes in a block of [size] bytes at [start],
    after one word of bookkeeping; none in a block at a non-positive
    address. *)
Definition chunks_in (cs start size : Z) : Z :=
  if (0 <? cs) && (0 <? start) && (4 <=? size) then (size - 4) / cs else 0.

Definition PoolInit (cs start size : Z) : demo_pool :=
  let n := chunks_in cs start size in
  Build_PoolState start size (start + 4) n n NULL
    (Build_tracking cs ((λ i, start + 4 + i * cs) <$> seqZ 0 n) []).

Definition PoolAllocChunk (r : demo_pool) : Z * demo_pool :=
  match d_free (m_Internal r) with
  | [] => (NULL, r)
  | q :: fl =>
      (q, Build_PoolState (m_pPoolStart r) (m_PoolSize r) (m_pChunks r)
            (m_ChunksNumber r) (m_FreeChunksNumber r - 1) (m_pNextPool r)
            (Build_tracking (d_chunk (m_Internal r)) fl (q :: d_used (m_Internal r))))
  end.

Definition PoolFreeChunk (r : demo_pool) (q : Z) : demo_pool :=
  Build_PoolState (m_pPoolStart r) (m_PoolSize r) (m_pChunks r)
    (m_ChunksNumber r) (m_FreeChunksNumber r + 1) (m_pNextPool r)
    (Build_tracking (d_chunk (m_Internal r)) (q :: d_free (m_Internal r))
       (filter (λ x, x ≠ q) (d_used (m_Internal r)))).

Definition HeapRecommendAllocationSize (n : Z) : Z := (n + 15) / 16 * 16.

Definition HeapAllocBlock (n : Z) (t : mem_HeapAllocTerm_t) (h : bump_heap)
  : Z * bump_heap :=
  if (0 <? n) && (0 <? brk h) && (brk h + n <=? limit h) && (limit h <=? MODULUS)
  then (brk h, Build_heap (brk h + n) (limit h))
  else (NULL, h).

Definition HeapFreeBlock (b : Z) (h : bump_heap) : bump_heap := h.

Definition SizeToPoolChunkType (size : Z) : nat :=
  if size <=? 4 then 0
  else if size <=? 8 then 1
  else if size <=? 16 then 2
  else if size <=? 32 then 3
  else 4.

#[export] Instance demo : Collaborators := {|
  pool_internal := pool_tracking;
  heap_t := bump_heap;
  MEM_POOL_CHUNK_TYPE__COUNT := 5;
  SIZE_WIDTH := 32;
  sizeof_mword_t := 4;
  sizeof_mem_PoolState_t := 32;
  mem_SizeToPoolChunkType := SizeToPoolChunkType;
  mem_HeapRecommendAllocationSize := HeapRecommendAllocationSize;
  mem_HeapAllocBlock := HeapAllocBlock;
  mem_HeapFreeBlock := HeapFreeBlock;
  mem_PoolInit := PoolInit;
  mem_PoolAllocChunk := PoolAllocChunk;
  mem_PoolFreeChunk := PoolFreeChunk
|}.

Definition valid (r : demo_pool) : Prop :=
  m_FreeChunksNumber r = Z.of_nat (length (d_free (m_Internal r))) ∧
  m_ChunksNumber r =
    Z.of_nat (length (d_free (m_Internal r))) + Z.of_nat (length (d_used (m_Internal r))) ∧
  m_ChunksNumber r < MODULUS ∧
  NoDup (d_free (m_Internal r) ++ d_used (m_Internal r)) ∧
  (∀ q, q ∈ d_free (m_Internal r) ++ d_used (m_Internal r) →
     q ≠ NULL ∧ m_pChunks r ≤ q < m_pPoolStart r + m_PoolSize r) ∧
  (0 < m_ChunksNumber r →
     m_pPoolStart r < m_pChunks r ∧
     m_pChunks r + m_ChunksNumber r ≤ m_pPoolStart r + m_PoolSize r).

Definition used (r : demo_pool) (q : Z) : Prop := q ∈ d_used (m_Internal r).

Definition live (h : bump_heap) (b n : Z) : Prop :=
  0 ≤ b ∧ b + n ≤ brk h ∧ brk h ≤ MODULUS.

Lemma modulus_eq : MODULUS = 4294967296.
Proof. reflexivity. Qed.

Lemma chunks_in_spec cs start size :
  0 < cs → 0 ≤ size →
  let n := chunks_in cs start size in
  0 ≤ n ∧ (0 < n → 0 < start ∧ 4 ≤ size ∧ n * cs ≤ size - 4 ∧ n ≤ size - 4).
Proof.
  intros Hcs Hsize n. subst n. unfold chunks_in.
  destruct (Z.ltb_spec 0 cs); [|lia].
  destruct (Z.ltb_spec 0 start); simpl; [|lia].
  destruct (Z.leb_spec 4 size); simpl; [|lia].
  assert (0 ≤ (size - 4) / cs) by (apply Z.div_pos; lia).
  assert (cs * ((size - 4) / cs) ≤ size - 4) by (apply Z.mul_div_le; lia).
  split; [done|]. intros _. repeat split; try lia. nia.
Qed.

Lemma filter_ne_length (q : Z) (l : list Z) :
  NoDup l → q ∈ l → S (length (filter (λ x, x ≠ q) l)) = length l.
Proof.
  induction l as [|a l IH]; intros Hnd Hq; [by apply elem_of_nil in Hq|].
  apply NoDup_cons in Hnd as [Ha Hnd].
  destruct (decide (a = q)) as [->|Hne].
  - rewrite filter_cons_False by (intros H; by apply H). simpl. f_equal.
    clear IH Hq. induction l as [|b l IH]; [done|].
    apply not_elem_of_cons in Ha as [Hb Ha]. apply NoDup_cons in Hnd as [_ Hnd].
    rewrite filter_cons_True by (by intros ->). simpl. f_equal. by apply IH.
  - rewrite filter_cons_True by done. simpl. f_equal. apply IH; [done|].
    apply elem_of_cons in Hq as [->|Hq]; done.
Qed.

Lemma valid_counts_demo (r : demo_pool) :
  valid r → 0 ≤ m_FreeChunksNumber r ≤ m_ChunksNumber r ∧ m_ChunksNumber r < MODULUS.
Proof. intros (H1 & H2 & H3 & _). lia. Qed.

Lemma valid_layout_demo (r : demo_pool) :
  valid r → 0 < m_ChunksNumber r →
  m_pPoolStart r < m_pChunks r ∧
  m_pChunks r + m_ChunksNumber r ≤ m_pPoolStart r + m_PoolSize r.
Proof. intros (_ & _ & _ & _ & _ & H). exact H. Qed.

Lemma used_in_range_demo (r : demo_pool) q :
  valid r → used r q → m_pChunks r ≤ q < m_pPoolStart r + m_PoolSize r.
Proof.
  intros (_ & _ & _ & _ & H & _) Hq. apply H. apply elem_of_app. by right.
Qed.

Lemma used_not_free_demo (r : demo_pool) q :
  valid r → used r q → m_FreeChunksNumber r < m_ChunksNumber r.
Proof.
  intros (H1 & H2 & _) Hq. unfold used in Hq.
  destruct (d_used (m_Internal r)); [by apply elem_of_nil in Hq|]. simpl in H2. lia.
Qed.

Lemma init_spec_demo cs start size :
  0 < cs → 0 ≤ size < MODULUS →
  let r := PoolInit cs start size in
  valid r ∧ m_pPoolStart r = start ∧ m_PoolSize r = size ∧
  m_FreeChunksNumber r = m_ChunksNumber r ∧ ∀ q, ¬ used r q.
Proof.
  intros Hcs Hsize r. subst r.
  destruct (chunks_in_spec cs start size Hcs) as [Hn0 Hn]; [lia|].
  unfold PoolInit, valid, used. simpl.
  set (n := chunks_in cs start size) in *.
  rewrite length_fmap, length_seqZ, Z2Nat.id by done. rewrite app_nil_r.
  repeat split; try done; try lia.
  - apply NoDup_fmap_2_strong; [|apply NoDup_seqZ].
    intros x y _ _ H. nia.
  - apply list_elem_of_fmap in H as (i & -> & Hi). apply elem_of_seqZ in Hi.
    assert (Hpos : 0 < n) by lia. specialize (Hn Hpos). unfold NULL. nia.
  - apply list_elem_of_fmap in H as (i & -> & Hi). apply elem_of_seqZ in Hi. nia.
  - apply list_elem_of_fmap in H as (i & -> & Hi). apply elem_of_seqZ in Hi.
    assert (Hpos : 0 < n) by lia. specialize (Hn Hpos). nia.
  - intros q Hq. by apply elem_of_nil in Hq.
Qed.

Lemma init_nonempty_demo cs start size :
  0 < cs → 0 < start → 8 * cs + 4 ≤ size < MODULUS →
  0 < m_ChunksNumber (PoolInit cs start size).
Proof.
  intros Hcs Hstart Hsize. simpl. unfold chunks_in.
  destruct (Z.ltb_spec 0 cs); [|lia].
  destruct (Z.ltb_spec 0 start); [|lia].
  destruct (Z.leb_spec 4 size); [|lia]. simpl.
  apply Z.div_str_pos. lia.
Qed.

Lemma alloc_none_demo (r : demo_pool) :
  valid r → m_FreeChunksNumber r = 0 → PoolAllocChunk r = (NULL, r).
Proof.
  intros (H1 & _) Hz. unfold PoolAllocChunk.
  destruct (d_free (m_Internal r)); [done|]. simpl in H1. lia.
Qed.

Lemma alloc_some_demo (r : demo_pool) q r' :
  valid r → m_FreeChunksNumber r ≠ 0 → PoolAllocChunk r = (q, r') →
  q ≠ NULL ∧ valid r' ∧ ¬ used r q ∧
  m_pChunks r ≤ q < m_pPoolStart r + m_PoolSize r ∧
  m_FreeChunksNumber r' = m_FreeChunksNumber r - 1 ∧ same_layout r r' ∧
  ∀ x, used r' x ↔ x = q ∨ used r x.
Proof.
  intros (H1 & H2 & H3 & H4 & H5 & H6) Hnz. unfold PoolAllocChunk.
  destruct (d_free (m_Internal r)) as [|q0 fl] eqn:Hfl; [simpl in H1; lia|].
  intros [= <- <-]. simpl in *.
  apply NoDup_cons in H4 as [Hq0 Hnd].
  destruct (H5 q0) as [Hq1 Hq2]; [by left|].
  split; [done|]. split; [|split; [|split; [done|split; [done|split]]]].
  - unfold valid. simpl.
    split; [lia|]. split; [lia|]. split; [lia|]. split; [|split].
    + apply NoDup_app. apply NoDup_app in Hnd as (Hf & Hdis & Hu).
      split; [done|]. split.
      * intros x Hx [->|Hxu]%elem_of_cons; [|by apply (Hdis x)].
        apply Hq0. apply elem_of_app. by left.
      * apply NoDup_cons. split; [|done].
        intros Hin. apply Hq0. apply elem_of_app. by right.
    + intros x Hx. apply H5.
      apply elem_of_app in Hx as [Hx|[->|Hx]%elem_of_cons];
        [right|by left|right]; apply elem_of_app; auto.
    + intros Hpos. by apply H6.
  - unfold used. intros Hin. apply Hq0. apply elem_of_app. by right.
  - done.
  - intros x. unfold used. simpl. apply elem_of_cons.
Qed.

Lemma free_spec_demo (r : demo_pool) q :
  valid r → used r q →
  let r' := PoolFreeChunk r q in
  valid r' ∧ m_FreeChunksNumber r' = m_FreeChunksNumber r + 1 ∧
  same_layout r r' ∧ ∀ x, used r' x ↔ x ≠ q ∧ used r x.
Proof.
  intros (H1 & H2 & H3 & H4 & H5 & H6) Hq r'. subst r'. unfold used in Hq.
  apply NoDup_app in H4 as (Hf & Hdis & Hu).
  pose proof (filter_ne_length q _ Hu Hq) as Hlen.
  split; [|split; [done|split; [done|]]].
  - unfold valid, PoolFreeChunk. simpl.
    split; [lia|]. split; [lia|]. split; [lia|]. split; [|split].
    + apply NoDup_cons. split.
      * intros [Hin|Hin]%elem_of_app; [by apply (Hdis q)|].
        apply list_elem_of_filter in Hin as [Hne _]. done.
      * apply NoDup_app. split; [done|]. split; [|by apply NoDup_filter].
        intros x Hx [_ Hxu]%list_elem_of_filter. by apply (Hdis x).
    + intros x Hx. apply H5. apply elem_of_cons in Hx as [->|Hx].
      * apply elem_of_app. by right.
      * apply elem_of_app in Hx as [Hx|[_ Hx]%list_elem_of_filter];
          apply elem_of_app; auto.
    + intros Hpos. by apply H6.
  - intros x. unfold used, PoolFreeChunk. simpl. by rewrite list_elem_of_filter.
Qed.

Lemma recommend_spec_demo n :
  0 ≤ n < MODULUS / 2 → n ≤ HeapRecommendAllocationSize n < MODULUS.
Proof.
  rewrite modulus_eq. change (4294967296 / 2) with 2147483648.
  intros Hn. unfold HeapRecommendAllocationSize.
  pose proof (Z.div_mod (n + 15) 16 ltac:(lia)).
  pose proof (Z.mod_pos_bound (n + 15) 16 ltac:(lia)). lia.
Qed.

Lemma heap_alloc_keeps_demo n t h b0 n0 :
  live h b0 n0 → live (HeapAllocBlock n t h).2 b0 n0.
Proof.
  intros (H1 & H2 & H3). unfold HeapAllocBlock.
  destruct (Z.ltb_spec 0 n); simpl; [|done].
  destruct (Z.ltb_spec 0 (brk h)); simpl; [|done].
  destruct (Z.leb_spec (brk h + n) (limit h)); simpl; [|done].
  destruct (Z.leb_spec (limit h) MODULUS); simpl; [|done].
  unfold live. simpl. lia.
Qed.

Lemma heap_alloc_new_demo n t h :
  (HeapAllocBlock n t h).1 ≠ NULL →
  let b := (HeapAllocBlock n t h).1 in
  live (HeapAllocBlock n t h).2 b n ∧
  ∀ b0 n0, live h b0 n0 → b0 + n0 ≤ b ∨ b + n ≤ b0.
Proof.
  unfold HeapAllocBlock.
  destruct (Z.ltb_spec 0 n); simpl; [|done].
  destruct (Z.ltb_spec 0 (brk h)); simpl; [|done].
  destruct (Z.leb_spec (brk h + n) (limit h)); simpl; [|done].
  destruct (Z.leb_spec (limit h) MODULUS); simpl; [|done].
  intros _. split.
  - unfold live. simpl. lia.
  - intros b0 n0 (L1 & L2 & L3). lia.
Qed.

Lemma live_in_space_demo h b n : live h b n → 0 ≤ b ∧ b + n ≤ MODULUS.
Proof. intros (H1 & H2 & H3). lia. Qed.

#[export] Instance demo_contracts : Contracts demo := {|
  pool_valid := valid;
  chunk_used := used;
  block_live := live;
  valid_counts := valid_counts_demo;
  valid_layout := valid_layout_demo;
  used_in_range := used_in_range_demo;
  used_not_free := used_not_free_demo;
  valid_set_next := λ r n H, H;
  used_set_next := λ r n q, reflexivity _;
  init_spec := init_spec_demo;
  init_nonempty := init_nonempty_demo;
  alloc_none := alloc_none_demo;
  alloc_some := alloc_some_demo;
  free_spec := free_spec_demo;
  recommend_spec := recommend_spec_demo;
  heap_alloc_keeps := heap_alloc_keeps_demo;
  heap_alloc_new := heap_alloc_new_demo;
  live_in_space := live_in_space_demo;
  heap_free_keeps := λ h b b0 n0 H _, H
|}.

#[export] Instance demo_platform : PlatformOk demo.
Proof.
  split; unfold SIZE_MODULUS; simpl;
    change (2 ^ 32) with 4294967296; change (2 ^ 6) with 64;
    try change (4294967296 / 2) with 2147483648; unfold SizeToPoolChunkType; simpl; lia.
Qed.

End Demo.

(** * The properties of the manager *)

Section Properties.
Context {C : Collaborators} {K : Contracts C}.
Implicit Types (m : gmap Z pool) (l : list Z) (s : state).

(** C1 (accounting invariant): in every state the manager goes through,
    that is after [mem_PoolsInit] and after every call of [mem_PoolsAlloc]
    or [mem_PoolsFree] that returns, the counter [mem_FreeChunksNumber[c]] of
    every size class [c] is the sum of the free-chunk counts of the pools of
    the chain [mem_Pools[c]]. *)
Theorem C1_accounting_invariant `{!PlatformOk C} s :
  reachable s → accounting s.
Proof. intros Hr. apply wf_accounting. by apply reachable_wf. Qed.

(** C9 (chunk size): for a size class [c] below the number of size classes,
    [mem_GetChunkSize] returns exactly [1 << (c + 2)]; it is a function of
    the size class alone and run as part of an operation it leaves the state
    as it is. *)
Theorem C9_chunk_size (c : nat) :
  Z.of_nat MEM_POOL_CHUNK_TYPE__COUNT + 1 < 32 → 32 ≤ SIZE_WIDTH →
  (c < MEM_POOL_CHUNK_TYPE__COUNT)%nat →
  mem_GetChunkSize c = Some (Z.shiftl 1 (Z.of_nat c + 2)) ∧
  ∀ s, run_mem_GetChunkSize c s = Done (Z.shiftl 1 (Z.of_nat c + 2)) s.
Proof.
  intros HK HW Hc.
  pose proof (mem_GetChunkSize_exact c HK HW Hc) as H. split; [done|].
  intros s. by apply run_mem_GetChunkSize_Done.
Qed.

(** C4 (failure of allocation): under the invariant and the contracts of
    the collaborators, [mem_PoolsAlloc] returns, and it returns [NULL] if and
    only if the counter of the class was zero at entry and either the header
    pool gave no chunk or the heap gave no block. *)
Theorem C4_alloc_failure `{!PlatformOk C} s (c : nat) :
  wf s → (c < MEM_POOL_CHUNK_TYPE__COUNT)%nat →
  ∃ p s' cs, mem_GetChunkSize c = Some cs ∧ mem_PoolsAlloc c s = Done p s' ∧
    (p = NULL ↔
     mem_FreeChunksNumber s !! c = Some 0 ∧
     (new_header s = NULL ∨ new_block s cs = NULL)).
Proof.
  intros (chains & Hwf & Hbusy) Hc.
  destruct (wf_chains_lookup _ _ _ Hwf Hc) as [l Hl].
  destruct (wf_chain _ _ Hwf c l Hl) as (head & Hhead & _).
  pose proof (wf_count _ _ Hwf c l Hl) as Hn.
  pose proof (mem_GetChunkSize_exact c chunk_types_fit size_width_ge Hc) as Hcs.
  destruct (decide (sum_free (pool_headers s) l = 0)) as [Hz|Hnz].
  - rewrite Hz in Hn.
    destruct (decide (new_header s = NULL)) as [Hh|Hh].
    { destruct (mem_PoolsAlloc_header_fail_path s chains c _ Hwf Hn Hcs Hh) as [Hrun _].
      eexists _, _, _. split; [exact Hcs|]. split; [exact Hrun|]. tauto. }
    destruct (decide (new_block s (Z.shiftl 1 (Z.of_nat c + 2)) = NULL)) as [Hb|Hb].
    { destruct (mem_PoolsAlloc_heap_fail_path s chains c _ Hwf Hn Hcs Hh Hb) as [Hrun _].
      eexists _, _, _. split; [exact Hcs|]. split; [exact Hrun|]. tauto. }
    destruct (mem_PoolsAlloc_grow_path s chains c l _ head Hwf Hbusy Hl Hc Hhead Hn Hcs Hh Hb)
      as (_ & Hrun & _ & _ & _ & _ & _ & _ & Hp & _).
    eexists _, _, _. split; [exact Hcs|]. split; [exact Hrun|]. tauto.
  - destruct (mem_PoolsAlloc_take_path s chains c l _ _ Hwf Hbusy Hl Hn Hcs Hnz)
      as (l1 & q & l2 & rq & _ & _ & _ & _ & Hrun & _ & _ & _ & Hp & _).
    eexists _, _, _. split; [exact Hcs|]. split; [exact Hrun|].
    split; [tauto|]. intros [Hz _]. congruence.
Qed.

(** C5 (heap failure during growth): when the header pool has given a chunk
    for the header of a new pool and the heap then gives no block,
    [mem_PoolsAlloc] returns [NULL] without giving the chunk back: the only
    calls made are the two requests, the header pool is left as the request
    left it, with one free chunk less, and the chunk, used and in no chain,
    stays so whatever calls follow. *)
Theorem C5_heap_failure_abandons_header `{!PlatformOk C} s (c : nat) cs :
  wf s → mem_FreeChunksNumber s !! c = Some 0 → mem_GetChunkSize c = Some cs →
  new_header s ≠ NULL → new_block s cs = NULL →
  ∃ s', mem_PoolsAlloc c s = Done NULL s' ∧
    calls s' = calls s ++
      [Call_PoolAllocChunk HeaderPool (new_header s);
       Call_HeapRecommendAllocationSize (grow_request cs);
       Call_HeapAllocBlock (grow_size cs) MEM_HEAP_ALLOC_LONG_TERM NULL] ∧
    mem_PoolForPoolHeaders s' = (mem_PoolAllocChunk (mem_PoolForPoolHeaders s)).2 ∧
    m_FreeChunksNumber (mem_PoolForPoolHeaders s') =
      m_FreeChunksNumber (mem_PoolForPoolHeaders s) - 1 ∧
    ¬ chunk_used (mem_PoolForPoolHeaders s) (new_header s) ∧
    abandoned s' (new_header s) ∧
    ∀ s'', later s' s'' → abandoned s'' (new_header s).
Proof.
  intros Hwfs Hn Hcs Hh Hb. pose proof Hwfs as (chains & Hwf & Hbusy).
  destruct (mem_PoolsAlloc_heap_fail_path s chains c cs Hwf Hn Hcs Hh Hb) as [Hrun Hwf'].
  destruct (header_carve s (wf_header _ _ Hwf) Hh) as (_ & Hfresh & Hfree & Hhu).
  assert (Hab : abandoned (block_state s cs) (new_header s)).
  { apply (abandoned_chains _ _ _ Hwf'). split.
    - simpl. apply Hhu. by left.
    - intros Hin. destruct (wf_member _ _ Hwf _ Hin) as (_ & _ & _ & _ & _ & Hu). done. }
  assert (Hwfs' : wf (block_state s cs)).
  { exists chains. split; [done|]. intros a Ha r Hr. by apply (Hbusy a Ha). }
  exists (block_state s cs). split; [exact Hrun|]. split.
  { simpl. fold (new_block s cs). rewrite Hb. by rewrite <- !app_assoc. }
  split; [done|]. split; [exact Hfree|]. split; [done|]. split; [done|].
  intros s'' Hl. by eapply abandoned_later.
Qed.

(** C2 (growth step): when the counter of the class is zero at entry, and
    the header pool and the heap give what they are asked for,
    [mem_PoolsAlloc] first takes a chunk from the header pool, then asks the
    heap for a block of the size recommended for eight chunks of the class
    and one word, initialises the new header over that block, makes it the
    head of the chain with the former head as its successor, and adds its
    chunk count to the counter, before it takes a chunk as usual; when the
    counter is not zero it calls neither the header pool nor the heap. *)
Theorem C2_growth_step `{!PlatformOk C} s (c : nat) n l :
  wf s → pool_chain s c = Some l → mem_FreeChunksNumber s !! c = Some n →
  let cs := Z.shiftl 1 (Z.of_nat c + 2) in
  (n = 0 → new_header s ≠ NULL → new_block s cs ≠ NULL →
   ∃ s1 head,
     mem_Pools s !! c = Some head ∧
     mem_PoolsAlloc_grow c cs s = Done true s1 ∧
     mem_PoolsAlloc c s = mem_PoolsAlloc_take c s1 ∧
     calls s1 = calls s ++
       [Call_PoolAllocChunk HeaderPool (new_header s);
        Call_HeapRecommendAllocationSize (8 * cs + sizeof_mword_t);
        Call_HeapAllocBlock (grow_size cs) MEM_HEAP_ALLOC_LONG_TERM (new_block s cs);
        Call_PoolInit (PoolAt (new_header s)) cs (new_block s cs) (grow_size cs)] ∧
     8 * cs + sizeof_mword_t ≤ grow_size cs ∧
     pool_headers s1 !! new_header s =
       Some (set_m_pNextPool head (mem_PoolInit cs (new_block s cs) (grow_size cs))) ∧
     mem_Pools s1 !! c = Some (new_header s) ∧
     pool_chain s1 c = Some (new_header s :: l) ∧
     mem_FreeChunksNumber s1 !! c =
       Some (n + m_ChunksNumber (mem_PoolInit cs (new_block s cs) (grow_size cs)))) ∧
  (n ≠ 0 →
   ∃ p s' q, mem_PoolsAlloc c s = Done p s' ∧ q ∈ l ∧
     calls s' = calls s ++ [Call_PoolAllocChunk (PoolAt q) p] ∧
     heap s' = heap s ∧ mem_PoolForPoolHeaders s' = mem_PoolForPoolHeaders s).
Proof.
  intros (chains & Hwf & Hbusy) Hchain Hn cs.
  pose proof (pool_chain_wf _ _ _ _ Hwf Hchain) as Hl.
  assert (Hc : (c < MEM_POOL_CHUNK_TYPE__COUNT)%nat).
  { rewrite <- (wf_len_chains _ _ Hwf). eapply lookup_lt_Some; eauto. }
  destruct (wf_chain _ _ Hwf c l Hl) as (head & Hhead & _).
  pose proof (mem_GetChunkSize_exact c chunk_types_fit size_width_ge Hc) as Hcs.
  fold cs in Hcs. split.
  - intros -> Hh Hb.
    destruct (mem_PoolsAlloc_grow_path s chains c l cs head Hwf Hbusy Hl Hc Hhead Hn Hcs Hh Hb)
      as (Hgrow & Hrun & Hwf1 & Hn1 & _).
    destruct (chunk_size_fits c cs Hc Hcs) as [Hpos Hfit].
    destruct (grow_size_spec cs Hpos Hfit) as [Hsz _].
    pose proof sizeof_mword_t_pos as Hw.
    assert (SIZE_MODULUS / 2 ≤ SIZE_MODULUS).
    { pose proof size_modulus_pos. apply Z.div_le_upper_bound; lia. }
    exists (grown_state s c cs head 0), head.
    split; [done|]. split; [done|]. split.
    { unfold mem_PoolsAlloc.
      rewrite (bind_Done _ _ _ _ _ (run_mem_GetChunkSize_Done s c cs Hcs)).
      rewrite (bind_Done _ _ _ _ _ (read_mem_FreeChunksNumber_run s c 0 Hn)).
      simpl. by rewrite (bind_Done _ _ _ _ _ Hgrow). }
    split.
    { simpl. unfold grow_request. rewrite to_size_t_small by lia.
      by rewrite <- !app_assoc. }
    split; [done|]. split; [simpl; apply lookup_insert_eq|].
    split; [simpl; apply list_lookup_insert_eq; eapply lookup_lt_Some; eauto|].
    split; [|exact Hn1].
    eapply wf_pool_chain; [exact Hwf1|].
    apply list_lookup_insert_eq. eapply lookup_lt_Some; eauto.
  - intros Hn0.
    destruct (mem_PoolsAlloc_take_path s chains c l n cs Hwf Hbusy Hl Hn Hcs Hn0)
      as (l1 & q & l2 & rq & -> & _ & _ & _ & Hrun & _).
    eexists _, _, q. split; [exact Hrun|].
    split; [apply elem_of_app; right; by left|]. done.
Qed.

(** C3 (consolidation on free): [mem_PoolsFree] returns, and exactly when
    the pool that owns the chunk has as many free chunks as chunks after the
    release, the pool is taken out of the chain (the link of the pool in
    front of it, or else the head of the chain, is set to its successor), its
    chunk count is subtracted from the counter of the class, its block goes
    back to the heap and its header back to the header pool; otherwise the
    pool stays where it is in the chain and neither the heap nor the header
    pool is called. *)
Theorem C3_consolidation s (c : nat) l1 q l2 rq n p :
  wf s → pool_chain s c = Some (l1 ++ q :: l2) →
  pool_headers s !! q = Some rq → chunk_used rq p →
  mem_FreeChunksNumber s !! c = Some n →
  let rq' := mem_PoolFreeChunk rq p in
  ∃ s', mem_PoolsFree c p s = Done tt s' ∧
    (m_FreeChunksNumber rq' = m_ChunksNumber rq' →
       pool_chain s' c = Some (l1 ++ l2) ∧
       mem_FreeChunksNumber s' !! c = Some (n + 1 - m_ChunksNumber rq') ∧
       calls s' = calls s ++
         [Call_PoolFreeChunk (PoolAt q) p;
          Call_HeapFreeBlock (m_pPoolStart rq');
          Call_PoolFreeChunk HeaderPool q] ∧
       heap s' = mem_HeapFreeBlock (m_pPoolStart rq') (heap s) ∧
       mem_PoolForPoolHeaders s' = mem_PoolFreeChunk (mem_PoolForPoolHeaders s) q ∧
       (l1 = [] → mem_Pools s' !! c = Some (m_pNextPool rq')) ∧
       (∀ prev rp, last l1 = Some prev → pool_headers s !! prev = Some rp →
          pool_headers s' !! prev = Some (set_m_pNextPool (m_pNextPool rq') rp) ∧
          mem_Pools s' = mem_Pools s)) ∧
    (m_FreeChunksNumber rq' ≠ m_ChunksNumber rq' →
       pool_chain s' c = Some (l1 ++ q :: l2) ∧
       mem_FreeChunksNumber s' !! c = Some (n + 1) ∧
       calls s' = calls s ++ [Call_PoolFreeChunk (PoolAt q) p] ∧
       heap s' = heap s ∧
       mem_PoolForPoolHeaders s' = mem_PoolForPoolHeaders s ∧
       mem_Pools s' = mem_Pools s ∧
       pool_headers s' = <[q:=rq']> (pool_headers s)).
Proof.
  intros (chains & Hwf & Hbusy) Hchain Hrq Hused Hn rq'.
  pose proof (pool_chain_wf _ _ _ _ Hwf Hchain) as Hc.
  assert (Hql : q ∈ l1 ++ q :: l2) by (apply elem_of_app; right; by left).
  destruct (wf_release s chains c _ q rq n p Hwf Hc Hql Hrq Hn Hused)
    as (_ & Hsmall & _ & (_ & _ & _ & Htot & _) & Hf' & _).
  fold rq' in Htot, Hf'.
  assert (Hlen : (c < length (mem_FreeChunksNumber s))%nat) by (eapply lookup_lt_Some; eauto).
  destruct (decide (m_FreeChunksNumber rq + 1 = m_ChunksNumber rq)) as [Hfull|Hkeep].
  - destruct (mem_PoolsFree_consolidate_path s chains c l1 q l2 rq n p
                Hwf Hbusy Hc Hrq Hused Hn Hfull)
      as (rp & Hrp & Hrun & Hwf' & _ & _ & _ & Hcnt).
    eexists. split; [exact Hrun|]. split; [|intros Hne; exfalso; lia].
    intros _. fold rq'. split.
    { eapply wf_pool_chain; [exact Hwf'|].
      apply list_lookup_insert_eq. eapply lookup_lt_Some; eauto. }
    split; [by rewrite Htot|].
    split; [rewrite consolidated_calls; simpl; by rewrite <- !app_assoc|].
    split; [done|]. split; [done|]. split.
    + intros ->. rewrite consolidated_mem_Pools. simpl.
      apply list_lookup_insert_eq.
      destruct (wf_chain _ _ Hwf c _ Hc) as (head & Hhead & _).
      eapply lookup_lt_Some; eauto.
    + intros prev rp' Hlast Hprev.
      assert (Hpn : prev ≠ NULL).
      { eapply (wf_chains_not_null s chains); [done|].
        eapply wf_chains_elem; [done|done|].
        apply elem_of_app. left. by apply last_Some_elem_of. }
      rewrite consolidated_pool_headers, consolidated_mem_Pools.
      rewrite Hlast in *. simpl in *.
      apply Z.eqb_neq in Hpn as Hpn'. rewrite Hpn'.
      assert (rp = rp') as -> by (specialize (Hrp Hpn); congruence).
      split; [apply lookup_insert_eq|done].
  - destruct (mem_PoolsFree_keep_path s chains c l1 q l2 rq n p
                Hwf Hbusy Hc Hrq Hused Hn Hkeep) as (Hrun & Hwf' & _).
    eexists. split; [exact Hrun|]. split; [intros Heq; exfalso; lia|].
    intros _. split; [by eapply wf_pool_chain|].
    split; [simpl; rewrite Hsmall; by apply list_lookup_insert_eq|]. done.
Qed.

(** The first pool of a walk whose range holds the chunk is the one the
    search of [mem_PoolsFree] returns, with the pool walked through last. *)
Lemma ownership_lookup s (fuel : nat) p head l1 q rq :
  is_seg (pool_headers s) head l1 q → q ≠ NULL →
  pool_headers s !! q = Some rq →
  (∀ a r, a ∈ l1 → pool_headers s !! a = Some r →
     ¬ (m_pChunks r ≤ p ≤ m_pPoolStart r + m_PoolSize r)) →
  (length l1 ≤ fuel)%nat →
  m_pChunks rq ≤ p ≤ m_pPoolStart rq + m_PoolSize rq →
  (∀ a, a ∈ l1 → in_pool_at (pool_headers s) p a = false) ∧
  chunk_in_pool p rq = true ∧
  mem_PoolsFree_search fuel p head NULL s = Done (q, default NULL (last l1)) s.
Proof.
  intros Hseg Hq Hrq Hno Hlen Hin.
  assert (Hz : ∀ a, a ∈ l1 → in_pool_at (pool_headers s) p a = false).
  { intros a Ha. unfold in_pool_at.
    destruct (pool_headers s !! a) as [r|] eqn:Hr; [|done].
    specialize (Hno a r Ha Hr). unfold chunk_in_pool.
    apply andb_false_iff.
    destruct (Z.leb_spec (m_pChunks r) p); [right|by left]. apply Z.leb_gt. lia. }
  assert (Hin' : chunk_in_pool p rq = true).
  { unfold chunk_in_pool. apply andb_true_iff. split; apply Z.leb_le; lia. }
  split; [done|]. split; [done|].
  apply mem_PoolsFree_search_found; try done.
  unfold in_pool_at. by rewrite Hrq.
Qed.

(** C6 (ownership lookup): [mem_PoolsFree] walks the chain from its head,
    keeping the pool visited before, up to the first pool with
    [m_pChunks <= pChunk] and [pChunk <= m_pPoolStart + m_PoolSize], and it is
    to that pool that it gives the chunk back; the upper bound is inclusive:
    the address one past the end of the block of a pool is found in that
    pool. *)
Theorem C6_ownership_lookup s (c : nat) p head n l1 q rq :
  mem_Pools s !! c = Some head → mem_FreeChunksNumber s !! c = Some n →
  is_seg (pool_headers s) head l1 q → q ≠ NULL →
  pool_headers s !! q = Some rq →
  (∀ a r, a ∈ l1 → pool_headers s !! a = Some r →
     ¬ (m_pChunks r ≤ p ≤ m_pPoolStart r + m_PoolSize r)) →
  (length l1 ≤ size (pool_headers s))%nat →
  m_pChunks rq ≤ p →
  (p ≤ m_pPoolStart rq + m_PoolSize rq →
   mem_PoolsFree_search (size (pool_headers s)) p head NULL s =
     Done (q, default NULL (last l1)) s ∧
   mem_PoolsFree c p s =
     if m_FreeChunksNumber (mem_PoolFreeChunk rq p) =?
        m_ChunksNumber (mem_PoolFreeChunk rq p)
     then mem_PoolsFree_release c q (default NULL (last l1))
            (released_state s c n q rq p)
     else Done tt (released_state s c n q rq p)) ∧
  (p = m_pPoolStart rq + m_PoolSize rq →
   mem_PoolsFree_search (size (pool_headers s)) p head NULL s =
     Done (q, default NULL (last l1)) s).
Proof.
  intros Hhead Hn Hseg Hq Hrq Hno Hlen Hlo. split.
  - intros Hhi.
    destruct (ownership_lookup s _ p head l1 q rq Hseg Hq Hrq Hno Hlen (conj Hlo Hhi))
      as (Hz & Hin & Hsearch).
    split; [done|].
    by apply (mem_PoolsFree_run s c p head n l1 q rq).
  - intros Heq.
    apply (ownership_lookup s _ p head l1 q rq Hseg Hq Hrq Hno Hlen). lia.
Qed.

(** A chunk address outside the block of every pool of a non-empty chain
    makes [mem_PoolsFree] stop at its assertion with the state as it was. *)
Lemma mem_PoolsFree_outside_asserts s (c : nat) l p :
  wf s → pool_chain s c = Some l → l ≠ [] →
  (∀ a r, a ∈ l → pool_headers s !! a = Some r →
     p < m_pPoolStart r ∨ m_pPoolStart r + m_PoolSize r < p) →
  mem_PoolsFree c p s = Stop AssertionFailed s.
Proof.
  intros (chains & Hwf & _) Hchain Hne Hout.
  pose proof (pool_chain_wf _ _ _ _ Hwf Hchain) as Hc.
  destruct (wf_chain _ _ Hwf c l Hc) as (head & Hhead & Hch).
  unfold mem_PoolsFree.
  rewrite (bind_Done _ _ _ _ _ (read_mem_Pools_run s c head Hhead)).
  unfold bind at 1. unfold chain_fuel, gets.
  erewrite bind_Stop; [done|].
  apply (mem_PoolsFree_search_not_found s p l); try done.
  - intros a Ha.
    destruct (wf_member _ _ Hwf a (wf_chains_elem _ _ _ _ _ Hwf Hc Ha))
      as (r & Hr & Hv & Hpos & _).
    destruct (valid_layout r Hv Hpos) as [Hlay _].
    unfold in_pool_at. rewrite Hr. unfold chunk_in_pool. apply andb_false_iff.
    destruct (Hout a r Ha Hr); [left|right]; apply Z.leb_gt; lia.
  - eapply chain_length_le; [|exact Hch]. by eapply wf_chains_nodup.
Qed.

(** On an empty chain [mem_PoolsFree] reads through the null pointer before
    any assertion is reached. *)
Lemma mem_PoolsFree_empty_chain s (c : nat) p :
  mem_Pools s !! c = Some NULL → mem_PoolsFree c p s = Stop InvalidAccess s.
Proof.
  intros Hhead. unfold mem_PoolsFree.
  rewrite (bind_Done _ _ _ _ _ (read_mem_Pools_run s c NULL Hhead)).
  unfold bind at 1. unfold chain_fuel, gets.
  erewrite bind_Stop; [done|]. apply mem_PoolsFree_search_empty.
Qed.

(** C8 (round trip): when [mem_PoolsAlloc] returns a chunk, giving that
    chunk back at once with [mem_PoolsFree] returns, and brings the counter
    of the class, and its chain, back to what they were before the
    allocation. *)
Theorem C8_round_trip `{!PlatformOk C} s (c : nat) p s1 :
  wf s → mem_PoolsAlloc c s = Done p s1 → p ≠ NULL →
  ∃ s2, mem_PoolsFree c p s1 = Done tt s2 ∧
        mem_FreeChunksNumber s2 !! c = mem_FreeChunksNumber s !! c ∧
        pool_chain s2 c = pool_chain s c.
Proof.
  intros (chains & Hwf & Hbusy) Hrun Hp.
  assert (Hc : (c < MEM_POOL_CHUNK_TYPE__COUNT)%nat).
  { eapply mem_PoolsAlloc_in_range; [|exact Hrun]. apply Hwf. }
  destruct (wf_chains_lookup _ _ _ Hwf Hc) as [l Hl].
  destruct (wf_chain _ _ Hwf c l Hl) as (head & Hhead & _).
  pose proof (wf_count _ _ Hwf c l Hl) as Hn.
  pose proof (mem_GetChunkSize_exact c chunk_types_fit size_width_ge Hc) as Hcs.
  assert (Hlch : (c < length chains)%nat) by (eapply lookup_lt_Some; eauto).
  rewrite (wf_pool_chain _ _ _ _ Hwf Hl).
  destruct (decide (sum_free (pool_headers s) l = 0)) as [Hz|Hnz].
  - rewrite Hz in Hn.
    destruct (decide (new_header s = NULL)) as [Hh|Hh].
    { destruct (mem_PoolsAlloc_header_fail_path s chains c _ Hwf Hn Hcs Hh) as [Hrun' _].
      congruence. }
    destruct (decide (new_block s (Z.shiftl 1 (Z.of_nat c + 2)) = NULL)) as [Hb|Hb].
    { destruct (mem_PoolsAlloc_heap_fail_path s chains c _ Hwf Hn Hcs Hh Hb) as [Hrun' _].
      congruence. }
    destruct (mem_PoolsAlloc_grow_path s chains c l _ head Hwf Hbusy Hl Hc Hhead Hn Hcs Hh Hb)
      as (_ & Hrun' & _ & _ & Hwf' & Hbusy' & _ & _ & _ & Hu & Hf' & Htot & Hn' & Hr').
    rewrite Hrun in Hrun'. injection Hrun' as -> ->.
    assert (Hc' : <[c:=(new_header s :: l)]> chains !! c = Some ([] ++ new_header s :: l))
      by (by apply list_lookup_insert_eq).
    destruct (mem_PoolsFree_consolidate_path _ _ c [] (new_header s) l _ _ _
                Hwf' Hbusy' Hc' Hr' Hu Hn' ltac:(lia))
      as (rp & _ & Hrun2 & Hwf2 & _ & _ & _ & Hcnt).
    eexists. split; [exact Hrun2|]. split.
    + rewrite Hcnt, Hn. f_equal. lia.
    + eapply wf_pool_chain; [exact Hwf2|].
      simpl. apply list_lookup_insert_eq. by rewrite length_insert.
  - destruct (mem_PoolsAlloc_take_path s chains c l _ _ Hwf Hbusy Hl Hn Hcs Hnz)
      as (l1 & q & l2 & rq & -> & _ & Hrq & _ & Hrun' & Hwf' & Hbusy' & _ &
          _ & Hu & Hf' & Htot & Hlt & Hn' & Hr').
    rewrite Hrun in Hrun'. injection Hrun' as -> ->.
    destruct (mem_PoolsFree_keep_path _ chains c l1 q l2 _ _ _
                Hwf' Hbusy' Hl Hr' Hu Hn' ltac:(lia)) as (Hrun2 & Hwf2 & _ & _ & Hcnt).
    eexists. split; [exact Hrun2|]. split.
    + rewrite Hcnt, Hn. f_equal. lia.
    + by eapply wf_pool_chain.
Qed.

(** What the invariant gives for the frame of a call. *)
Lemma frame_intro s s' chains chains' (c' : nat) :
  wf_chains s chains → wf_chains s' chains' →
  chains' !! c' = chains !! c' →
  mem_Pools s' !! c' = mem_Pools s !! c' →
  mem_FreeChunksNumber s' !! c' = mem_FreeChunksNumber s !! c' →
  (∀ l a, chains !! c' = Some l → a ∈ l →
     pool_headers s' !! a = pool_headers s !! a) →
  frame c' s s'.
Proof.
  intros Hwf Hwf' Hch HP HF HS. split; [done|]. split; [done|]. split.
  - destruct (chains !! c') as [l|] eqn:Hl.
    + rewrite (wf_pool_chain _ _ _ _ Hwf Hl). by apply (wf_pool_chain _ _ _ _ Hwf').
    + unfold pool_chain. rewrite HP.
      assert (mem_Pools s !! c' = None) as ->; [|done].
      apply lookup_ge_None. apply lookup_ge_None in Hl.
      rewrite (wf_len_pools _ _ Hwf). by rewrite (wf_len_chains _ _ Hwf) in Hl.
  - intros l a Hl Ha. apply (HS l); [|done]. by eapply pool_chain_wf.
Qed.

(** C10 (frame across size classes): a call of [mem_PoolsAlloc] or of
    [mem_PoolsFree] on the size class [c] leaves, for every other size class
    [c'], the head of the chain, the counter, the chain and the headers of
    the pools of the chain as they were. *)
Theorem C10_frame `{!PlatformOk C} s (c c' : nat) :
  wf s → c ≠ c' →
  (∀ p s', mem_PoolsAlloc c s = Done p s' → frame c' s s') ∧
  (∀ p s', live_chunk s c p → mem_PoolsFree c p s = Done tt s' → frame c' s s').
Proof.
  intros (chains & Hwf & Hbusy) Hcc. split.
  - intros p s' Hrun.
    assert (Hc : (c < MEM_POOL_CHUNK_TYPE__COUNT)%nat).
    { eapply mem_PoolsAlloc_in_range; [|exact Hrun]. apply Hwf. }
    destruct (wf_chains_lookup _ _ _ Hwf Hc) as [l Hl].
    destruct (wf_chain _ _ Hwf c l Hl) as (head & Hhead & _).
    pose proof (wf_count _ _ Hwf c l Hl) as Hn.
    pose proof (mem_GetChunkSize_exact c chunk_types_fit size_width_ge Hc) as Hcs.
    destruct (decide (sum_free (pool_headers s) l = 0)) as [Hz|Hnz].
    + rewrite Hz in Hn.
      destruct (decide (new_header s = NULL)) as [Hh|Hh].
      { destruct (mem_PoolsAlloc_header_fail_path s chains c _ Hwf Hn Hcs Hh) as [Hrun' Hwf'].
        rewrite Hrun in Hrun'. injection Hrun' as -> ->.
        by apply (frame_intro _ _ chains chains). }
      destruct (decide (new_block s (Z.shiftl 1 (Z.of_nat c + 2)) = NULL)) as [Hb|Hb].
      { destruct (mem_PoolsAlloc_heap_fail_path s chains c _ Hwf Hn Hcs Hh Hb) as [Hrun' Hwf'].
        rewrite Hrun in Hrun'. injection Hrun' as -> ->.
        by apply (frame_intro _ _ chains chains). }
      destruct (mem_PoolsAlloc_grow_path s chains c l _ head Hwf Hbusy Hl Hc Hhead Hn Hcs Hh Hb)
        as (_ & Hrun' & _ & _ & Hwf' & _ & Hnotin & _).
      rewrite Hrun in Hrun'. injection Hrun' as -> ->.
      eapply (frame_intro _ _ chains); [exact Hwf|exact Hwf'| | | |].
      * by apply list_lookup_insert_ne.
      * simpl. by apply list_lookup_insert_ne.
      * simpl. rewrite list_lookup_insert_ne by done. by apply list_lookup_insert_ne.
      * intros l' a Hl' Ha. simpl.
        assert (a ≠ new_header s).
        { intros ->. apply Hnotin. apply elem_of_concat_lookup. eauto. }
        by rewrite !lookup_insert_ne.
    + destruct (mem_PoolsAlloc_take_path s chains c l _ _ Hwf Hbusy Hl Hn Hcs Hnz)
        as (l1 & q & l2 & rq & -> & _ & _ & _ & Hrun' & Hwf' & _).
      rewrite Hrun in Hrun'. injection Hrun' as -> ->.
      eapply (frame_intro _ _ chains); [exact Hwf|exact Hwf'|done|done| |].
      * simpl. by apply list_lookup_insert_ne.
      * intros l' a Hl' Ha. simpl. apply lookup_insert_ne. intros <-.
        eapply (NoDup_concat_apart chains c c'); eauto using wf_nodup.
        apply elem_of_app. right. by left.
  - intros p s' Hlive Hrun.
    destruct (live_chunk_owner _ _ _ _ Hwf Hlive) as (l1 & q & l2 & rq & Hc & Hrq & Hused).
    pose proof (wf_count _ _ Hwf c _ Hc) as Hn.
    assert (Hqapart : ∀ l' a, chains !! c' = Some l' → a ∈ l' → a ∉ l1 ++ q :: l2).
    { intros l' a Hl' Ha Hin.
      eapply (NoDup_concat_apart chains c c'); eauto using wf_nodup. }
    destruct (decide (m_FreeChunksNumber rq + 1 = m_ChunksNumber rq)) as [Hfull|Hkeep].
    + destruct (mem_PoolsFree_consolidate_path s chains c l1 q l2 rq _ p
                  Hwf Hbusy Hc Hrq Hused Hn Hfull) as (rp & _ & Hrun' & Hwf' & _).
      rewrite Hrun in Hrun'. injection Hrun' as ->.
      eapply (frame_intro _ _ chains); [exact Hwf|exact Hwf'| | | |].
      * by apply list_lookup_insert_ne.
      * rewrite consolidated_mem_Pools. simpl.
        destruct (_ =? NULL); [by apply list_lookup_insert_ne|done].
      * simpl. rewrite list_lookup_insert_ne by done. by apply list_lookup_insert_ne.
      * intros l' a Hl' Ha. rewrite consolidated_pool_headers. simpl.
        assert (a ≠ q).
        { intros ->. apply (Hqapart l' q Hl' Ha). apply elem_of_app. right. by left. }
        destruct (default NULL (last l1) =? NULL) eqn:E.
        -- by apply lookup_insert_ne.
        -- rewrite lookup_insert_ne; [by apply lookup_insert_ne|].
           intros Heq. destruct (last l1) as [x|] eqn:Hlast; simpl in *; [|done].
           subst x. apply (Hqapart l' a Hl' Ha).
           apply elem_of_app. left. by apply last_Some_elem_of.
    + destruct (mem_PoolsFree_keep_path s chains c l1 q l2 rq _ p
                  Hwf Hbusy Hc Hrq Hused Hn Hkeep) as (Hrun' & Hwf' & _).
      rewrite Hrun in Hrun'. injection Hrun' as ->.
      eapply (frame_intro _ _ chains); [exact Hwf|exact Hwf'|done|done| |].
      * simpl. by apply list_lookup_insert_ne.
      * intros l' a Hl' Ha. simpl. apply lookup_insert_ne. intros <-.
        apply (Hqapart l' q Hl' Ha). apply elem_of_app. right. by left.
Qed.

End Properties.

(** * The manager at work on the small instance *)

Module Scenario.
Import Demo.

(** The globals before [mem_PoolsInit], over a heap of [lim] bytes. *)
Definition blank (lim : Z) : @state demo :=
  Build_state (replicate 5 NULL) (replicate 5 0)
    (Build_PoolState 0 0 0 0 0 NULL (Build_tracking 0 [] []))
    NULL ∅ (Build_heap 16 lim) [].

(** A call of the manager. *)
Inductive cmd := Alloc (c : nat) | Free (c : nat) (p : Z).

(** The chunk is handed out by a pool of the chain of the class. *)
Definition live_b (s : @state demo) (c : nat) (p : Z) : bool :=
  match pool_chain s c with
  | Some l =>
      existsb (λ a, match pool_headers s !! a with
                    | Some r => bool_decide (p ∈ d_used (m_Internal r))
                    | None => false
                    end) l
  | None => false
  end.

(** Running calls one after the other; [None] when a call does not return
    or a chunk given back is not handed out. *)
Fixpoint run (cmds : list cmd) (s : @state demo) : option (@state demo) :=
  match cmds with
  | [] => Some s
  | Alloc c :: k =>
      match mem_PoolsAlloc c s with
      | Done _ s' => run k s'
      | Stop _ _ => None
      end
  | Free c p :: k =>
      if live_b s c p then
        match mem_PoolsFree c p s with
        | Done _ s' => run k s'
        | Stop _ _ => None
        end
      else None
  end.

(** The state after [mem_PoolsInit] and the calls [cmds], over a heap of
    [lim] bytes. *)
Definition after (lim : Z) (cmds : list cmd) : @state demo :=
  match run cmds (final_state (mem_PoolsInit (blank lim))) with
  | Some s => s
  | None => blank lim
  end.

Lemma live_b_sound s c p : live_b s c p = true → live_chunk s c p.
Proof.
  unfold live_b, live_chunk. destruct (pool_chain s c) as [l|]; [|done].
  intros (a & Ha & Hb)%existsb_exists.
  destruct (pool_headers s !! a) as [r|] eqn:Hr; [|done].
  apply bool_decide_eq_true in Hb.
  exists l, a, r. split; [done|]. split; [by apply list_elem_of_In|]. done.
Qed.

Lemma run_later cmds : ∀ s s', run cmds s = Some s' → later s s'.
Proof.
  induction cmds as [|[c|c p] k IH]; intros s s'; simpl.
  - intros [= <-]. constructor.
  - destruct (mem_PoolsAlloc c s) as [q s1|] eqn:Hrun; [|done].
    intros Hk. specialize (IH _ _ Hk). clear Hk.
    induction IH as [s1|s1 s2 c' p' s3 _ IH' Hr|s1 s2 c' p' s3 _ IH' Hl Hr].
    + eapply later_alloc; [constructor|exact Hrun].
    + eapply later_alloc; [by apply IH'|exact Hr].
    + eapply later_free; [by apply IH'|exact Hl|exact Hr].
  - destruct (live_b s c p) eqn:Hlive; [|done]. apply live_b_sound in Hlive.
    destruct (mem_PoolsFree c p s) as [[] s1|] eqn:Hrun; [|done].
    intros Hk. specialize (IH _ _ Hk). clear Hk.
    induction IH as [s1|s1 s2 c' p' s3 _ IH' Hr|s1 s2 c' p' s3 _ IH' Hl Hr].
    + eapply later_free; [constructor|exact Hlive|exact Hrun].
    + eapply later_alloc; [by apply IH'|exact Hr].
    + eapply later_free; [by apply IH'|exact Hl|exact Hr].
Qed.

Lemma later_reachable s s' : later s s' → reachable s → reachable s'.
Proof.
  induction 1 as [s|s s1 c p s2 _ IH Hrun|s s1 c p s2 _ IH Hlive Hrun]; intros Hr.
  - done.
  - eapply reach_alloc; [by apply IH|exact Hrun].
  - eapply reach_free; [by apply IH|exact Hlive|exact Hrun].
Qed.

(** Twelve allocations in the size class 0 fill a first pool of eleven
    chunks and open a second one; ten chunks of the first pool are then
    given back. *)
Definition twelve : list cmd := replicate 12 (Alloc 0).
Definition ten_back : list cmd :=
  (λ p, Free 0 p) <$> [164; 168; 172; 176; 180; 184; 188; 192; 196; 200].

(** The header at [a] (the header pool's own when there is none). *)
Definition pool_at (s : @state demo) (a : Z) :=
  match pool_headers s !! a with
  | Some r => r
  | None => mem_PoolForPoolHeaders s
  end.

(** Whether the calls [cmds] all return. *)
Definition runs_ok (lim : Z) (cmds : list cmd) : bool :=
  match run cmds (final_state (mem_PoolsInit (blank lim))) with
  | Some _ => true
  | None => false
  end.

Lemma after_reachable lim cmds :
  runs_ok lim cmds = true → reachable (after lim cmds).
Proof.
  unfold runs_ok, after.
  destruct (run cmds (final_state (mem_PoolsInit (blank lim)))) as [s|] eqn:Hs; [|done].
  intros _.
  eapply later_reachable; [eapply run_later; exact Hs|].
  destruct (mem_PoolsInit_total (blank lim)) as (s0 & Hrun & _); [done|done|].
  eapply (reach_init (blank lim)); [done|done|]. rewrite Hrun. done.
Qed.

Lemma after_wf lim cmds : runs_ok lim cmds = true → wf (after lim cmds).
Proof. intros H. by apply reachable_wf, after_reachable. Qed.

Ltac computes := vm_compute; reflexivity.

(** The accounting holds after a run that grows two chains, consolidates a
    pool and allocates in another class. *)
Lemma C1_witness :
  reachable (after 4096 (twelve ++ ten_back ++ [Free 0 204; Alloc 3])) ∧
  accounting (after 4096 (twelve ++ ten_back ++ [Free 0 204; Alloc 3])).
Proof.
  assert (Hr : reachable (after 4096 (twelve ++ ten_back ++ [Free 0 204; Alloc 3])))
    by (apply after_reachable; computes).
  split; [exact Hr|]. exact (C1_accounting_invariant _ Hr).
Defined.

(** The first allocation after initialisation returns the chunk at 164;
    giving it back restores the counter and the (empty) chain. *)
Lemma C8_witness :
  returned NULL (mem_PoolsAlloc 0 (after 4096 [])) = 164 ∧
  ∃ s2, mem_PoolsFree 0 164 (final_state (mem_PoolsAlloc 0 (after 4096 []))) = Done tt s2 ∧
        mem_FreeChunksNumber s2 !! 0%nat = mem_FreeChunksNumber (after 4096 []) !! 0%nat ∧
        pool_chain s2 0 = pool_chain (after 4096 []) 0.
Proof.
  assert (Hwf : wf (after 4096 [])) by (apply after_wf; computes).
  assert (Hd : is_Done (mem_PoolsAlloc 0 (after 4096 [])) = true) by computes.
  assert (Hp : returned NULL (mem_PoolsAlloc 0 (after 4096 [])) = 164) by computes.
  pose proof (Done_eta _ NULL Hd) as Hrun. rewrite Hp in Hrun.
  split; [exact Hp|].
  apply (C8_round_trip (after 4096 []) 0 164 _ Hwf Hrun). discriminate.
Defined.

(** The size class 3 has chunks of 32 bytes. *)
Lemma C9_witness :
  (3 < @MEM_POOL_CHUNK_TYPE__COUNT demo)%nat ∧
  @mem_GetChunkSize demo 3 = Some 32 ∧
  ∀ s, @run_mem_GetChunkSize demo 3 s = Done 32 s.
Proof.
  assert (H1 : Z.of_nat (@MEM_POOL_CHUNK_TYPE__COUNT demo) + 1 < 32) by (simpl; lia).
  assert (H2 : 32 ≤ @SIZE_WIDTH demo) by (simpl; lia).
  assert (H3 : (3 < @MEM_POOL_CHUNK_TYPE__COUNT demo)%nat) by (simpl; lia).
  split; [exact H3|]. exact (C9_chunk_size 3 H1 H2 H3).
Defined.

(** With room in the heap the allocation returns a chunk; with a heap too
    small for the block of a pool it returns [NULL]. *)
Lemma C4_witness :
  (∃ p s' cs, @mem_GetChunkSize demo 0 = Some cs ∧
     mem_PoolsAlloc 0 (after 4096 []) = Done p s' ∧
     (p = NULL ↔
      mem_FreeChunksNumber (after 4096 []) !! 0%nat = Some 0 ∧
      (new_header (after 4096 []) = NULL ∨ new_block (after 4096 []) cs = NULL))) ∧
  (∃ p s' cs, @mem_GetChunkSize demo 0 = Some cs ∧
     mem_PoolsAlloc 0 (after 170 []) = Done p s' ∧
     (p = NULL ↔
      mem_FreeChunksNumber (after 170 []) !! 0%nat = Some 0 ∧
      (new_header (after 170 []) = NULL ∨ new_block (after 170 []) cs = NULL))) ∧
  returned 1 (mem_PoolsAlloc 0 (after 4096 [])) = 164 ∧
  returned 1 (mem_PoolsAlloc 0 (after 170 [])) = NULL.
Proof.
  assert (Hc : (0 < @MEM_POOL_CHUNK_TYPE__COUNT demo)%nat) by (simpl; lia).
  split; [|split; [|split; computes]].
  - apply (C4_alloc_failure (after 4096 []) 0); [apply after_wf; computes|exact Hc].
  - apply (C4_alloc_failure (after 170 []) 0); [apply after_wf; computes|exact Hc].
Defined.

(** Over a heap of 170 bytes the header chunk at 20 is taken and the block
    of 48 bytes is refused: the header pool goes from 4 to 3 free chunks and
    the chunk at 20 is abandoned for good. *)
Lemma C5_witness :
  ∃ s', mem_PoolsAlloc 0 (after 170 []) = Done NULL s' ∧
    calls s' = calls (after 170 []) ++
      [Call_PoolAllocChunk HeaderPool 20;
       Call_HeapRecommendAllocationSize 36;
       Call_HeapAllocBlock 48 MEM_HEAP_ALLOC_LONG_TERM NULL] ∧
    m_FreeChunksNumber (mem_PoolForPoolHeaders (after 170 [])) = 4 ∧
    m_FreeChunksNumber (mem_PoolForPoolHeaders s') = 3 ∧
    abandoned s' 20 ∧
    ∀ s'', later s' s'' → abandoned s'' 20.
Proof.
  assert (Hwf : wf (after 170 [])) by (apply after_wf; computes).
  assert (Hn : mem_FreeChunksNumber (after 170 []) !! 0%nat = Some 0) by computes.
  assert (Hcs : @mem_GetChunkSize demo 0 = Some 4) by computes.
  assert (Hh : new_header (after 170 []) ≠ NULL) by (vm_compute; discriminate).
  assert (Hb : new_block (after 170 []) 4 = NULL) by computes.
  destruct (C5_heap_failure_abandons_header (after 170 []) 0 4 Hwf Hn Hcs Hh Hb)
    as (s' & Hrun & Hcalls & Hhp & Hfree & _ & Hab & Hlater).
  assert (E20 : new_header (after 170 []) = 20) by computes.
  assert (E36 : grow_request (C:=demo) 4 = 36) by computes.
  assert (E48 : grow_size (C:=demo) 4 = 48) by computes.
  assert (E4 : m_FreeChunksNumber (mem_PoolForPoolHeaders (after 170 [])) = 4) by computes.
  rewrite E20 in Hcalls, Hab, Hlater. rewrite E36, E48 in Hcalls. rewrite E4 in Hfree.
  exists s'. split; [exact Hrun|]. split; [exact Hcalls|]. split; [exact E4|].
  split; [exact Hfree|]. split; [exact Hab|exact Hlater].
Defined.

(** Calls on the size class 0 leave the size class 1, whose chain is the
    pool at 52, as it was. *)
Lemma C10_witness :
  frame 1 (after 4096 [Alloc 0; Alloc 1])
    (final_state (mem_PoolsAlloc 0 (after 4096 [Alloc 0; Alloc 1]))) ∧
  frame 1 (after 4096 [Alloc 0; Alloc 1])
    (final_state (mem_PoolsFree 0 164 (after 4096 [Alloc 0; Alloc 1]))) ∧
  pool_chain (after 4096 [Alloc 0; Alloc 1]) 1 = Some [52].
Proof.
  assert (Hwf : wf (after 4096 [Alloc 0; Alloc 1])) by (apply after_wf; computes).
  assert (Hne : 0%nat ≠ 1%nat) by discriminate.
  destruct (C10_frame (after 4096 [Alloc 0; Alloc 1]) 0 1 Hwf Hne) as [Ha Hf].
  split; [|split; [|computes]].
  - apply (Ha (returned NULL (mem_PoolsAlloc 0 (after 4096 [Alloc 0; Alloc 1])))).
    apply Done_eta. computes.
  - apply (Hf 164); [apply live_b_sound; computes|].
    apply Done_eta_tt. computes.
Defined.

(** C7 (foreign chunk, empty chain): right after [mem_PoolsInit] the chain
    of the size class 0 is empty, and [mem_PoolsFree] on that class reads
    the header at the null head of the chain in the condition of its loop:
    the run ends in an invalid access, not at the assertion, which sits
    inside the loop. *)
Theorem C7_empty_chain_null_dereference :
  pool_chain (after 4096 []) 0 = Some [] ∧
  mem_PoolsFree 0 164 (after 4096 []) = Stop InvalidAccess (after 4096 []).
Proof.
  split; [computes|]. apply mem_PoolsFree_empty_chain. computes.
Qed.

(** The first allocation of the class grows the chain by the pool at 20
    over the block at 160; the second one calls the pool at 20 only. *)
Lemma C2_witness :
  (∃ s1,
     mem_PoolsAlloc_grow 0 4 (after 4096 []) = Done true s1 ∧
     mem_PoolsAlloc 0 (after 4096 []) = mem_PoolsAlloc_take 0 s1 ∧
     calls s1 = calls (after 4096 []) ++
       [Call_PoolAllocChunk HeaderPool 20;
        Call_HeapRecommendAllocationSize 36;
        Call_HeapAllocBlock 48 MEM_HEAP_ALLOC_LONG_TERM 160;
        Call_PoolInit (PoolAt 20) 4 160 48] ∧
     mem_Pools s1 !! 0%nat = Some 20 ∧
     pool_chain s1 0 = Some [20] ∧
     mem_FreeChunksNumber s1 !! 0%nat = Some 11) ∧
  (∃ p s' q, mem_PoolsAlloc 0 (after 4096 [Alloc 0]) = Done p s' ∧ q ∈ [20] ∧
     calls s' = calls (after 4096 [Alloc 0]) ++ [Call_PoolAllocChunk (PoolAt q) p] ∧
     heap s' = heap (after 4096 [Alloc 0]) ∧
     mem_PoolForPoolHeaders s' = mem_PoolForPoolHeaders (after 4096 [Alloc 0])).
Proof.
  split.
  - assert (Hwf : wf (after 4096 [])) by (apply after_wf; computes).
    assert (Hch : pool_chain (after 4096 []) 0 = Some []) by computes.
    assert (Hn : mem_FreeChunksNumber (after 4096 []) !! 0%nat = Some 0) by computes.
    assert (Hh : new_header (after 4096 []) ≠ NULL) by (vm_compute; discriminate).
    assert (Hb : new_block (after 4096 []) 4 ≠ NULL) by (vm_compute; discriminate).
    destruct (C2_growth_step (after 4096 []) 0 0 [] Hwf Hch Hn) as [Hgrow _].
    destruct (Hgrow eq_refl Hh Hb)
      as (s1 & head & _ & Hg & Hrun & Hcalls & _ & _ & Hhead & Hchain & Hcnt).
    assert (E20 : new_header (after 4096 []) = 20) by computes.
    assert (E160 : new_block (after 4096 []) 4 = 160) by computes.
    assert (E48 : grow_size (C:=demo) 4 = 48) by computes.
    assert (E11 : m_ChunksNumber (mem_PoolInit (Collaborators:=demo) 4 160 48) = 11) by computes.
    change (Z.shiftl 1 (Z.of_nat 0 + 2)) with 4 in *.
    change (8 * 4 + sizeof_mword_t) with 36 in Hcalls.
    rewrite E20 in Hcalls, Hhead, Hchain. rewrite E160 in Hcalls, Hcnt.
    rewrite E48 in Hcalls, Hcnt. rewrite E11 in Hcnt.
    exists s1. split; [exact Hg|]. split; [exact Hrun|]. split; [exact Hcalls|].
    split; [exact Hhead|]. split; [exact Hchain|exact Hcnt].
  - assert (Hwf : wf (after 4096 [Alloc 0])) by (apply after_wf; computes).
    assert (Hch : pool_chain (after 4096 [Alloc 0]) 0 = Some [20]) by computes.
    assert (Hn : mem_FreeChunksNumber (after 4096 [Alloc 0]) !! 0%nat = Some 10) by computes.
    destruct (C2_growth_step (after 4096 [Alloc 0]) 0 10 [20] Hwf Hch Hn) as [_ Hkeep].
    apply Hkeep. discriminate.
Defined.

(** Giving back the last used chunk of the pool at 20, second in the chain
    after the pool at 52, takes the pool out and ends the chain at 52; giving
    back one of two used chunks keeps the pool. *)
Lemma C3_witness :
  (∃ s', mem_PoolsFree 0 204 (after 4096 (twelve ++ ten_back)) = Done tt s' ∧
     pool_chain (after 4096 (twelve ++ ten_back)) 0 = Some [52; 20] ∧
     pool_chain s' 0 = Some [52] ∧
     mem_FreeChunksNumber (after 4096 (twelve ++ ten_back)) !! 0%nat = Some 20 ∧
     mem_FreeChunksNumber s' !! 0%nat = Some 10 ∧
     calls s' = calls (after 4096 (twelve ++ ten_back)) ++
       [Call_PoolFreeChunk (PoolAt 20) 204;
        Call_HeapFreeBlock 160;
        Call_PoolFreeChunk HeaderPool 20] ∧
     m_pNextPool (pool_at s' 52) = NULL) ∧
  (∃ s', mem_PoolsFree 0 164 (after 4096 [Alloc 0; Alloc 0]) = Done tt s' ∧
     pool_chain s' 0 = Some [20] ∧
     mem_FreeChunksNumber s' !! 0%nat = Some 10 ∧
     calls s' = calls (after 4096 [Alloc 0; Alloc 0]) ++
       [Call_PoolFreeChunk (PoolAt 20) 164]).
Proof.
  split.
  - set (s := after 4096 (twelve ++ ten_back)).
    assert (Hwf : wf s) by (apply after_wf; computes).
    assert (Hch : pool_chain s 0 = Some ([52] ++ 20 :: [])) by computes.
    assert (Hrq : pool_headers s !! 20 = Some (pool_at s 20)) by computes.
    assert (Hu : chunk_used (pool_at s 20) 204).
    { apply (bool_decide_unpack (204 ∈ d_used (m_Internal (pool_at s 20)))). by vm_compute. }
    assert (Hn : mem_FreeChunksNumber s !! 0%nat = Some 20) by computes.
    destruct (C3_consolidation s 0 [52] 20 [] (pool_at s 20) 20 204 Hwf Hch Hrq Hu Hn)
      as (s' & Hrun & Hfull & _).
    assert (Hf : m_FreeChunksNumber (mem_PoolFreeChunk (pool_at s 20) 204) =
                 m_ChunksNumber (mem_PoolFreeChunk (pool_at s 20) 204)) by computes.
    destruct (Hfull Hf) as (Hch' & Hn' & Hcalls & _ & _ & _ & Hprev).
    assert (Hrp : pool_headers s !! 52 = Some (pool_at s 52)) by computes.
    destruct (Hprev 52 (pool_at s 52) eq_refl Hrp) as [Hrp' _].
    assert (E11 : m_ChunksNumber (mem_PoolFreeChunk (pool_at s 20) 204) = 11) by computes.
    assert (E160 : m_pPoolStart (mem_PoolFreeChunk (pool_at s 20) 204) = 160) by computes.
    assert (E0 : m_pNextPool (mem_PoolFreeChunk (pool_at s 20) 204) = NULL) by computes.
    rewrite E11 in Hn'. rewrite E160 in Hcalls. rewrite E0 in Hrp'.
    exists s'. split; [exact Hrun|]. split; [exact Hch|]. split; [exact Hch'|].
    split; [exact Hn|]. split; [exact Hn'|]. split; [exact Hcalls|].
    unfold pool_at at 1. by rewrite Hrp'.
  - set (s := after 4096 [Alloc 0; Alloc 0]).
    assert (Hwf : wf s) by (apply after_wf; computes).
    assert (Hch : pool_chain s 0 = Some ([] ++ 20 :: [])) by computes.
    assert (Hrq : pool_headers s !! 20 = Some (pool_at s 20)) by computes.
    assert (Hu : chunk_used (pool_at s 20) 164).
    { apply (bool_decide_unpack (164 ∈ d_used (m_Internal (pool_at s 20)))). by vm_compute. }
    assert (Hn : mem_FreeChunksNumber s !! 0%nat = Some 9) by computes.
    destruct (C3_consolidation s 0 [] 20 [] (pool_at s 20) 9 164 Hwf Hch Hrq Hu Hn)
      as (s' & Hrun & _ & Hkeep).
    assert (Hf : m_FreeChunksNumber (mem_PoolFreeChunk (pool_at s 20) 164) ≠
                 m_ChunksNumber (mem_PoolFreeChunk (pool_at s 20) 164))
      by (vm_compute; discriminate).
    destruct (Hkeep Hf) as (Hch' & Hn' & Hcalls & _).
    exists s'. split; [exact Hrun|]. split; [exact Hch'|]. split; [exact Hn'|exact Hcalls].
Defined.

(** The address 208, one past the end of the block of the pool at 20, is
    found in that pool, after the pool at 52 whose chunks start at 212. *)
Lemma C6_witness :
  m_pPoolStart (pool_at (after 4096 (twelve ++ ten_back)) 20) +
    m_PoolSize (pool_at (after 4096 (twelve ++ ten_back)) 20) = 208 ∧
  mem_PoolsFree_search (size (pool_headers (after 4096 (twelve ++ ten_back)))) 208 52 NULL
    (after 4096 (twelve ++ ten_back)) = Done (20, 52) (after 4096 (twelve ++ ten_back)).
Proof.
  set (s := after 4096 (twelve ++ ten_back)).
  assert (Hhead : mem_Pools s !! 0%nat = Some 52) by computes.
  assert (Hn : mem_FreeChunksNumber s !! 0%nat = Some 20) by computes.
  assert (Hrp : pool_headers s !! 52 = Some (pool_at s 52)) by computes.
  assert (Hrq : pool_headers s !! 20 = Some (pool_at s 20)) by computes.
  assert (Hseg : is_seg (pool_headers s) 52 [52] 20).
  { split; [done|]. split; [discriminate|]. exists (pool_at s 52). split; [exact Hrp|computes]. }
  assert (Hq : 20 ≠ NULL) by discriminate.
  assert (Hno : ∀ a r, a ∈ [52] → pool_headers s !! a = Some r →
                  ¬ (m_pChunks r ≤ 208 ≤ m_pPoolStart r + m_PoolSize r)).
  { intros a r ->%list_elem_of_singleton Hr [Hle _]. rewrite Hrp in Hr.
    apply (inj Some) in Hr. subst r.
    assert (E : (m_pChunks (pool_at s 52) <=? 208) = false) by computes.
    apply Z.leb_le in Hle. rewrite E in Hle. discriminate Hle. }
  assert (Hlen : (length [52] ≤ size (pool_headers s))%nat).
  { apply Nat.leb_le. computes. }
  assert (Hlo : m_pChunks (pool_at s 20) ≤ 208).
  { apply Z.leb_le. computes. }
  assert (Hend : m_pPoolStart (pool_at s 20) + m_PoolSize (pool_at s 20) = 208) by computes.
  split; [exact Hend|].
  destruct (C6_ownership_lookup s 0 208 52 20 [52] 20 (pool_at s 20)
              Hhead Hn Hseg Hq Hrq Hno Hlen Hlo) as [_ Hedge].
  apply Hedge. symmetry. exact Hend.
Defined.

End Scenario.

(** * More about the manager *)

Section Chunks.
Context {C : Collaborators} {K : Contracts C}.
Implicit Types (m : gmap Z pool) (l : list Z) (s : state).

(** A size class that exists has a chunk size. *)
Lemma mem_GetChunkSize_is_Some (c : nat) :
  (c < MEM_POOL_CHUNK_TYPE__COUNT)%nat → ∃ cs, mem_GetChunkSize c = Some cs.
Proof.
  intros Hc. unfold mem_GetChunkSize.
  assert ((to_uint32_t (Z.of_nat c) <? Z.of_nat MEM_POOL_CHUNK_TYPE__COUNT) = true) as ->;
    [|eauto].
  apply Z.ltb_lt. unfold to_uint32_t.
  pose proof (Z.mod_le (Z.of_nat c) (2 ^ 32) ltac:(lia) ltac:(lia)). lia.
Qed.

(** Chunks that are handed out, in terms of the chains of the invariant. *)
Lemma live_chunk_chains s chains (c : nat) x :
  wf_chains s chains →
  live_chunk s c x ↔
  ∃ l a r, chains !! c = Some l ∧ a ∈ l ∧
           pool_headers s !! a = Some r ∧ chunk_used r x.
Proof.
  intros Hwf. split; intros (l & a & r & Hl & H); exists l, a, r; (split; [|done]).
  - by eapply pool_chain_wf.
  - by eapply wf_pool_chain.
Qed.

(** A used chunk lies inside the block of its pool, behind the first byte. *)
Lemma used_in_block s chains a r x :
  wf_chains s chains → a ∈ concat chains →
  pool_headers s !! a = Some r → chunk_used r x →
  m_pPoolStart r < x < m_pPoolStart r + m_PoolSize r.
Proof.
  intros Hwf Ha Hr Hu. destruct (wf_member _ _ Hwf a Ha) as (r0 & Hr0 & Hv & Hpos & _).
  assert (r0 = r) as -> by congruence.
  destruct (used_in_range r x Hv Hu). destruct (valid_layout r Hv Hpos). lia.
Qed.

(** No two pools of the chains have a used chunk in common. *)
Lemma used_one_owner s chains a b ra rb x :
  wf_chains s chains → a ∈ concat chains → b ∈ concat chains →
  pool_headers s !! a = Some ra → pool_headers s !! b = Some rb →
  chunk_used ra x → chunk_used rb x → a = b.
Proof.
  intros Hwf Ha Hb Hra Hrb Hua Hub.
  destruct (decide (a = b)) as [|Hne]; [done|exfalso].
  pose proof (used_in_block _ _ _ _ _ Hwf Ha Hra Hua).
  pose proof (used_in_block _ _ _ _ _ Hwf Hb Hrb Hub).
  pose proof (wf_apart _ _ Hwf a b ra rb Ha Hb Hne Hra Hrb) as Hap.
  unfold blocks_apart in Hap. lia.
Qed.

(** X1 (a chunk is handed out once): the chunk that [mem_PoolsAlloc] returns
    was handed out by no pool of any size class before the call, is handed
    out by a pool of the chain of the class after it, and every chunk handed
    out before the call is still handed out after it. *)
Theorem mem_PoolsAlloc_fresh `{!PlatformOk C} s (c : nat) p s' :
  wf s → mem_PoolsAlloc c s = Done p s' → p ≠ NULL →
  (∀ c', ¬ live_chunk s c' p) ∧ live_chunk s' c p ∧
  (∀ c' x, live_chunk s c' x → live_chunk s' c' x).
Proof.
  intros (chains & Hwf & Hbusy) Hrun Hp.
  assert (Hc : (c < MEM_POOL_CHUNK_TYPE__COUNT)%nat).
  { eapply mem_PoolsAlloc_in_range; [|exact Hrun]. apply Hwf. }
  destruct (wf_chains_lookup _ _ _ Hwf Hc) as [l Hl].
  destruct (wf_chain _ _ Hwf c l Hl) as (head & Hhead & _).
  pose proof (wf_count _ _ Hwf c l Hl) as Hn.
  pose proof (mem_GetChunkSize_exact c chunk_types_fit size_width_ge Hc) as Hcs.
  destruct (decide (sum_free (pool_headers s) l = 0)) as [Hz|Hnz].
  - rewrite Hz in Hn.
    destruct (decide (new_header s = NULL)) as [Hh|Hh].
    { destruct (mem_PoolsAlloc_header_fail_path s chains c _ Hwf Hn Hcs Hh) as [Hrun' _].
      congruence. }
    destruct (decide (new_block s (Z.shiftl 1 (Z.of_nat c + 2)) = NULL)) as [Hb|Hb].
    { destruct (mem_PoolsAlloc_heap_fail_path s chains c _ Hwf Hn Hcs Hh Hb) as [Hrun' _].
      congruence. }
    destruct (mem_PoolsAlloc_grow_path s chains c l _ head Hwf Hbusy Hl Hc Hhead Hn Hcs Hh Hb)
      as (_ & Hrun' & _ & _ & Hwf' & _ & Hnotin & _ & _ & Hu & _ & _ & _ & Hr').
    rewrite Hrun in Hrun'. injection Hrun' as -> ->.
    match type of Hwf' with wf_chains ?t _ => set (s' := t) in * end.
    assert (Hother : ∀ a, a ≠ new_header s → pool_headers s' !! a = pool_headers s !! a).
    { intros a Ha. subst s'. simpl. by rewrite !lookup_insert_ne. }
    assert (Hin' : ∀ c' l' a, chains !! c' = Some l' → a ∈ l' →
              ∃ l'', <[c:=(new_header s :: l)]> chains !! c' = Some l'' ∧ a ∈ l'').
    { intros c' l' a Hl' Ha. destruct (decide (c' = c)) as [->|Hne].
      - exists (new_header s :: l). split.
        + apply list_lookup_insert_eq. eapply lookup_lt_Some; eauto.
        + right. congruence.
      - exists l'. by rewrite list_lookup_insert_ne. }
    assert (Hq' : new_header s ∈ concat (<[c:=(new_header s :: l)]> chains)).
    { apply (elem_of_concat_insert chains c l). { done. } left. by left. }
    split; [|split].
    + intros c' (l' & a & r & Hl' & Ha & Hr & Hua)%(live_chunk_chains _ chains); [|done].
      assert (Hne : a ≠ new_header s).
      { intros ->. apply Hnotin. by eapply wf_chains_elem. }
      destruct (Hin' c' l' a Hl' Ha) as (l'' & Hl'' & Ha'').
      apply Hne.
      eapply (used_one_owner s' _ a (new_header s)); [exact Hwf'| |exact Hq'| |exact Hr'| |exact Hu].
      * by eapply wf_chains_elem.
      * by rewrite Hother.
      * exact Hua.
    + apply (live_chunk_chains _ _ _ _ Hwf').
      eexists _, (new_header s), _. split; [|split; [|split; [exact Hr'|exact Hu]]].
      * apply list_lookup_insert_eq. eapply lookup_lt_Some; eauto.
      * by left.
    + intros c' x (l' & a & r & Hl' & Ha & Hr & Hua)%(live_chunk_chains _ chains); [|done].
      apply (live_chunk_chains _ _ _ _ Hwf').
      destruct (Hin' c' l' a Hl' Ha) as (l'' & Hl'' & Ha'').
      exists l'', a, r. split; [done|]. split; [done|]. split; [|done].
      rewrite Hother; [done|]. intros ->. apply Hnotin. by eapply wf_chains_elem.
  - destruct (mem_PoolsAlloc_take_path s chains c l _ _ Hwf Hbusy Hl Hn Hcs Hnz)
      as (l1 & q & l2 & rq & -> & _ & Hrq & Hfree & Hrun' & Hwf' & _ & _ & _ & Hu & _ & _ &
          _ & _ & Hr').
    rewrite Hrun in Hrun'. injection Hrun' as -> ->.
    match type of Hwf' with wf_chains ?t _ => set (s' := t) in * end.
    assert (Hql : q ∈ l1 ++ q :: l2) by (apply elem_of_app; right; by left).
    pose proof (wf_chains_elem _ _ _ _ _ Hwf Hl Hql) as Hqc.
    destruct (wf_member _ _ Hwf q Hqc) as (r0 & Hr0 & Hv & _).
    assert (r0 = rq) as -> by congruence.
    destruct (alloc_some rq (mem_PoolAllocChunk rq).1 (mem_PoolAllocChunk rq).2 Hv Hfree)
      as (_ & _ & Hnu & _ & _ & _ & Hu').
    { by destruct (mem_PoolAllocChunk rq). }
    assert (Hother : ∀ a, a ≠ q → pool_headers s' !! a = pool_headers s !! a).
    { intros a Ha. subst s'. simpl. by rewrite lookup_insert_ne. }
    split; [|split].
    + intros c' (l' & a & r & Hl' & Ha & Hr & Hua)%(live_chunk_chains _ chains); [|done].
      destruct (decide (a = q)) as [->|Hne]; [congruence|].
      apply Hne.
      eapply (used_one_owner s' chains a q); [exact Hwf'| |exact Hqc| |exact Hr'| |exact Hu].
      * by eapply wf_chains_elem.
      * by rewrite Hother.
      * exact Hua.
    + apply (live_chunk_chains _ _ _ _ Hwf'). by exists (l1 ++ q :: l2), q, (mem_PoolAllocChunk rq).2.
    + intros c' x (l' & a & r & Hl' & Ha & Hr & Hua)%(live_chunk_chains _ chains); [|done].
      apply (live_chunk_chains _ _ _ _ Hwf').
      destruct (decide (a = q)) as [->|Hne].
      * exists l', q, (mem_PoolAllocChunk rq).2. split; [done|]. split; [done|].
        split; [done|]. apply Hu'. right. congruence.
      * exists l', a, r. split; [done|]. split; [done|]. split; [|done]. by rewrite Hother.
Qed.


(** What the consolidation leaves of the headers of the other pools. *)
Lemma consolidated_other s (c : nat) q rq' prev rp n a :
  a ≠ q → (prev ≠ NULL → pool_headers s !! prev = Some rp) →
  ∃ f, pool_headers (consolidated_state s c q rq' prev rp n) !! a =
         f <$> (pool_headers s !! a) ∧
       ∀ r x, chunk_used (f r) x ↔ chunk_used r x.
Proof.
  intros Hne Hrp. rewrite consolidated_pool_headers.
  destruct (prev =? NULL) eqn:E.
  - exists id. split; [by rewrite option_fmap_id|done].
  - apply Z.eqb_neq in E. destruct (decide (a = prev)) as [->|Hap].
    + exists (set_m_pNextPool (m_pNextPool rq')). rewrite lookup_insert_eq, (Hrp E).
      split; [done|]. intros r x. apply used_set_next.
    + exists id. rewrite lookup_insert_ne by done.
      split; [by rewrite option_fmap_id|done].
Qed.

(** X2 (a free releases the chunk, and only the chunk): after
    [mem_PoolsFree] has given back a chunk that was handed out, the chunks
    that are handed out are those that were, less that chunk. *)
Theorem mem_PoolsFree_exact s (c : nat) p s' :
  wf s → live_chunk s c p → mem_PoolsFree c p s = Done tt s' →
  ∀ c' x, live_chunk s' c' x ↔ live_chunk s c' x ∧ x ≠ p.
Proof.
  intros (chains & Hwf & Hbusy) Hlive Hrun.
  destruct (live_chunk_owner _ _ _ _ Hwf Hlive) as (l1 & q & l2 & rq & Hc & Hrq & Hused).
  pose proof (wf_count _ _ Hwf c _ Hc) as Hn.
  assert (Hql : q ∈ l1 ++ q :: l2) by (apply elem_of_app; right; by left).
  pose proof (wf_chains_elem _ _ _ _ _ Hwf Hc Hql) as Hqc.
  destruct (wf_release s chains c _ q rq _ p Hwf Hc Hql Hrq Hn Hused)
    as (_ & _ & Hv' & _ & _ & Hu').
  assert (Hown : ∀ c' l a r, chains !! c' = Some l → a ∈ l →
            pool_headers s !! a = Some r → chunk_used r p → a = q).
  { intros c' l a r Hl Ha Hr Hu.
    eapply (used_one_owner s chains a q); eauto using wf_chains_elem. }
  destruct (decide (m_FreeChunksNumber rq + 1 = m_ChunksNumber rq)) as [Hfull|Hkeep].
  - destruct (mem_PoolsFree_consolidate_path s chains c l1 q l2 rq _ p
                Hwf Hbusy Hc Hrq Hused Hn Hfull)
      as (rp & Hrp & Hrun' & Hwf' & _ & _ & Htot & _).
    rewrite Hrun in Hrun'. injection Hrun' as ->.
    match type of Hwf' with wf_chains ?t _ => set (s' := t) in * end.
    assert (Hfull' : ¬ ∃ x, chunk_used (mem_PoolFreeChunk rq p) x).
    { intros [x Hx]. pose proof (used_not_free _ x Hv' Hx) as Hlt.
      destruct (free_spec rq p) as (_ & Hf & _); [|done|lia].
      destruct (wf_member _ _ Hwf q Hqc) as (r0 & Hr0 & Hv & _). congruence. }
    pose proof (wf_chains_nodup _ _ _ _ Hwf Hc) as Hnd.
    assert (Hmem : ∀ c' a, a ≠ q →
              (∃ l, chains !! c' = Some l ∧ a ∈ l) ↔
              (∃ l, <[c:=l1 ++ l2]> chains !! c' = Some l ∧ a ∈ l)).
    { intros c' a Hne. destruct (decide (c' = c)) as [->|Hcc].
      - assert (Hlt : (c < length chains)%nat) by (eapply lookup_lt_Some; eauto).
        split.
        + intros (l & Hl & Ha). rewrite Hc in Hl. injection Hl as <-.
          exists (l1 ++ l2). split; [by apply list_lookup_insert_eq|].
          apply elem_of_app in Ha as [Ha|Ha]; apply elem_of_app; [by left|].
          apply elem_of_cons in Ha as [->|Ha]; [done|by right].
        + intros (l & Hl & Ha). rewrite list_lookup_insert_eq in Hl by done.
          injection Hl as <-. exists (l1 ++ q :: l2). split; [done|].
          apply elem_of_app in Ha as [Ha|Ha]; apply elem_of_app; [by left|right; by right].
      - by rewrite list_lookup_insert_ne. }
    assert (Hnq : ∀ c' l a, <[c:=l1 ++ l2]> chains !! c' = Some l → a ∈ l → a ≠ q).
    { intros c' l a Hl Ha ->. destruct (decide (c' = c)) as [->|Hcc].
      - rewrite list_lookup_insert_eq in Hl by (eapply lookup_lt_Some; eauto).
        injection Hl as <-.
        apply NoDup_app in Hnd as (_ & Hdis & [Hq2 _]%NoDup_cons).
        apply elem_of_app in Ha as [Ha|Ha]; [|done]. apply (Hdis q Ha). by left.
      - rewrite list_lookup_insert_ne in Hl by done.
        eapply (NoDup_concat_apart chains c' c); eauto using wf_nodup. }
    assert (Hhd : ∀ a, a ≠ q →
              ∃ f, pool_headers s' !! a = f <$> (pool_headers s !! a) ∧
                   ∀ r x, chunk_used (f r) x ↔ chunk_used r x).
    { intros a Hne.
      destruct (consolidated_other (released_state s c
                  (sum_free (pool_headers s) (l1 ++ q :: l2)) q rq p) c q
                  (mem_PoolFreeChunk rq p) (default NULL (last l1)) rp
                  (sum_free (pool_headers s) (l1 ++ q :: l2) + 1) a Hne) as (f & Hf & Hfu).
      - intros E. simpl. rewrite lookup_insert_ne; [by apply Hrp|].
        intros Heq. destruct (last l1) as [y|] eqn:Hlast; simpl in *; [|done]. subst y.
        apply NoDup_app in Hnd as (_ & Hdis & _).
        apply (Hdis q); [by apply last_Some_elem_of|by left].
      - exists f. split; [|done]. subst s'. rewrite Hf. simpl.
        by rewrite lookup_insert_ne. }
    intros c' x. rewrite (live_chunk_chains _ _ _ _ Hwf'), (live_chunk_chains _ _ _ _ Hwf).
    split.
    + intros (l & a & r' & Hl & Ha & Hr' & Hu).
      pose proof (Hnq c' l a Hl Ha) as Hne.
      destruct (Hhd a Hne) as (f & Hf & Hfu). rewrite Hf in Hr'.
      destruct (pool_headers s !! a) as [r|] eqn:Hr; [|done]. injection Hr' as <-.
      apply (proj1 (Hfu _ _)) in Hu.
      destruct (proj2 (Hmem c' a Hne)) as (l0 & Hl0 & Ha0); [eauto|].
      split; [by exists l0, a, r|]. intros ->. apply Hne. exact (Hown c' l0 a r Hl0 Ha0 Hr Hu).
    + intros [(l & a & r & Hl & Ha & Hr & Hu) Hxp].
      assert (Hne : a ≠ q).
      { intros ->. apply Hfull'. exists x. apply Hu'. split; [done|]. congruence. }
      destruct (Hhd a Hne) as (f & Hf & Hfu).
      destruct (proj1 (Hmem c' a Hne)) as (l0 & Hl0 & Ha0); [eauto|].
      exists l0, a, (f r). split; [done|]. split; [done|].
      split; [by rewrite Hf, Hr|by apply Hfu].
  - destruct (mem_PoolsFree_keep_path s chains c l1 q l2 rq _ p
                Hwf Hbusy Hc Hrq Hused Hn Hkeep) as (Hrun' & Hwf' & _).
    rewrite Hrun in Hrun'. injection Hrun' as ->.
    match type of Hwf' with wf_chains ?t _ => set (s' := t) in * end.
    assert (Hq' : pool_headers s' !! q = Some (mem_PoolFreeChunk rq p))
      by (subst s'; simpl; apply lookup_insert_eq).
    assert (Hother : ∀ a, a ≠ q → pool_headers s' !! a = pool_headers s !! a).
    { intros a Ha. subst s'. simpl. by rewrite lookup_insert_ne. }
    intros c' x. rewrite (live_chunk_chains _ _ _ _ Hwf'), (live_chunk_chains _ _ _ _ Hwf).
    split.
    + intros (l & a & r' & Hl & Ha & Hr' & Hu).
      destruct (decide (a = q)) as [->|Hne].
      * assert (r' = mem_PoolFreeChunk rq p) as -> by congruence.
        apply Hu' in Hu as [Hxp Hu]. split; [|done]. by exists l, q, rq.
      * rewrite Hother in Hr' by done. split; [by exists l, a, r'|].
        intros ->. apply Hne. exact (Hown c' l a r' Hl Ha Hr' Hu).
    + intros [(l & a & r & Hl & Ha & Hr & Hu) Hxp].
      destruct (decide (a = q)) as [->|Hne].
      * exists l, q, (mem_PoolFreeChunk rq p). split; [done|]. split; [done|].
        split; [done|]. apply Hu'. split; [done|]. congruence.
      * exists l, a, r. split; [done|]. split; [done|]. split; [|done]. by rewrite Hother.
Qed.


(** X3 (a chunk given back under a wrong size class): when a chunk handed
    out by a pool of the size class [c'] is given back under another size
    class [c] whose chain is not empty, [mem_PoolsFree] finds it in no pool
    of [c] and stops at its assertion, with nothing changed. *)
Theorem mem_PoolsFree_wrong_class s (c c' : nat) p l :
  wf s → c ≠ c' → live_chunk s c' p → pool_chain s c = Some l → l ≠ [] →
  mem_PoolsFree c p s = Stop AssertionFailed s.
Proof.
  intros Hwfs Hcc Hlive Hchain Hne. pose proof Hwfs as (chains & Hwf & _).
  apply (mem_PoolsFree_outside_asserts s c l p Hwfs Hchain Hne).
  intros a r Ha Hr.
  apply (live_chunk_chains _ _ _ _ Hwf) in Hlive as (l' & b & rb & Hl' & Hb & Hrb & Hu).
  pose proof (pool_chain_wf _ _ _ _ Hwf Hchain) as Hl.
  assert (Hab : a ≠ b).
  { intros ->. eapply (NoDup_concat_apart chains c c'); eauto using wf_nodup. }
  pose proof (wf_chains_elem _ _ _ _ _ Hwf Hl Ha) as Hac.
  pose proof (wf_chains_elem _ _ _ _ _ Hwf Hl' Hb) as Hbc.
  pose proof (used_in_block _ _ _ _ _ Hwf Hbc Hrb Hu).
  pose proof (wf_apart _ _ Hwf a b r rb Hac Hbc Hab Hr Hrb) as Hap.
  unfold blocks_apart in Hap. lia.
Qed.

(** X4 (a chunk address no pool of the chain holds): when the chain of the
    size class is not empty and the range test of the search fails for every
    pool of it, [mem_PoolsFree] walks to the end of the chain and stops at the
    assertion on the next pool; no chunk is released and no counter
    changed. *)
Theorem mem_PoolsFree_foreign_asserts s (c : nat) l p :
  wf s → pool_chain s c = Some l → l ≠ [] →
  (∀ a r, a ∈ l → pool_headers s !! a = Some r →
     ¬ (m_pChunks r ≤ p ≤ m_pPoolStart r + m_PoolSize r)) →
  mem_PoolsFree c p s = Stop AssertionFailed s.
Proof.
  intros (chains & Hwf & _) Hchain Hne Hout.
  pose proof (pool_chain_wf _ _ _ _ Hwf Hchain) as Hc.
  destruct (wf_chain _ _ Hwf c l Hc) as (head & Hhead & Hch).
  unfold mem_PoolsFree.
  rewrite (bind_Done _ _ _ _ _ (read_mem_Pools_run s c head Hhead)).
  unfold bind at 1. unfold chain_fuel, gets.
  erewrite bind_Stop; [done|].
  apply (mem_PoolsFree_search_not_found s p l); try done.
  - intros a Ha. unfold in_pool_at.
    destruct (pool_headers s !! a) as [r|] eqn:Hr; [|done].
    specialize (Hout a r Ha Hr). unfold chunk_in_pool. apply andb_false_iff.
    destruct (Z.leb_spec (m_pChunks r) p); [right|by left]. apply Z.leb_gt. lia.
  - eapply chain_length_le; [|exact Hch]. by eapply wf_chains_nodup.
Qed.

(** X5 (no pool of a chain is wholly free): in every state the manager goes
    through, each pool of each chain has chunks, at least one of them handed
    out, its block is a block the heap has handed out, and its header sits in
    a used chunk of the header pool. *)
Theorem reachable_pools_in_use `{!PlatformOk C} s (c : nat) l a :
  reachable s → pool_chain s c = Some l → a ∈ l →
  ∃ r, pool_headers s !! a = Some r ∧
       0 ≤ m_FreeChunksNumber r < m_ChunksNumber r ∧
       block_live (heap s) (m_pPoolStart r) (m_PoolSize r) ∧
       chunk_used (mem_PoolForPoolHeaders s) a.
Proof.
  intros (chains & Hwf & Hbusy)%reachable_wf Hchain Ha.
  pose proof (pool_chain_wf _ _ _ _ Hwf Hchain) as Hl.
  pose proof (wf_chains_elem _ _ _ _ _ Hwf Hl Ha) as Hac.
  destruct (wf_member _ _ Hwf a Hac) as (r & Hr & Hv & Hpos & Hlive & Hu).
  exists r. split; [done|]. split; [|done].
  destruct (valid_counts r Hv) as [[H0 _] _]. split; [done|]. by apply (Hbusy a Hac).
Qed.

(** X6 (the chains are lists that share nothing): in every state the manager
    goes through, the chain of each size class ends at [NULL] without
    visiting a pool twice, the chains of two size classes have no pool in
    common, and the blocks of two pools of the chains do not overlap. *)
Theorem reachable_chains_apart `{!PlatformOk C} s (c : nat) :
  reachable s → (c < MEM_POOL_CHUNK_TYPE__COUNT)%nat →
  ∃ l, pool_chain s c = Some l ∧ NoDup l ∧ (NULL ∉ l) ∧
    (∀ c' l' a, c ≠ c' → pool_chain s c' = Some l' → a ∈ l → a ∉ l') ∧
    (∀ c' l' a b ra rb, pool_chain s c' = Some l' → a ∈ l → b ∈ l' → a ≠ b →
       pool_headers s !! a = Some ra → pool_headers s !! b = Some rb →
       m_pPoolStart ra + m_PoolSize ra ≤ m_pPoolStart rb ∨
       m_pPoolStart rb + m_PoolSize rb ≤ m_pPoolStart ra).
Proof.
  intros (chains & Hwf & _)%reachable_wf Hc.
  destruct (wf_chains_lookup _ _ _ Hwf Hc) as [l Hl].
  exists l. split; [by eapply wf_pool_chain|].
  split; [by eapply wf_chains_nodup|]. split; [|split].
  - intros Hin.
    by apply (wf_chains_not_null s chains NULL Hwf (wf_chains_elem _ _ _ _ _ Hwf Hl Hin)).
  - intros c' l' a Hcc Hchain' Ha.
    pose proof (pool_chain_wf _ _ _ _ Hwf Hchain') as Hl'.
    eapply (NoDup_concat_apart chains c c'); eauto using wf_nodup.
  - intros c' l' a b ra rb Hchain' Ha Hb Hab Hra Hrb.
    pose proof (pool_chain_wf _ _ _ _ Hwf Hchain') as Hl'.
    apply (wf_apart _ _ Hwf a b ra rb); eauto using wf_chains_elem.
Qed.

(** X7 (no header chunk left): when the counter of the class is zero and the
    header pool has no free chunk, [mem_PoolsAlloc] returns [NULL] after the
    one request to the header pool; the heap is not called and, the record
    of that request apart, the state is as it was. *)
Theorem mem_PoolsAlloc_no_header s (c : nat) :
  wf s → mem_FreeChunksNumber s !! c = Some 0 →
  m_FreeChunksNumber (mem_PoolForPoolHeaders s) = 0 →
  mem_PoolsAlloc c s = Done NULL (log (Call_PoolAllocChunk HeaderPool NULL) s).
Proof.
  intros (chains & Hwf & _) Hn Hz.
  assert (Hc : (c < MEM_POOL_CHUNK_TYPE__COUNT)%nat).
  { rewrite <- (wf_len_free _ _ Hwf). eapply lookup_lt_Some; eauto. }
  destruct (mem_GetChunkSize_is_Some c Hc) as [cs Hcs].
  pose proof (alloc_none _ (wf_header _ _ Hwf) Hz) as Hnone.
  assert (Hh : new_header s = NULL) by (unfold new_header; by rewrite Hnone).
  destruct (mem_PoolsAlloc_header_fail_path s chains c cs Hwf Hn Hcs Hh) as [-> _].
  unfold carve_state. rewrite Hnone. simpl. by destruct s.
Qed.

(** X8 (first fit along the chain): when the counter of the class is not
    zero, [mem_PoolsAlloc] takes the chunk from the first pool of the chain,
    counted from its head, that has a free chunk; the pools in front of it
    have none, only the header of that pool is written, and the counter goes
    down by one. *)
Theorem mem_PoolsAlloc_first_fit s (c : nat) n l :
  wf s → pool_chain s c = Some l → mem_FreeChunksNumber s !! c = Some n → n ≠ 0 →
  ∃ l1 q l2 rq s',
    l = l1 ++ q :: l2 ∧
    (∀ a r, a ∈ l1 → pool_headers s !! a = Some r → m_FreeChunksNumber r = 0) ∧
    pool_headers s !! q = Some rq ∧ m_FreeChunksNumber rq ≠ 0 ∧
    mem_PoolsAlloc c s = Done (mem_PoolAllocChunk rq).1 s' ∧
    pool_headers s' = <[q:=(mem_PoolAllocChunk rq).2]> (pool_headers s) ∧
    mem_FreeChunksNumber s' !! c = Some (n - 1) ∧
    mem_Pools s' = mem_Pools s.
Proof.
  intros (chains & Hwf & Hbusy) Hchain Hn Hn0.
  pose proof (pool_chain_wf _ _ _ _ Hwf Hchain) as Hl.
  assert (Hc : (c < MEM_POOL_CHUNK_TYPE__COUNT)%nat).
  { rewrite <- (wf_len_chains _ _ Hwf). eapply lookup_lt_Some; eauto. }
  destruct (mem_GetChunkSize_is_Some c Hc) as [cs Hcs].
  destruct (mem_PoolsAlloc_take_path s chains c l n cs Hwf Hbusy Hl Hn Hcs Hn0)
    as (l1 & q & l2 & rq & -> & Hfull & Hrq & Hfree & Hrun & _ & _ & _ & _ & _ & _ & _ &
        _ & Hn' & _).
  eexists l1, q, l2, rq, _. split; [done|]. split.
  { intros a r Ha Hr. specialize (Hfull a Ha). unfold free_at in Hfull. by rewrite Hr in Hfull. }
  split; [done|]. split; [done|]. split; [exact Hrun|]. split; [done|]. split; [exact Hn'|done].
Qed.


Lemma consolidated_header_pool s (c : nat) q rq' prev rp n :
  mem_PoolForPoolHeaders (consolidated_state s c q rq' prev rp n) =
  mem_PoolFreeChunk (mem_PoolForPoolHeaders s) q.
Proof. unfold consolidated_state, unlinked_state. by destruct (prev =? NULL). Qed.

(** X9 (a round trip leaves no header chunk behind): when [mem_PoolsAlloc]
    returns a chunk and the chunk is given back at once, the header pool has
    as many free chunks as before the allocation and the same chunks in use,
    also when the allocation opened a pool and the free closed it again. *)
Theorem round_trip_header_pool `{!PlatformOk C} s (c : nat) p s1 :
  wf s → mem_PoolsAlloc c s = Done p s1 → p ≠ NULL →
  ∃ s2, mem_PoolsFree c p s1 = Done tt s2 ∧
    m_FreeChunksNumber (mem_PoolForPoolHeaders s2) =
      m_FreeChunksNumber (mem_PoolForPoolHeaders s) ∧
    ∀ x, chunk_used (mem_PoolForPoolHeaders s2) x ↔
         chunk_used (mem_PoolForPoolHeaders s) x.
Proof.
  intros (chains & Hwf & Hbusy) Hrun Hp.
  assert (Hc : (c < MEM_POOL_CHUNK_TYPE__COUNT)%nat).
  { eapply mem_PoolsAlloc_in_range; [|exact Hrun]. apply Hwf. }
  destruct (wf_chains_lookup _ _ _ Hwf Hc) as [l Hl].
  destruct (wf_chain _ _ Hwf c l Hl) as (head & Hhead & _).
  pose proof (wf_count _ _ Hwf c l Hl) as Hn.
  pose proof (mem_GetChunkSize_exact c chunk_types_fit size_width_ge Hc) as Hcs.
  assert (Hlch : (c < length chains)%nat) by (eapply lookup_lt_Some; eauto).
  destruct (decide (sum_free (pool_headers s) l = 0)) as [Hz|Hnz].
  - rewrite Hz in Hn.
    destruct (decide (new_header s = NULL)) as [Hh|Hh].
    { destruct (mem_PoolsAlloc_header_fail_path s chains c _ Hwf Hn Hcs Hh) as [Hrun' _].
      congruence. }
    destruct (decide (new_block s (Z.shiftl 1 (Z.of_nat c + 2)) = NULL)) as [Hb|Hb].
    { destruct (mem_PoolsAlloc_heap_fail_path s chains c _ Hwf Hn Hcs Hh Hb) as [Hrun' _].
      congruence. }
    destruct (header_carve s (wf_header _ _ Hwf) Hh) as (Hv1 & Hfresh & Hf1 & Hu1).
    destruct (mem_PoolsAlloc_grow_path s chains c l _ head Hwf Hbusy Hl Hc Hhead Hn Hcs Hh Hb)
      as (_ & Hrun' & _ & _ & Hwf' & Hbusy' & _ & _ & _ & Hu & Hf' & Htot & Hn' & Hr').
    rewrite Hrun in Hrun'. injection Hrun' as -> ->.
    assert (Hc' : <[c:=(new_header s :: l)]> chains !! c = Some ([] ++ new_header s :: l))
      by (by apply list_lookup_insert_eq).
    destruct (mem_PoolsFree_consolidate_path _ _ c [] (new_header s) l _ _ _
                Hwf' Hbusy' Hc' Hr' Hu Hn' ltac:(lia))
      as (rp & _ & Hrun2 & _).
    eexists. split; [exact Hrun2|].
    rewrite consolidated_header_pool.
    change (mem_PoolForPoolHeaders (released_state _ _ _ _ _ _))
      with (mem_PoolAllocChunk (mem_PoolForPoolHeaders s)).2.
    destruct (free_spec _ (new_header s) Hv1) as (_ & Hf2 & _ & Hu2).
    { apply Hu1. by left. }
    split; [lia|]. intros x. rewrite Hu2, Hu1. split.
    + intros [Hne [?|?]]; done.
    + intros Hx. split; [|by right]. by intros ->.
  - destruct (mem_PoolsAlloc_take_path s chains c l _ _ Hwf Hbusy Hl Hn Hcs Hnz)
      as (l1 & q & l2 & rq & -> & _ & Hrq & _ & Hrun' & Hwf' & Hbusy' & _ &
          _ & Hu & Hf' & Htot & Hlt & Hn' & Hr').
    rewrite Hrun in Hrun'. injection Hrun' as -> ->.
    destruct (mem_PoolsFree_keep_path _ chains c l1 q l2 _ _ _
                Hwf' Hbusy' Hl Hr' Hu Hn' ltac:(lia)) as (Hrun2 & _).
    eexists. split; [exact Hrun2|]. done.
Qed.

(** X10 (initialisation): on globals that have an entry per size class,
    [mem_PoolsInit] returns; it sets every head to [NULL] and every counter to
    zero, so that every chain is empty, asks the heap for the size it
    recommends for four pool headers and a word, for a long-term block, and
    initialises the header pool over what the heap returns, unchecked, with
    the chunk size of the size class of a pool header.  The headers in memory
    are left alone. *)
Theorem mem_PoolsInit_spec `{!PlatformOk C} s :
  length (mem_Pools s) = MEM_POOL_CHUNK_TYPE__COUNT →
  length (mem_FreeChunksNumber s) = MEM_POOL_CHUNK_TYPE__COUNT →
  let request := 4 * sizeof_mem_PoolState_t + sizeof_mword_t in
  let poolSpaceSize := mem_HeapRecommendAllocationSize request in
  let block := mem_HeapAllocBlock poolSpaceSize MEM_HEAP_ALLOC_LONG_TERM (heap s) in
  let chunkSize :=
    Z.shiftl 1 (Z.of_nat (mem_SizeToPoolChunkType sizeof_mem_PoolState_t) + 2) in
  ∃ s', mem_PoolsInit s = Done tt s' ∧
    (∀ c, (c < MEM_POOL_CHUNK_TYPE__COUNT)%nat →
       mem_Pools s' !! c = Some NULL ∧ mem_FreeChunksNumber s' !! c = Some 0 ∧
       pool_chain s' c = Some []) ∧
    calls s' = calls s ++
      [Call_HeapRecommendAllocationSize request;
       Call_HeapAllocBlock poolSpaceSize MEM_HEAP_ALLOC_LONG_TERM block.1;
       Call_PoolInit HeaderPool chunkSize block.1 poolSpaceSize] ∧
    mem_SpaceForPoolForPoolHeaders s' = block.1 ∧
    mem_PoolForPoolHeaders s' = mem_PoolInit chunkSize block.1 poolSpaceSize ∧
    heap s' = block.2 ∧ pool_headers s' = pool_headers s.
Proof.
  intros H1 H2 request poolSpaceSize block chunkSize.
  destruct (mem_PoolsInit_loop_run MEM_POOL_CHUNK_TYPE__COUNT 0 s)
    as (s1 & Hrun & L1 & L2 & Hin & _ & E1 & E2 & E3 & E4); [lia|lia|].
  pose proof (mem_GetChunkSize_exact _ chunk_types_fit size_width_ge header_chunk_type)
    as Hcs. fold chunkSize in Hcs.
  pose proof header_request_fits as Hreq. fold request in Hreq.
  pose proof size_modulus_pos as HM.
  assert (SIZE_MODULUS / 2 ≤ SIZE_MODULUS) by (apply Z.div_le_upper_bound; lia).
  unfold mem_PoolsInit. rewrite (bind_Done _ _ _ _ _ Hrun).
  rewrite (bind_Done _ _ _ _ _ (call_HeapRecommendAllocationSize_run _ _)).
  rewrite (bind_Done _ _ _ _ _ (call_HeapAllocBlock_run _ _ _)).
  unfold bind at 1. unfold modify at 1.
  rewrite (bind_Done _ _ _ _ _ (run_mem_GetChunkSize_Done _ _ chunkSize Hcs)).
  unfold bind at 1. unfold gets at 1.
  eexists. split; [reflexivity|].
  fold request. rewrite (to_size_t_small request) by lia. fold poolSpaceSize.
  simpl. rewrite E3, E4, E2. fold block.
  split; [|by rewrite <- !app_assoc].
  intros c Hc. destruct (Hin c ltac:(lia)) as [HP HF].
  split; [done|]. split; [done|]. unfold pool_chain. simpl. rewrite HP.
  by destruct (size _).
Qed.

(** X11 (a size class that does not exist): with a chunk type at or above
    the number of size classes, [mem_PoolsAlloc] stops at the assertion of
    [mem_GetChunkSize] before it reads or writes anything, whereas
    [mem_PoolsFree], which does not call [mem_GetChunkSize], indexes
    [mem_Pools] out of its bounds. *)
Theorem chunk_type_out_of_range (c : nat) :
  (MEM_POOL_CHUNK_TYPE__COUNT ≤ c)%nat → Z.of_nat c < 2 ^ 32 →
  (∀ s, mem_PoolsAlloc c s = Stop AssertionFailed s) ∧
  (∀ s p, length (mem_Pools s) = MEM_POOL_CHUNK_TYPE__COUNT →
     mem_PoolsFree c p s = Stop InvalidAccess s).
Proof.
  intros Hc H32. split.
  - intros s. unfold mem_PoolsAlloc, run_mem_GetChunkSize, mem_GetChunkSize.
    assert ((to_uint32_t (Z.of_nat c) <? Z.of_nat MEM_POOL_CHUNK_TYPE__COUNT) = false) as ->;
      [|done].
    apply Z.ltb_ge. unfold to_uint32_t.
    rewrite Z.mod_small by (split; [lia|exact H32]). lia.
  - intros s p Hlen. unfold mem_PoolsFree, read_mem_Pools, bind.
    assert (mem_Pools s !! c = None) as ->; [|done].
    apply lookup_ge_None. lia.
Qed.

(** X12 (the chunk sizes double): the chunks of the smallest size class have
    four bytes, and those of each size class are twice as large as those of
    the size class below. *)
Theorem mem_GetChunkSize_doubles (c : nat) :
  Z.of_nat MEM_POOL_CHUNK_TYPE__COUNT + 1 < 32 → 32 ≤ SIZE_WIDTH →
  (S c < MEM_POOL_CHUNK_TYPE__COUNT)%nat →
  mem_GetChunkSize 0 = Some 4 ∧
  ∃ cs, mem_GetChunkSize c = Some cs ∧ mem_GetChunkSize (S c) = Some (2 * cs) ∧
        4 ≤ cs.
Proof.
  intros HK HW Hc.
  rewrite !(mem_GetChunkSize_exact _ HK HW) by lia.
  split; [done|]. eexists. split; [done|].
  rewrite !Z.shiftl_1_l. split.
  - f_equal. replace (Z.of_nat (S c) + 2) with (Z.succ (Z.of_nat c + 2)) by lia.
    rewrite Z.pow_succ_r by lia. done.
  - replace (Z.of_nat c + 2) with (2 + Z.of_nat c) by lia.
    rewrite Z.pow_add_r by lia.
    pose proof (Z.pow_pos_nonneg 2 (Z.of_nat c) ltac:(lia) ltac:(lia)).
    change (2 ^ 2) with 4. lia.
Qed.

End Chunks.

(** * More of the manager at work on the small instance *)

Module Tour.
Import Demo Scenario.

(** The first pool of the class 0 is full but for the chunk at 164, and the
    second, at the head of the chain, is full. *)
Definition second_full : list cmd :=
  twelve ++ [Free 0 164] ++ replicate 10 (Alloc 0).

(** A pool in each of the first four size classes: the header pool is
    used up. *)
Definition four_pools : list cmd := [Alloc 0; Alloc 1; Alloc 2; Alloc 3].

(** The second allocation of the class 0 returns the chunk at 168, which was
    not handed out, and keeps the chunk at 164 handed out. *)
Lemma mem_PoolsAlloc_fresh_witness :
  returned NULL (mem_PoolsAlloc 0 (after 4096 [Alloc 0])) = 168 ∧
  (∀ c', ¬ live_chunk (after 4096 [Alloc 0]) c' 168) ∧
  live_chunk (final_state (mem_PoolsAlloc 0 (after 4096 [Alloc 0]))) 0 168 ∧
  (∀ c' x, live_chunk (after 4096 [Alloc 0]) c' x →
     live_chunk (final_state (mem_PoolsAlloc 0 (after 4096 [Alloc 0]))) c' x).
Proof.
  assert (Hwf : wf (after 4096 [Alloc 0])) by (apply after_wf; computes).
  assert (Hd : is_Done (mem_PoolsAlloc 0 (after 4096 [Alloc 0])) = true) by computes.
  assert (Hp : returned NULL (mem_PoolsAlloc 0 (after 4096 [Alloc 0])) = 168) by computes.
  pose proof (Done_eta _ NULL Hd) as Hrun. rewrite Hp in Hrun.
  split; [exact Hp|].
  apply (mem_PoolsAlloc_fresh (after 4096 [Alloc 0]) 0 168 _ Hwf Hrun). discriminate.
Defined.

(** Of the chunks at 164 and 168, giving back the one at 164 leaves the one
    at 168 handed out. *)
Lemma mem_PoolsFree_exact_witness :
  live_chunk (after 4096 [Alloc 0; Alloc 0]) 0 164 ∧
  ∀ c' x,
    live_chunk (final_state (mem_PoolsFree 0 164 (after 4096 [Alloc 0; Alloc 0]))) c' x ↔
    live_chunk (after 4096 [Alloc 0; Alloc 0]) c' x ∧ x ≠ 164.
Proof.
  assert (Hwf : wf (after 4096 [Alloc 0; Alloc 0])) by (apply after_wf; computes).
  assert (Hl : live_chunk (after 4096 [Alloc 0; Alloc 0]) 0 164)
    by (apply live_b_sound; computes).
  assert (Hd : is_Done (mem_PoolsFree 0 164 (after 4096 [Alloc 0; Alloc 0])) = true)
    by computes.
  split; [exact Hl|].
  exact (mem_PoolsFree_exact _ 0 164 _ Hwf Hl (Done_eta_tt _ Hd)).
Defined.

(** The chunk at 212 belongs to the size class 1; given back under the size
    class 0 it is found in no pool. *)
Lemma mem_PoolsFree_wrong_class_witness :
  live_chunk (after 4096 [Alloc 0; Alloc 1]) 1 212 ∧
  mem_PoolsFree 0 212 (after 4096 [Alloc 0; Alloc 1]) =
  Stop AssertionFailed (after 4096 [Alloc 0; Alloc 1]).
Proof.
  assert (Hwf : wf (after 4096 [Alloc 0; Alloc 1])) by (apply after_wf; computes).
  assert (Hl : live_chunk (after 4096 [Alloc 0; Alloc 1]) 1 212)
    by (apply live_b_sound; computes).
  assert (Hch : pool_chain (after 4096 [Alloc 0; Alloc 1]) 0 = Some [20]) by computes.
  split; [exact Hl|].
  apply (mem_PoolsFree_wrong_class _ 0 1 212 [20] Hwf); [discriminate|exact Hl|exact Hch|].
  discriminate.
Defined.

(** The address 1000 lies behind the block of the only pool of the class. *)
Lemma mem_PoolsFree_foreign_asserts_witness :
  pool_chain (after 4096 [Alloc 0]) 0 = Some [20] ∧
  mem_PoolsFree 0 1000 (after 4096 [Alloc 0]) = Stop AssertionFailed (after 4096 [Alloc 0]).
Proof.
  set (s := after 4096 [Alloc 0]).
  assert (Hwf : wf s) by (apply after_wf; computes).
  assert (Hch : pool_chain s 0 = Some [20]) by computes.
  assert (Hrq : pool_headers s !! 20 = Some (pool_at s 20)) by computes.
  split; [exact Hch|].
  apply (mem_PoolsFree_foreign_asserts s 0 [20] 1000 Hwf Hch); [discriminate|].
  intros a r ->%list_elem_of_singleton Hr [_ Hle]. rewrite Hrq in Hr.
  apply (inj Some) in Hr. subst r.
  assert (E : (1000 <=? m_pPoolStart (pool_at s 20) + m_PoolSize (pool_at s 20)) = false)
    by computes.
  apply Z.leb_le in Hle. rewrite E in Hle. discriminate Hle.
Defined.

(** The pool at 20 keeps one chunk in use after ten of its eleven chunks
    have been given back. *)
Lemma reachable_pools_in_use_witness :
  ∃ r, pool_headers (after 4096 (twelve ++ ten_back)) !! 20 = Some r ∧
       0 ≤ m_FreeChunksNumber r < m_ChunksNumber r ∧
       block_live (heap (after 4096 (twelve ++ ten_back))) (m_pPoolStart r) (m_PoolSize r) ∧
       chunk_used (mem_PoolForPoolHeaders (after 4096 (twelve ++ ten_back))) 20.
Proof.
  assert (Hr : reachable (after 4096 (twelve ++ ten_back)))
    by (apply after_reachable; computes).
  assert (Hch : pool_chain (after 4096 (twelve ++ ten_back)) 0 = Some [52; 20]) by computes.
  apply (reachable_pools_in_use _ 0 [52; 20] 20 Hr Hch). right. by left.
Defined.

(** Two pools in the chain of the class 0 and one in that of the class 1. *)
Lemma reachable_chains_apart_witness :
  pool_chain (after 4096 (twelve ++ [Alloc 1])) 0 = Some [52; 20] ∧
  ∃ l, pool_chain (after 4096 (twelve ++ [Alloc 1])) 0 = Some l ∧ NoDup l ∧ (NULL ∉ l) ∧
    (∀ c' l' a, 0%nat ≠ c' → pool_chain (after 4096 (twelve ++ [Alloc 1])) c' = Some l' →
       a ∈ l → a ∉ l') ∧
    (∀ c' l' a b ra rb, pool_chain (after 4096 (twelve ++ [Alloc 1])) c' = Some l' →
       a ∈ l → b ∈ l' → a ≠ b →
       pool_headers (after 4096 (twelve ++ [Alloc 1])) !! a = Some ra →
       pool_headers (after 4096 (twelve ++ [Alloc 1])) !! b = Some rb →
       m_pPoolStart ra + m_PoolSize ra ≤ m_pPoolStart rb ∨
       m_pPoolStart rb + m_PoolSize rb ≤ m_pPoolStart ra).
Proof.
  assert (Hr : reachable (after 4096 (twelve ++ [Alloc 1])))
    by (apply after_reachable; computes).
  split; [computes|].
  apply (reachable_chains_apart _ 0 Hr). simpl. lia.
Defined.

(** With the four chunks of the header pool in use, an allocation in the
    fifth size class returns [NULL] and changes nothing. *)
Lemma mem_PoolsAlloc_no_header_witness :
  m_FreeChunksNumber (mem_PoolForPoolHeaders (after 4096 four_pools)) = 0 ∧
  mem_PoolsAlloc 4 (after 4096 four_pools) =
  Done NULL (log (Call_PoolAllocChunk HeaderPool NULL) (after 4096 four_pools)).
Proof.
  assert (Hwf : wf (after 4096 four_pools)) by (apply after_wf; computes).
  assert (Hn : mem_FreeChunksNumber (after 4096 four_pools) !! 4%nat = Some 0) by computes.
  assert (Hz : m_FreeChunksNumber (mem_PoolForPoolHeaders (after 4096 four_pools)) = 0)
    by computes.
  split; [exact Hz|]. exact (mem_PoolsAlloc_no_header _ 4 Hwf Hn Hz).
Defined.

(** The pool at the head of the chain is full: the chunk comes from the
    pool behind it. *)
Lemma mem_PoolsAlloc_first_fit_witness :
  pool_chain (after 4096 second_full) 0 = Some [52; 20] ∧
  m_FreeChunksNumber (pool_at (after 4096 second_full) 52) = 0 ∧
  returned NULL (mem_PoolsAlloc 0 (after 4096 second_full)) = 164 ∧
  ∃ l1 q l2 rq s',
    [52; 20] = l1 ++ q :: l2 ∧
    (∀ a r, a ∈ l1 → pool_headers (after 4096 second_full) !! a = Some r →
       m_FreeChunksNumber r = 0) ∧
    pool_headers (after 4096 second_full) !! q = Some rq ∧ m_FreeChunksNumber rq ≠ 0 ∧
    mem_PoolsAlloc 0 (after 4096 second_full) = Done (mem_PoolAllocChunk rq).1 s' ∧
    pool_headers s' = <[q:=(mem_PoolAllocChunk rq).2]> (pool_headers (after 4096 second_full)) ∧
    mem_FreeChunksNumber s' !! 0%nat = Some (1 - 1) ∧
    mem_Pools s' = mem_Pools (after 4096 second_full).
Proof.
  assert (Hwf : wf (after 4096 second_full)) by (apply after_wf; computes).
  assert (Hch : pool_chain (after 4096 second_full) 0 = Some [52; 20]) by computes.
  assert (Hn : mem_FreeChunksNumber (after 4096 second_full) !! 0%nat = Some 1) by computes.
  split; [exact Hch|]. split; [computes|]. split; [computes|].
  apply (mem_PoolsAlloc_first_fit _ 0 1 [52; 20] Hwf Hch Hn). discriminate.
Defined.

(** The first allocation takes a header chunk, the free gives it back. *)
Lemma round_trip_header_pool_witness :
  returned NULL (mem_PoolsAlloc 0 (after 4096 [])) = 164 ∧
  m_FreeChunksNumber (mem_PoolForPoolHeaders (after 4096 [])) = 4 ∧
  m_FreeChunksNumber
    (mem_PoolForPoolHeaders (final_state (mem_PoolsAlloc 0 (after 4096 [])))) = 3 ∧
  ∃ s2, mem_PoolsFree 0 164 (final_state (mem_PoolsAlloc 0 (after 4096 []))) = Done tt s2 ∧
    m_FreeChunksNumber (mem_PoolForPoolHeaders s2) =
      m_FreeChunksNumber (mem_PoolForPoolHeaders (after 4096 [])) ∧
    ∀ x, chunk_used (mem_PoolForPoolHeaders s2) x ↔
         chunk_used (mem_PoolForPoolHeaders (after 4096 [])) x.
Proof.
  assert (Hwf : wf (after 4096 [])) by (apply after_wf; computes).
  assert (Hd : is_Done (mem_PoolsAlloc 0 (after 4096 [])) = true) by computes.
  assert (Hp : returned NULL (mem_PoolsAlloc 0 (after 4096 [])) = 164) by computes.
  pose proof (Done_eta _ NULL Hd) as Hrun. rewrite Hp in Hrun.
  split; [exact Hp|]. split; [computes|]. split; [computes|].
  apply (round_trip_header_pool (after 4096 []) 0 164 _ Hwf Hrun). discriminate.
Defined.

(** The initialisation over a heap of 4096 bytes: a block of 144 bytes at
    16 for the header pool, with chunks of 32 bytes. *)
Lemma mem_PoolsInit_spec_witness :
  ∃ s', mem_PoolsInit (blank 4096) = Done tt s' ∧
    (∀ c, (c < 5)%nat →
       mem_Pools s' !! c = Some NULL ∧ mem_FreeChunksNumber s' !! c = Some 0 ∧
       pool_chain s' c = Some []) ∧
    calls s' =
      [Call_HeapRecommendAllocationSize 132;
       Call_HeapAllocBlock 144 MEM_HEAP_ALLOC_LONG_TERM 16;
       Call_PoolInit HeaderPool 32 16 144] ∧
    mem_SpaceForPoolForPoolHeaders s' = 16 ∧
    mem_PoolForPoolHeaders s' = mem_PoolInit (Collaborators:=demo) 32 16 144 ∧
    heap s' = Build_heap 160 4096 ∧ pool_headers s' = ∅.
Proof.
  assert (H1 : length (mem_Pools (blank 4096)) = @MEM_POOL_CHUNK_TYPE__COUNT demo)
    by reflexivity.
  assert (H2 : length (mem_FreeChunksNumber (blank 4096)) = @MEM_POOL_CHUNK_TYPE__COUNT demo)
    by reflexivity.
  exact (mem_PoolsInit_spec (blank 4096) H1 H2).
Defined.

(** There are five size classes: 5 is none. *)
Lemma chunk_type_out_of_range_witness :
  (∀ s, mem_PoolsAlloc (C:=demo) 5 s = Stop AssertionFailed s) ∧
  (∀ s p, length (mem_Pools s) = 5%nat →
     mem_PoolsFree (C:=demo) 5 p s = Stop InvalidAccess s).
Proof.
  assert (H1 : (@MEM_POOL_CHUNK_TYPE__COUNT demo ≤ 5)%nat) by (simpl; lia).
  assert (H2 : Z.of_nat 5 < 2 ^ 32) by reflexivity.
  exact (chunk_type_out_of_range 5 H1 H2).
Defined.

(** 16 bytes in the size class 2, 32 in the size class 3. *)
Lemma mem_GetChunkSize_doubles_witness :
  @mem_GetChunkSize demo 2 = Some 16 ∧ @mem_GetChunkSize demo 3 = Some 32 ∧
  @mem_GetChunkSize demo 0 = Some 4 ∧
  ∃ cs, @mem_GetChunkSize demo 2 = Some cs ∧ @mem_GetChunkSize demo 3 = Some (2 * cs) ∧
        4 ≤ cs.
Proof.
  assert (H1 : Z.of_nat (@MEM_POOL_CHUNK_TYPE__COUNT demo) + 1 < 32) by (simpl; lia).
  assert (H2 : 32 ≤ @SIZE_WIDTH demo) by (simpl; lia).
  assert (H3 : (3 < @MEM_POOL_CHUNK_TYPE__COUNT demo)%nat) by (simpl; lia).
  split; [computes|]. split; [computes|].
  exact (mem_GetChunkSize_doubles 2 H1 H2 H3).
Defined.

End Tour.

From stdpp Require Import strings.
From Stdlib Require Import Ascii.

Open Scope Z_scope.

(** * The standalone front end (main-linux)

    [main] parses the command line, reads the scripts named on it into one
    buffer and hands the buffer to the engine.  The C library's streams and
    the engine are not part of the front end: what [fopen], [fseek], [ftell]
    and [fread] answer for a file name, and the operations and constants of
    [jerry.h], are the operations of the class [Host]. *)

Module MainLinux.

(** Maximum command line arguments number *)
Definition JERRY_MAX_COMMAND_LINE_ARGS : Z := 64.
(** Maximum size of source code buffer *)
Definition JERRY_SOURCE_BUFFER_SIZE : Z := 1048576.
(** Standalone Jerry exit codes *)
Definition JERRY_STANDALONE_EXIT_CODE_OK : Z := 0.
Definition JERRY_STANDALONE_EXIT_CODE_FAIL : Z := 1.

(** What the C library answers for a file opened for reading: the status of
    [fseek (file, 0, SEEK_END)], the result of [ftell], and the bytes [fread]
    finds from the start of the file. *)
Record file : Type := Build_file {
  fseek_status : Z;
  ftell_result : Z;
  file_content : list Byte.byte
}.

Class Host := {
  (** [fopen (name, "r")]: [None] is [NULL] *)
  fopen_r : string → option file;
  (** whether [fopen (name, "w")] gives a stream *)
  fopen_w : string → bool;
  (** jerry.h *)
  engine_t : Type;
  JERRY_FLAG_EMPTY : Z;
  JERRY_FLAG_MEM_STATS : Z;
  JERRY_FLAG_MEM_STATS_PER_OPCODE : Z;
  JERRY_FLAG_MEM_STATS_SEPARATE : Z;
  JERRY_FLAG_PARSE_ONLY : Z;
  JERRY_FLAG_SHOW_OPCODES : Z;
  JERRY_FLAG_ENABLE_LOG : Z;
  JERRY_COMPLETION_CODE_OK : Z;
  JERRY_COMPLETION_CODE_UNHANDLED_EXCEPTION : Z;
  jerry_init : Z → engine_t → engine_t;
  plugin_io_init : engine_t → engine_t;
  jerry_parse : list Byte.byte → engine_t → bool * engine_t;
  jerry_run : engine_t → Z * engine_t;
  jerry_cleanup : engine_t → engine_t;
  (** whether the front end is compiled with [JERRY_ENABLE_LOG] *)
  JERRY_ENABLE_LOG : bool
}.

(** What the front end prints and which engine operations it calls, in the
    order it does. *)
Inductive event :=
| Stderr_too_many_arguments (argc : Z)
| Stderr_failed_to_read_script (n : Z)
| Stderr_wrong_format_or_invalid_argument
| Stderr_wrong_format_of_the_arguments
| Stderr_failed_to_open_log_file (name : string)
| Stdout_build_info
| Ev_jerry_get_memory_limits
| Ev_jerry_init (flags : Z)
| Ev_plugin_io_init
| Ev_jerry_parse (source : list Byte.byte) (ok : bool)
| Ev_jerry_run (code : Z)
| Ev_jerry_cleanup.

(** [jerry_log_file] *)
Inductive log_stream := Log_null | Log_stdout | Log_file (name : string).

Section Model.
Context {H : Host}.

(** The engine, the streams that are open (the one opened last first), the
    two globals of the log, and the events so far. *)
Record world : Type := Build_world {
  engine : engine_t;
  open_streams : list string;
  jerry_debug_level : Z;
  jerry_log_file : log_stream;
  trace : list event
}.

Definition set_engine (e : engine_t) (w : world) : world :=
  Build_world e (open_streams w) (jerry_debug_level w) (jerry_log_file w) (trace w).
Definition set_open_streams (l : list string) (w : world) : world :=
  Build_world (engine w) l (jerry_debug_level w) (jerry_log_file w) (trace w).
Definition set_jerry_debug_level (n : Z) (w : world) : world :=
  Build_world (engine w) (open_streams w) n (jerry_log_file w) (trace w).
Definition set_jerry_log_file (f : log_stream) (w : world) : world :=
  Build_world (engine w) (open_streams w) (jerry_debug_level w) f (trace w).
Definition emit (e : event) (w : world) : world :=
  Build_world (engine w) (open_streams w) (jerry_debug_level w) (jerry_log_file w)
    (trace w ++ [e]).

(** [fclose] of the stream of [name] opened last. *)
Fixpoint close_stream (name : string) (l : list string) : list string :=
  match l with
  | [] => []
  | x :: l' => if String.eqb x name then l' else x :: close_stream name l'
  end.
Definition fclose (name : string) (w : world) : world :=
  set_open_streams (close_stream name (open_streams w)) w.

(** ** read_sources *)

(** The body of the loop for one script: [None] is a [break].  [tail] holds
    the bytes of the buffer in front of [source_buffer_tail]. *)
Definition read_source (script_file_name : string) (tail : list Byte.byte) (w : world)
  : option (list Byte.byte) * world :=
  match fopen_r script_file_name with
  | None => (None, w)
  | Some file =>
      let w := set_open_streams (script_file_name :: open_streams w) w in
      if negb (fseek_status file =? 0) then (None, w)
      else
        let script_len := ftell_result file in
        if script_len <? 0 then (None, w)
        else
          let current_source_size := script_len in
          if Z.of_nat (length tail) + current_source_size >=? JERRY_SOURCE_BUFFER_SIZE
          then (None, w)
          else
            let data := take (Z.to_nat current_source_size) (file_content file) in
            let bytes_read := Z.of_nat (length data) in
            if bytes_read <? current_source_size then (None, w)
            else (Some (tail ++ data), fclose script_file_name w)
  end.

(** The loop: it returns the value of [i] at its end, the buffer in front of
    the tail, and the world. *)
Fixpoint read_sources_loop (names : list string) (i : Z) (tail : list Byte.byte)
    (w : world) : Z * list Byte.byte * world :=
  match names with
  | [] => (i, tail, w)
  | script_file_name :: rest =>
      match read_source script_file_name tail w with
      | (None, w') => (i, tail, w')
      | (Some tail', w') => read_sources_loop rest (i + 1) tail' w'
      end
  end.

(** [script_file_names] carries [files_count] as its length; the result is
    the source, whose length is [*out_source_size_p], or [None] for [NULL]. *)
Definition read_sources (script_file_names : list string) (w : world)
  : option (list Byte.byte) * world :=
  let files_count := Z.of_nat (length script_file_names) in
  let '(i, tail, w') := read_sources_loop script_file_names 0 [] w in
  if i <? files_count
  then (None, emit (Stderr_failed_to_read_script (i + 1)) w')
  else (Some tail, w').

(** ** main *)

Definition char_code (c : ascii) : Z := Z.of_N (N_of_ascii c).

(** [argv[i][0]]; the terminating zero for the empty string. *)
Definition first_char (s : string) : Z :=
  match s with
  | String.EmptyString => 0
  | String.String c _ => char_code c
  end.

(** [strlen (argv[i]) == 1 && argv[i][0] >= '0' && argv[i][0] <= '3'] *)
Definition is_log_level (s : string) : bool :=
  (Z.of_nat (String.length s) =? 1) &&
  (char_code "0"%char <=? first_char s) && (first_char s <=? char_code "3"%char).

(** How the loop over the arguments ends: at the end of the arguments, or
    at a [return] with the exit code for failure. *)
Inductive arguments :=
| Arguments_ok (flags : Z) (file_names : list string) (log_file_name : option string)
    (w : world)
| Arguments_fail (w : world).

(** The loop over [argv[i]], [i < argc]; [args] are the arguments from
    [argv[i]] on. *)
Fixpoint parse_arguments (args : list string) (flags : Z) (file_names : list string)
    (log_file_name : option string) (w : world) : arguments :=
  match args with
  | [] => Arguments_ok flags file_names log_file_name w
  | a :: rest =>
      if String.eqb "-v"%string a then
        parse_arguments rest flags file_names log_file_name (emit Stdout_build_info w)
      else if String.eqb "--mem-stats"%string a then
        parse_arguments rest (Z.lor flags JERRY_FLAG_MEM_STATS) file_names log_file_name w
      else if String.eqb "--mem-stats-per-opcode"%string a then
        parse_arguments rest (Z.lor flags JERRY_FLAG_MEM_STATS_PER_OPCODE)
          file_names log_file_name w
      else if String.eqb "--mem-stats-separate"%string a then
        parse_arguments rest (Z.lor flags JERRY_FLAG_MEM_STATS_SEPARATE)
          file_names log_file_name w
      else if String.eqb "--parse-only"%string a then
        parse_arguments rest (Z.lor flags JERRY_FLAG_PARSE_ONLY) file_names log_file_name w
      else if String.eqb "--show-opcodes"%string a then
        parse_arguments rest (Z.lor flags JERRY_FLAG_SHOW_OPCODES) file_names log_file_name w
      else if String.eqb "--log-level"%string a then
        let flags := Z.lor flags JERRY_FLAG_ENABLE_LOG in
        match rest with
        | b :: rest' =>
            if is_log_level b then
              parse_arguments rest' flags file_names log_file_name
                (if JERRY_ENABLE_LOG
                 then set_jerry_debug_level (first_char b - char_code "0"%char) w
                 else w)
            else Arguments_fail (emit Stderr_wrong_format_or_invalid_argument w)
        | [] => Arguments_fail (emit Stderr_wrong_format_or_invalid_argument w)
        end
      else if String.eqb "--log-file"%string a then
        let flags := Z.lor flags JERRY_FLAG_ENABLE_LOG in
        match rest with
        | b :: rest' =>
            parse_arguments rest' flags file_names
              (if JERRY_ENABLE_LOG then Some b else log_file_name) w
        | [] => Arguments_fail (emit Stderr_wrong_format_of_the_arguments w)
        end
      else parse_arguments rest flags (file_names ++ [a]) log_file_name w
  end.

(** Opening the log, under [JERRY_ENABLE_LOG]: [false] is the [return]
    with the exit code for failure. *)
Definition open_log (log_file_name : option string) (w : world) : bool * world :=
  if JERRY_ENABLE_LOG then
    match log_file_name with
    | Some name =>
        if fopen_w name
        then (true, set_jerry_log_file (Log_file name)
                      (set_open_streams (name :: open_streams w) w))
        else (false, emit (Stderr_failed_to_open_log_file name)
                       (set_jerry_log_file Log_null w))
    | None => (true, set_jerry_log_file Log_stdout w)
    end
  else (true, w).

(** Closing the log, under [JERRY_ENABLE_LOG]. *)
Definition close_log (w : world) : world :=
  if JERRY_ENABLE_LOG then
    match jerry_log_file w with
    | Log_file name => set_jerry_log_file Log_null (fclose name w)
    | _ => w
    end
  else w.

(** From [jerry_init] to the exit code. *)
Definition run_engine (flags : Z) (source : list Byte.byte) (w : world) : Z * world :=
  let w := emit (Ev_jerry_init flags) (set_engine (jerry_init flags (engine w)) w) in
  let w := emit Ev_plugin_io_init (set_engine (plugin_io_init (engine w)) w) in
  let parsed := jerry_parse source (engine w) in
  let w := emit (Ev_jerry_parse source parsed.1) (set_engine parsed.2 w) in
  let '(ret_code, w) :=
    if negb parsed.1 then (JERRY_COMPLETION_CODE_UNHANDLED_EXCEPTION, w)
    else if Z.land flags JERRY_FLAG_PARSE_ONLY =? 0 then
      let ran := jerry_run (engine w) in
      (ran.1, emit (Ev_jerry_run ran.1) (set_engine ran.2 w))
    else (JERRY_COMPLETION_CODE_OK, w) in
  let w := emit Ev_jerry_cleanup (set_engine (jerry_cleanup (engine w)) w) in
  let w := close_log w in
  if ret_code =? JERRY_COMPLETION_CODE_OK
  then (JERRY_STANDALONE_EXIT_CODE_OK, w)
  else (JERRY_STANDALONE_EXIT_CODE_FAIL, w).

(** [argv] carries [argc] as its length. *)
Definition main (argv : list string) (w : world) : Z * world :=
  let argc := Z.of_nat (length argv) in
  if argc >=? JERRY_MAX_COMMAND_LINE_ARGS then
    (JERRY_STANDALONE_EXIT_CODE_FAIL, emit (Stderr_too_many_arguments argc) w)
  else
    let w := emit Ev_jerry_get_memory_limits w in
    match parse_arguments (drop 1 argv) JERRY_FLAG_EMPTY [] None w with
    | Arguments_fail w => (JERRY_STANDALONE_EXIT_CODE_FAIL, w)
    | Arguments_ok flags file_names log_file_name w =>
        let files_counter := Z.of_nat (length file_names) in
        if files_counter =? 0 then (JERRY_STANDALONE_EXIT_CODE_OK, w)
        else
          match read_sources file_names w with
          | (None, w) => (JERRY_STANDALONE_EXIT_CODE_FAIL, w)
          | (Some source, w) =>
              match open_log log_file_name w with
              | (false, w) => (JERRY_STANDALONE_EXIT_CODE_FAIL, w)
              | (true, w) => run_engine flags source w
              end
          end
    end.

End Model.

(** ** Reading the scripts *)

Section Reading.
Context {H : Host}.
Implicit Types (w : world) (tail data source : list Byte.byte) (name : string).

(** [readable name data]: the file [name] opens, the seek to its end
    succeeds, the position there is not negative, and [fread] delivers that
    many bytes, [data]. *)
Definition readable name data : Prop :=
  ∃ f, fopen_r name = Some f ∧ fseek_status f = 0 ∧
       0 ≤ ftell_result f ≤ Z.of_nat (length (file_content f)) ∧
       data = take (Z.to_nat (ftell_result f)) (file_content f).

Lemma close_stream_head name l : close_stream name (name :: l) = l.
Proof. simpl. by rewrite String.eqb_refl. Qed.

Lemma fclose_opened name w :
  fclose name (set_open_streams (name :: open_streams w) w) = w.
Proof. unfold fclose. simpl. rewrite String.eqb_refl. by destruct w. Qed.

(** One turn of the loop that does not break. *)
Lemma read_source_Some name tail w tail' w' :
  read_source name tail w = (Some tail', w') ↔
  w' = w ∧ ∃ data, readable name data ∧ tail' = tail ++ data ∧
    Z.of_nat (length tail) + Z.of_nat (length data) < JERRY_SOURCE_BUFFER_SIZE.
Proof.
  unfold read_source, readable. split.
  - destruct (fopen_r name) as [f|]; [|done].
    destruct (Z.eqb_spec (fseek_status f) 0) as [Hseek|]; [|done]. simpl.
    destruct (Z.ltb_spec (ftell_result f) 0) as [|Hlen]; [done|].
    destruct (Z.geb_spec (Z.of_nat (length tail) + ftell_result f) JERRY_SOURCE_BUFFER_SIZE)
      as [|Hfit]; [done|].
    destruct (Z.ltb_spec (Z.of_nat (length (take (Z.to_nat (ftell_result f)) (file_content f))))
                (ftell_result f)) as [|Hread]; [done|].
    intros [= <- <-]. rewrite fclose_opened. split; [done|].
    rewrite length_take in Hread.
    exists (take (Z.to_nat (ftell_result f)) (file_content f)). split.
    + exists f. repeat split; try done; lia.
    + split; [done|]. rewrite length_take. lia.
  - intros (-> & data & (f & -> & Hseek & [H0 Hlen] & ->) & -> & Hfit).
    rewrite length_take in Hfit.
    rewrite Hseek. simpl.
    destruct (Z.ltb_spec (ftell_result f) 0) as [|_]; [lia|].
    destruct (Z.geb_spec (Z.of_nat (length tail) + ftell_result f) JERRY_SOURCE_BUFFER_SIZE)
      as [|_]; [lia|].
    destruct (Z.ltb_spec (Z.of_nat (length (take (Z.to_nat (ftell_result f)) (file_content f))))
                (ftell_result f)) as [Hshort|_].
    { rewrite length_take in Hshort. lia. }
    by rewrite fclose_opened.
Qed.

(** One turn of the loop that breaks: the stream stays open when the file
    had been opened. *)
Lemma read_source_None name tail w w' :
  read_source name tail w = (None, w') ↔
  (¬ ∃ data, readable name data ∧
     Z.of_nat (length tail) + Z.of_nat (length data) < JERRY_SOURCE_BUFFER_SIZE) ∧
  w' = match fopen_r name with
       | Some _ => set_open_streams (name :: open_streams w) w
       | None => w
       end.
Proof.
  destruct (read_source name tail w) as [[tail'|] w''] eqn:Hrun.
  - split; [done|]. intros [Hno _]. exfalso. apply Hno.
    apply read_source_Some in Hrun as (_ & data & ? & _ & ?). eauto.
  - split; [|by intros [_ ->]; f_equal; revert Hrun; unfold read_source;
               destruct (fopen_r name); repeat case_match; congruence].
    intros [= <-]. split.
    + intros (data & Hr & Hfit).
      assert (read_source name tail w = (Some (tail ++ data), w)) as Hs
        by (apply read_source_Some; eauto).
      congruence.
    + revert Hrun. unfold read_source.
      destruct (fopen_r name); repeat case_match; congruence.
Qed.

Lemma read_sources_loop_Some names : ∀ i tail w,
  ∀ datas, Forall2 readable names datas →
  Z.of_nat (length tail) + Z.of_nat (length (concat datas)) < JERRY_SOURCE_BUFFER_SIZE →
  read_sources_loop names i tail w =
  (i + Z.of_nat (length names), tail ++ concat datas, w).
Proof.
  induction names as [|name names IH]; intros i tail w datas Hall Hfit.
  - apply Forall2_nil_inv_l in Hall as ->. simpl. rewrite app_nil_r. do 2 f_equal. lia.
  - apply Forall2_cons_inv_l in Hall as (data & datas' & Hr & Hall & ->).
    simpl in *. rewrite length_app in Hfit.
    assert (Hs : read_source name tail w = (Some (tail ++ data), w)).
    { apply read_source_Some. split; [done|]. exists data. split; [done|]. split; [done|]. lia. }
    rewrite Hs. rewrite (IH _ _ _ datas' Hall).
    + rewrite <- app_assoc. do 2 f_equal. lia.
    + rewrite length_app. lia.
Qed.

(** The loop, whatever the files: it stops at the first script that cannot
    be read into what is left of the buffer. *)
Lemma read_sources_loop_inv names : ∀ i tail w i' tail' w',
  read_sources_loop names i tail w = (i', tail', w') →
  ∃ pre datas, Forall2 readable pre datas ∧ tail' = tail ++ concat datas ∧
    i' = i + Z.of_nat (length pre) ∧
    Z.of_nat (length tail) ≤ Z.of_nat (length tail') ∧
    (Z.of_nat (length tail) < JERRY_SOURCE_BUFFER_SIZE →
     Z.of_nat (length tail') < JERRY_SOURCE_BUFFER_SIZE) ∧
    ((names = pre ∧ w' = w) ∨
     ∃ name post, names = pre ++ name :: post ∧
       read_source name tail' w = (None, w')).
Proof.
  induction names as [|name names IH]; intros i tail w i' tail' w' Hrun; simpl in Hrun.
  - injection Hrun as <- <- <-. exists [], []. simpl. rewrite app_nil_r.
    repeat split; try done; try lia. by left.
  - destruct (read_source name tail w) as [[tail1|] w1] eqn:Hs.
    + apply read_source_Some in Hs as (-> & data & Hr & -> & Hfit).
      apply IH in Hrun as (pre & datas & Hall & -> & -> & Hle & Hlt & Hend).
      exists (name :: pre), (data :: datas). split; [by constructor|].
      simpl. rewrite <- app_assoc. split; [done|]. split; [lia|].
      rewrite !length_app in *. split; [lia|]. split.
      { intros _. specialize (Hlt ltac:(lia)). lia. }
      destruct Hend as [[-> ->]|(name' & post & -> & Hn)]; [by left|right].
      exists name', post. split; [done|]. by rewrite <- app_assoc in Hn.
    + injection Hrun as <- <- <-. exists [], []. simpl. rewrite app_nil_r.
      repeat split; try done; try lia. right. by exists name, names.
Qed.


Lemma read_sources_loop_app pre : ∀ rest i tail w datas,
  Forall2 readable pre datas →
  Z.of_nat (length tail) + Z.of_nat (length (concat datas)) < JERRY_SOURCE_BUFFER_SIZE →
  read_sources_loop (pre ++ rest) i tail w =
  read_sources_loop rest (i + Z.of_nat (length pre)) (tail ++ concat datas) w.
Proof.
  induction pre as [|name pre IH]; intros rest i tail w datas Hall Hfit.
  - apply Forall2_nil_inv_l in Hall as ->. simpl. rewrite app_nil_r. f_equal. lia.
  - apply Forall2_cons_inv_l in Hall as (data & datas' & Hr & Hall & ->).
    simpl in *. rewrite length_app in Hfit.
    assert (Hs : read_source name tail w = (Some (tail ++ data), w)).
    { apply read_source_Some. split; [done|]. exists data. split; [done|]. split; [done|]. lia. }
    rewrite Hs. rewrite (IH _ _ _ _ datas' Hall).
    + rewrite <- app_assoc. f_equal. lia.
    + rewrite length_app. lia.
Qed.

Lemma read_sources_Some_intro names datas w :
  Forall2 readable names datas →
  Z.of_nat (length (concat datas)) < JERRY_SOURCE_BUFFER_SIZE →
  read_sources names w = (Some (concat datas), w).
Proof.
  intros Hall Hfit. unfold read_sources.
  rewrite (read_sources_loop_Some names 0 [] w datas Hall) by (simpl; lia).
  destruct (Z.ltb_spec (0 + Z.of_nat (length names)) (Z.of_nat (length names)))
    as [|_]; [lia|]. done.
Qed.

(** X13 (what [read_sources] returns): [read_sources] returns a source
    exactly when every script opens, seeks and reads in full and all of them
    together take less than the whole buffer; the source is then the contents
    of the scripts one after the other, shorter than the buffer by at least
    one byte, every stream opened is closed again and nothing is printed. *)
Theorem read_sources_Some names w source w' :
  read_sources names w = (Some source, w') ↔
  w' = w ∧ ∃ datas, Forall2 readable names datas ∧ source = concat datas ∧
    Z.of_nat (length source) < JERRY_SOURCE_BUFFER_SIZE.
Proof.
  unfold read_sources. split.
  - destruct (read_sources_loop names 0 [] w) as [[i tail] w1] eqn:Hrun.
    apply read_sources_loop_inv in Hrun
      as (pre & datas & Hall & -> & -> & _ & Hlt & Hend).
    destruct (Z.ltb_spec (0 + Z.of_nat (length pre)) (Z.of_nat (length names)))
      as [|Hge]; [done|].
    intros [= <- <-].
    destruct Hend as [[-> ->]|(name & post & -> & _)].
    + split; [done|]. exists datas. split; [done|]. split; [done|]. by apply Hlt.
    + rewrite length_app in Hge. simpl in Hge. lia.
  - intros (-> & datas & Hall & -> & Hfit).
    rewrite (read_sources_loop_Some names 0 [] w datas Hall) by (simpl; lia).
    destruct (Z.ltb_spec (0 + Z.of_nat (length names)) (Z.of_nat (length names)))
      as [|_]; [lia|]. done.
Qed.

(** X14 (a script that cannot be read): when the scripts in front of a
    script are read and the script itself does not open, seek, read in full
    or fit in what is left of the buffer, [read_sources] returns [NULL]
    after a message that carries the number of the script, counted from one;
    the scripts behind it are not touched, and unless it was the opening that
    failed, the stream of the script is left open. *)
Theorem read_sources_failure pre name post datas w :
  Forall2 readable pre datas →
  Z.of_nat (length (concat datas)) < JERRY_SOURCE_BUFFER_SIZE →
  (¬ ∃ data, readable name data ∧
     Z.of_nat (length (concat datas)) + Z.of_nat (length data) < JERRY_SOURCE_BUFFER_SIZE) →
  read_sources (pre ++ name :: post) w =
  (None,
   emit (Stderr_failed_to_read_script (Z.of_nat (length pre) + 1))
     match fopen_r name with
     | Some _ => set_open_streams (name :: open_streams w) w
     | None => w
     end).
Proof.
  intros Hall Hfit Hbad. unfold read_sources.
  rewrite (read_sources_loop_app pre _ 0 [] w datas Hall) by (simpl; lia).
  simpl.
  destruct (read_source name (concat datas) w) as [[tail'|] w1] eqn:Hs.
  { apply read_source_Some in Hs as (_ & data & ? & _ & ?). destruct Hbad. eauto. }
  apply read_source_None in Hs as [_ ->].
  rewrite length_app, Z.add_0_l. simpl.
  destruct (Z.ltb_spec (Z.of_nat (length pre)) (Z.of_nat (length pre + S (length post))))
    as [_|]; [done|lia].
Qed.

End Reading.

(** ** The command line *)

Section CommandLine.
Context {H : Host}.
Implicit Types (w : world) (a : string) (args : list string).

#[local] Arguments String.eqb : simpl never.

(** The two options that take the argument behind them. *)
Definition takes_argument a : Prop := a = "--log-level" ∨ a = "--log-file".

(** The flag an argument stands for, if any. *)
Definition flag_of a : Z :=
  if String.eqb "--mem-stats" a then JERRY_FLAG_MEM_STATS
  else if String.eqb "--mem-stats-per-opcode" a then JERRY_FLAG_MEM_STATS_PER_OPCODE
  else if String.eqb "--mem-stats-separate" a then JERRY_FLAG_MEM_STATS_SEPARATE
  else if String.eqb "--parse-only" a then JERRY_FLAG_PARSE_ONLY
  else if String.eqb "--show-opcodes" a then JERRY_FLAG_SHOW_OPCODES
  else 0.

(** An argument that is none of the options names a script. *)
Definition is_script a : bool :=
  negb (String.eqb "-v" a || String.eqb "--mem-stats" a ||
        String.eqb "--mem-stats-per-opcode" a || String.eqb "--mem-stats-separate" a ||
        String.eqb "--parse-only" a || String.eqb "--show-opcodes" a ||
        String.eqb "--log-level" a || String.eqb "--log-file" a).

(** The world after the build information has been printed once for each
    [-v] among [args]. *)
Definition after_options args w : world :=
  Build_world (engine w) (open_streams w) (jerry_debug_level w) (jerry_log_file w)
    (trace w ++ replicate (length (List.filter (String.eqb "-v") args)) Stdout_build_info).

Lemma after_options_nil w : after_options [] w = w.
Proof. unfold after_options. simpl. rewrite app_nil_r. by destruct w. Qed.

Lemma after_options_cons a args w :
  after_options (a :: args) w =
  after_options args (if String.eqb "-v" a then emit Stdout_build_info w else w).
Proof.
  unfold after_options. simpl. destruct (String.eqb "-v" a); [|done].
  simpl. by rewrite <- app_assoc.
Qed.

(** One turn of the loop, on an argument that does not take the argument
    behind it. *)
Lemma parse_arguments_step a rest flags file_names log_file_name w :
  ¬ takes_argument a →
  parse_arguments (a :: rest) flags file_names log_file_name w =
  parse_arguments rest (Z.lor flags (flag_of a))
    (if is_script a then file_names ++ [a] else file_names) log_file_name
    (if String.eqb "-v" a then emit Stdout_build_info w else w).
Proof.
  intros Ha. unfold flag_of, is_script. simpl.
  destruct (String.eqb_spec "-v" a) as [<-|_].
  { transitivity (parse_arguments rest (Z.lor flags 0) file_names log_file_name
                    (emit Stdout_build_info w)); [by rewrite Z.lor_0_r|reflexivity]. }
  destruct (String.eqb_spec "--mem-stats" a) as [<-|_]; [reflexivity|].
  destruct (String.eqb_spec "--mem-stats-per-opcode" a) as [<-|_]; [reflexivity|].
  destruct (String.eqb_spec "--mem-stats-separate" a) as [<-|_]; [reflexivity|].
  destruct (String.eqb_spec "--parse-only" a) as [<-|_]; [reflexivity|].
  destruct (String.eqb_spec "--show-opcodes" a) as [<-|_]; [reflexivity|].
  destruct (String.eqb_spec "--log-level" a) as [<-|_]; [destruct Ha; by left|].
  destruct (String.eqb_spec "--log-file" a) as [<-|_]; [destruct Ha; by right|].
  simpl. by rewrite Z.lor_0_r.
Qed.

(** The loop over arguments none of which takes the argument behind it. *)
Lemma parse_arguments_app pre : ∀ post flags file_names log_file_name w,
  Forall (λ a, ¬ takes_argument a) pre →
  parse_arguments (pre ++ post) flags file_names log_file_name w =
  parse_arguments post (foldl Z.lor flags (flag_of <$> pre))
    (file_names ++ List.filter is_script pre) log_file_name (after_options pre w).
Proof.
  induction pre as [|a pre IH]; intros post flags file_names log_file_name w Hall.
  - simpl. by rewrite app_nil_r, after_options_nil.
  - apply Forall_cons in Hall as [Ha Hall].
    rewrite <- app_comm_cons, (parse_arguments_step a _ _ _ _ _ Ha), (IH _ _ _ _ _ Hall).
    rewrite after_options_cons. simpl.
    destruct (is_script a); [|done]. by rewrite <- app_assoc.
Qed.

Lemma parse_arguments_plain args flags file_names log_file_name w :
  Forall (λ a, ¬ takes_argument a) args →
  parse_arguments args flags file_names log_file_name w =
  Arguments_ok (foldl Z.lor flags (flag_of <$> args))
    (file_names ++ List.filter is_script args) log_file_name (after_options args w).
Proof.
  intros Hall. rewrite <- (app_nil_r args) at 1.
  by rewrite parse_arguments_app.
Qed.

Lemma filter_length_le {A} (f : A → bool) (l : list A) :
  (length (List.filter f l) ≤ length l)%nat.
Proof. induction l as [|x l IH]; simpl; [done|]. destruct (f x); simpl; lia. Qed.

(** The loop never collects more names than there are arguments. *)
Lemma parse_arguments_names_le (n : nat) : ∀ args,
  (length args ≤ n)%nat →
  ∀ flags file_names log_file_name w flags' names' log' w',
  parse_arguments args flags file_names log_file_name w =
    Arguments_ok flags' names' log' w' →
  (length names' ≤ length file_names + length args)%nat.
Proof.
  induction n as [|n IH]; intros [|a rest] Hlen flags file_names log_file_name w
    flags' names' log' w'; simpl in *; try lia; try (intros [= _ <- _ _]; lia).
  repeat (case_match; try done); subst; simpl in *;
    intros Hrun; eapply IH in Hrun; rewrite ?length_app in *; simpl in *; lia.
Qed.

Lemma parse_arguments_names args flags file_names log_file_name w flags' names' log' w' :
  parse_arguments args flags file_names log_file_name w =
    Arguments_ok flags' names' log' w' →
  (length names' ≤ length file_names + length args)%nat.
Proof. by apply (parse_arguments_names_le (length args)). Qed.

(** X15 (the limit on the number of arguments): with 64 arguments or more,
    the program name counted, [main] prints its complaint and returns the
    exit code for failure without looking at any argument; with fewer, the
    names it collects in [file_names] are fewer than the 64 entries of that
    array. *)
Theorem main_argument_limit argv w :
  (JERRY_MAX_COMMAND_LINE_ARGS ≤ Z.of_nat (length argv) →
   main argv w =
   (JERRY_STANDALONE_EXIT_CODE_FAIL,
    emit (Stderr_too_many_arguments (Z.of_nat (length argv))) w)) ∧
  (Z.of_nat (length argv) < JERRY_MAX_COMMAND_LINE_ARGS →
   ∀ flags file_names log_file_name w',
     parse_arguments (drop 1 argv) JERRY_FLAG_EMPTY [] None
       (emit Ev_jerry_get_memory_limits w) =
       Arguments_ok flags file_names log_file_name w' →
     Z.of_nat (length file_names) < JERRY_MAX_COMMAND_LINE_ARGS).
Proof.
  split.
  - intros Hmany. unfold main.
    destruct (Z.geb_spec (Z.of_nat (length argv)) JERRY_MAX_COMMAND_LINE_ARGS); [done|lia].
  - intros Hfew flags file_names log_file_name w' Hrun.
    apply parse_arguments_names in Hrun. rewrite length_drop in Hrun. simpl in Hrun. lia.
Qed.


Lemma main_few argv w :
  Z.of_nat (length argv) < JERRY_MAX_COMMAND_LINE_ARGS →
  main argv w =
  match parse_arguments (drop 1 argv) JERRY_FLAG_EMPTY [] None
          (emit Ev_jerry_get_memory_limits w) with
  | Arguments_fail w => (JERRY_STANDALONE_EXIT_CODE_FAIL, w)
  | Arguments_ok flags file_names log_file_name w =>
      if Z.of_nat (length file_names) =? 0 then (JERRY_STANDALONE_EXIT_CODE_OK, w)
      else
        match read_sources file_names w with
        | (None, w) => (JERRY_STANDALONE_EXIT_CODE_FAIL, w)
        | (Some source, w) =>
            match open_log log_file_name w with
            | (false, w) => (JERRY_STANDALONE_EXIT_CODE_FAIL, w)
            | (true, w) => run_engine flags source w
            end
        end
  end.
Proof.
  intros Hfew. unfold main.
  destruct (Z.geb_spec (Z.of_nat (length argv)) JERRY_MAX_COMMAND_LINE_ARGS); [lia|done].
Qed.

(** X16 (options alone): when the arguments behind the program name are
    all among [-v] and the five options that set a flag, [main] returns the
    exit code for success after printing the build information once for each
    [-v]; it opens no file and does not call the engine, whatever flags were
    asked for. *)
Theorem main_options_only argv w :
  Z.of_nat (length argv) < JERRY_MAX_COMMAND_LINE_ARGS →
  Forall (λ a, ¬ takes_argument a ∧ is_script a = false) (drop 1 argv) →
  main argv w =
  (JERRY_STANDALONE_EXIT_CODE_OK,
   after_options (drop 1 argv) (emit Ev_jerry_get_memory_limits w)).
Proof.
  intros Hfew Hall. rewrite (main_few argv w Hfew).
  rewrite parse_arguments_plain by (eapply Forall_impl; [exact Hall|]; by intros a [? _]).
  assert (List.filter is_script (drop 1 argv) = []) as ->; [|done].
  induction Hall as [|a l [_ Ha] _ IH]; simpl; [done|]. by rewrite Ha.
Qed.

Lemma land_lor_same f P : Z.land (Z.lor f P) P = P.
Proof.
  apply Z.bits_inj'. intros n _. rewrite Z.land_spec, Z.lor_spec.
  by destruct (Z.testbit f n), (Z.testbit P n).
Qed.

Lemma land_foldl_lor P l : ∀ f, Z.land f P = P → Z.land (foldl Z.lor f l) P = P.
Proof.
  induction l as [|x l IH]; intros f Hf; simpl; [done|]. apply IH.
  rewrite Z.land_lor_distr_l, Hf.
  apply Z.bits_inj'. intros n _. rewrite Z.lor_spec, Z.land_spec.
  by destruct (Z.testbit x n), (Z.testbit P n).
Qed.

Lemma parse_only_flag args : ∀ f,
  "--parse-only" ∈ args →
  Z.land (foldl Z.lor f (flag_of <$> args)) JERRY_FLAG_PARSE_ONLY = JERRY_FLAG_PARSE_ONLY.
Proof.
  induction args as [|a args IH]; intros f Hin; [by apply elem_of_nil in Hin|].
  simpl. apply elem_of_cons in Hin as [<-|Hin]; [|by apply IH].
  apply land_foldl_lor. change (flag_of "--parse-only") with JERRY_FLAG_PARSE_ONLY.
  apply land_lor_same.
Qed.

(** X17 (what the engine is given): when no argument is [--log-level] or
    [--log-file], at least one names a script and the scripts can be read,
    [main] runs the engine on the contents of the scripts, one after the
    other in the order of the command line, with the flags of the options
    or-ed together, wherever the options stand among the scripts; and with
    [--parse-only] among them the flags have the bits of
    [JERRY_FLAG_PARSE_ONLY]. *)
Theorem main_hands_over argv w datas :
  Z.of_nat (length argv) < JERRY_MAX_COMMAND_LINE_ARGS →
  Forall (λ a, ¬ takes_argument a) (drop 1 argv) →
  List.filter is_script (drop 1 argv) ≠ [] →
  Forall2 readable (List.filter is_script (drop 1 argv)) datas →
  Z.of_nat (length (concat datas)) < JERRY_SOURCE_BUFFER_SIZE →
  let flags := foldl Z.lor JERRY_FLAG_EMPTY (flag_of <$> drop 1 argv) in
  main argv w =
    run_engine flags (concat datas)
      (open_log None (after_options (drop 1 argv) (emit Ev_jerry_get_memory_limits w))).2 ∧
  ("--parse-only" ∈ drop 1 argv →
   Z.land flags JERRY_FLAG_PARSE_ONLY = JERRY_FLAG_PARSE_ONLY).
Proof.
  intros Hfew Hall Hne Hread Hfit flags. split; [|by apply parse_only_flag].
  rewrite (main_few argv w Hfew), (parse_arguments_plain _ _ _ _ _ Hall). simpl.
  destruct (Z.eqb_spec (Z.of_nat (length (List.filter is_script (drop 1 argv)))) 0)
    as [Hz|_].
  { destruct (List.filter is_script (drop 1 argv)); [done|simpl in Hz; lia]. }
  assert (Hs : read_sources (List.filter is_script (drop 1 argv))
                 (after_options (drop 1 argv) (emit Ev_jerry_get_memory_limits w)) =
               (Some (concat datas),
                after_options (drop 1 argv) (emit Ev_jerry_get_memory_limits w))).
  { apply read_sources_Some_intro; [done|done]. }
  rewrite Hs. unfold open_log. by destruct JERRY_ENABLE_LOG.
Qed.

(** X21 (a script that cannot be read ends the program): when no argument
    is [--log-level] or [--log-file] and one of the scripts named does not
    open, seek, read in full or fit in the buffer behind the scripts in front
    of it, [main] returns the exit code for failure after the message with
    the number of that script; the engine is not initialised, although the
    scripts in front were read. *)
Theorem main_script_unreadable argv w pre name post datas :
  Z.of_nat (length argv) < JERRY_MAX_COMMAND_LINE_ARGS →
  Forall (λ a, ¬ takes_argument a) (drop 1 argv) →
  List.filter is_script (drop 1 argv) = pre ++ name :: post →
  Forall2 readable pre datas →
  Z.of_nat (length (concat datas)) < JERRY_SOURCE_BUFFER_SIZE →
  (¬ ∃ data, readable name data ∧
     Z.of_nat (length (concat datas)) + Z.of_nat (length data) < JERRY_SOURCE_BUFFER_SIZE) →
  let w1 := after_options (drop 1 argv) (emit Ev_jerry_get_memory_limits w) in
  main argv w =
  (JERRY_STANDALONE_EXIT_CODE_FAIL,
   emit (Stderr_failed_to_read_script (Z.of_nat (length pre) + 1))
     match fopen_r name with
     | Some _ => set_open_streams (name :: open_streams w1) w1
     | None => w1
     end).
Proof.
  intros Hfew Hall Hscripts Hread Hfit Hbad w1.
  rewrite (main_few argv w Hfew), (parse_arguments_plain _ _ _ _ _ Hall). simpl.
  fold w1. rewrite Hscripts.
  destruct (Z.eqb_spec (Z.of_nat (length (pre ++ name :: post))) 0) as [Hz|_].
  { rewrite length_app in Hz. simpl in Hz. lia. }
  unfold read_sources.
  rewrite (read_sources_loop_app pre _ 0 [] w1 datas Hread) by (simpl; lia).
  simpl.
  destruct (read_source name (concat datas) w1) as [[tail'|] w2] eqn:Hs.
  { apply read_source_Some in Hs as (_ & data & ? & _ & ?). destruct Hbad. eauto. }
  apply read_source_None in Hs as [_ ->].
  rewrite length_app, Z.add_0_l. simpl.
  destruct (Z.ltb_spec (Z.of_nat (length pre)) (Z.of_nat (length pre + S (length post))))
    as [_|]; [done|lia].
Qed.

(** X18 (an option without its argument): [--log-level] as the last
    argument, or in front of an argument that is not one digit from [0] to
    [3], and [--log-file] as the last argument, make [main] return the exit
    code for failure after a complaint; the scripts named in front are not
    opened and the engine is not called. *)
Theorem main_option_without_argument argv pre w :
  Z.of_nat (length argv) < JERRY_MAX_COMMAND_LINE_ARGS →
  Forall (λ a, ¬ takes_argument a) pre →
  (∀ rest, drop 1 argv = pre ++ "--log-level" :: rest →
     (∀ b rest', rest = b :: rest' → is_log_level b = false) →
     main argv w =
     (JERRY_STANDALONE_EXIT_CODE_FAIL,
      emit Stderr_wrong_format_or_invalid_argument
        (after_options pre (emit Ev_jerry_get_memory_limits w)))) ∧
  (drop 1 argv = pre ++ ["--log-file"] →
     main argv w =
     (JERRY_STANDALONE_EXIT_CODE_FAIL,
      emit Stderr_wrong_format_of_the_arguments
        (after_options pre (emit Ev_jerry_get_memory_limits w)))).
Proof.
  intros Hfew Hall. split.
  - intros rest Hargs Hbad. rewrite (main_few argv w Hfew), Hargs.
    rewrite (parse_arguments_app pre _ _ _ _ _ Hall).
    destruct rest as [|b rest']; [done|].
    simpl. by rewrite (Hbad b rest' eq_refl).
  - intros Hargs. rewrite (main_few argv w Hfew), Hargs.
    by rewrite (parse_arguments_app pre _ _ _ _ _ Hall).
Qed.

Lemma close_log_trace w : trace (close_log w) = trace w ∧ engine (close_log w) = engine w.
Proof. unfold close_log. destruct JERRY_ENABLE_LOG; [|done]. by destruct (jerry_log_file w). Qed.

(** X19 (the engine calls and the exit code): the engine is initialised
    with the flags, the plugin is initialised, the source is parsed, it is
    run when the parse succeeded and the flags have no bit of
    [JERRY_FLAG_PARSE_ONLY], and the engine is cleaned up in every case; the
    exit code is the one for success when the parse succeeded and the run, if
    there was one, completed with [JERRY_COMPLETION_CODE_OK], and the one for
    failure otherwise. *)
Theorem run_engine_spec flags source w :
  let parsed := jerry_parse source (plugin_io_init (jerry_init flags (engine w))) in
  let runs := parsed.1 && (Z.land flags JERRY_FLAG_PARSE_ONLY =? 0) in
  let ran := jerry_run parsed.2 in
  ∃ code w', run_engine flags source w = (code, w') ∧
    trace w' = trace w ++
      [Ev_jerry_init flags; Ev_plugin_io_init; Ev_jerry_parse source parsed.1] ++
      (if runs then [Ev_jerry_run ran.1] else []) ++ [Ev_jerry_cleanup] ∧
    engine w' = jerry_cleanup (if runs then ran.2 else parsed.2) ∧
    (code = JERRY_STANDALONE_EXIT_CODE_OK ∨ code = JERRY_STANDALONE_EXIT_CODE_FAIL) ∧
    (JERRY_COMPLETION_CODE_UNHANDLED_EXCEPTION ≠ JERRY_COMPLETION_CODE_OK →
     (code = JERRY_STANDALONE_EXIT_CODE_OK ↔
      parsed.1 = true ∧ (runs = true → ran.1 = JERRY_COMPLETION_CODE_OK))).
Proof.
  intros parsed runs ran. subst runs ran parsed. unfold run_engine. simpl.
  destruct (jerry_parse source (plugin_io_init (jerry_init flags (engine w)))) as [ok e3].
  simpl. destruct ok; simpl.
  - destruct (Z.eqb_spec (Z.land flags JERRY_FLAG_PARSE_ONLY) 0) as [Hz|Hnz]; simpl.
    + destruct (jerry_run e3) as [rc e4]. simpl.
      destruct (Z.eqb_spec rc JERRY_COMPLETION_CODE_OK) as [Hok|Hno];
        eexists _, _; (split; [reflexivity|]);
        rewrite (proj1 (close_log_trace _)), (proj2 (close_log_trace _)); simpl;
        rewrite <- !app_assoc; simpl.
      * split; [done|]. split; [done|]. split; [by left|]. intros _. by split.
      * split; [done|]. split; [done|]. split; [by right|]. intros _.
        split; [done|]. intros [_ Hr]. by specialize (Hr eq_refl).
    + rewrite Z.eqb_refl. eexists _, _. split; [reflexivity|].
      rewrite (proj1 (close_log_trace _)), (proj2 (close_log_trace _)). simpl.
      rewrite <- !app_assoc. simpl.
      split; [done|]. split; [done|]. split; [by left|]. intros _. by split.
  - destruct (Z.eqb_spec JERRY_COMPLETION_CODE_UNHANDLED_EXCEPTION JERRY_COMPLETION_CODE_OK)
      as [Heq|Hne]; eexists _, _; (split; [reflexivity|]);
      rewrite (proj1 (close_log_trace _)), (proj2 (close_log_trace _)); simpl;
      rewrite <- !app_assoc; simpl.
    + split; [done|]. split; [done|]. split; [by left|]. done.
    + split; [done|]. split; [done|]. split; [by right|]. intros _.
      split; [done|]. by intros [? _].
Qed.


(** The engine calls leave the streams and the globals of the log alone. *)
Lemma run_engine_world flags source w :
  ∃ code e tr,
    run_engine flags source w =
    (code, close_log (Build_world e (open_streams w) (jerry_debug_level w)
                        (jerry_log_file w) tr)).
Proof.
  unfold run_engine. simpl.
  destruct (jerry_parse source (plugin_io_init (jerry_init flags (engine w)))) as [ok e3].
  simpl. destruct ok; simpl.
  - destruct (Z.land flags JERRY_FLAG_PARSE_ONLY =? 0); simpl.
    + destruct (jerry_run e3) as [rc e4]. simpl.
      destruct (rc =? JERRY_COMPLETION_CODE_OK); eexists _, _, _; reflexivity.
    + rewrite Z.eqb_refl. eexists _, _, _; reflexivity.
  - destruct (JERRY_COMPLETION_CODE_UNHANDLED_EXCEPTION =? JERRY_COMPLETION_CODE_OK);
      eexists _, _, _; reflexivity.
Qed.

(** X20 (the stream of the log): in a build with [JERRY_ENABLE_LOG], when
    the file named behind [--log-file] opens for writing, the stream opened
    for it before the engine starts is closed again after the engine has been
    cleaned up, and [jerry_log_file] is reset. *)
Theorem log_stream_closed name flags source w :
  JERRY_ENABLE_LOG = true → fopen_w name = true →
  ∃ w1, open_log (Some name) w = (true, w1) ∧
    open_streams w1 = name :: open_streams w ∧
    jerry_log_file w1 = Log_file name ∧
    open_streams (run_engine flags source w1).2 = open_streams w ∧
    jerry_log_file (run_engine flags source w1).2 = Log_null.
Proof.
  intros Hlog Hopen. unfold open_log. rewrite Hlog, Hopen.
  eexists. split; [reflexivity|]. split; [done|]. split; [done|].
  destruct (run_engine_world flags source
    (set_jerry_log_file (Log_file name)
       (set_open_streams (name :: open_streams w) w))) as (code & e & tr & ->).
  unfold close_log. rewrite Hlog. simpl. by rewrite String.eqb_refl.
Qed.

End CommandLine.

(** ** A sample host *)

Module Sample.

Definition sample_fopen_r (name : string) : option file :=
  if String.eqb name "a.js" then Some (Build_file 0 2 [Byte.x61; Byte.x3b])
  else if String.eqb name "b.js" then Some (Build_file 0 3 [Byte.x62; Byte.x3b; Byte.x0a])
  else if String.eqb name "locked.js" then Some (Build_file (-1) 0 [])
  else None.

(** An engine that stores the source: the parse fails on a [!], the run
    on a [?]. *)
#[export] Instance sample : Host := {
  fopen_r := sample_fopen_r;
  fopen_w name := String.eqb name "log.txt";
  engine_t := list Byte.byte;
  JERRY_FLAG_EMPTY := 0;
  JERRY_FLAG_SHOW_OPCODES := 1;
  JERRY_FLAG_MEM_STATS := 2;
  JERRY_FLAG_MEM_STATS_PER_OPCODE := 4;
  JERRY_FLAG_MEM_STATS_SEPARATE := 8;
  JERRY_FLAG_PARSE_ONLY := 16;
  JERRY_FLAG_ENABLE_LOG := 32;
  JERRY_COMPLETION_CODE_OK := 0;
  JERRY_COMPLETION_CODE_UNHANDLED_EXCEPTION := 1;
  jerry_init _ _ := [];
  plugin_io_init e := e;
  jerry_parse source _ := (forallb (λ b, negb (Byte.eqb b Byte.x21)) source, source);
  jerry_run e := (if existsb (Byte.eqb Byte.x3f) e then 1 else 0, e);
  jerry_cleanup _ := [];
  JERRY_ENABLE_LOG := true
}.

(** The world at the start of the program. *)
Definition start : world := Build_world [] [] 0 Log_null [].

Lemma readable_a : readable "a.js" [Byte.x61; Byte.x3b].
Proof. eexists. split; [reflexivity|]. by vm_compute. Qed.

Lemma readable_b : readable "b.js" [Byte.x62; Byte.x3b; Byte.x0a].
Proof. eexists. split; [reflexivity|]. by vm_compute. Qed.

(** Two scripts of two and three bytes. *)
Lemma read_sources_Some_witness :
  read_sources ["a.js"; "b.js"] start =
  (Some [Byte.x61; Byte.x3b; Byte.x62; Byte.x3b; Byte.x0a], start).
Proof.
  apply (read_sources_Some ["a.js"; "b.js"] start). split; [done|].
  exists [[Byte.x61; Byte.x3b]; [Byte.x62; Byte.x3b; Byte.x0a]].
  split; [|by vm_compute].
  constructor; [exact readable_a|]. constructor; [exact readable_b|]. constructor.
Defined.

(** The second script opens but the seek fails: its stream stays open. *)
Lemma read_sources_failure_witness :
  read_sources ["a.js"; "locked.js"; "b.js"] start =
  (None,
   emit (Stderr_failed_to_read_script 2)
     (set_open_streams ["locked.js"] start)).
Proof.
  assert (Hpre : Forall2 readable ["a.js"] [[Byte.x61; Byte.x3b]])
    by (constructor; [exact readable_a|constructor]).
  assert (Hfit : Z.of_nat (length (concat [[Byte.x61; Byte.x3b]])) < JERRY_SOURCE_BUFFER_SIZE)
    by reflexivity.
  assert (Hbad : ¬ ∃ data, readable "locked.js" data ∧
            Z.of_nat (length (concat [[Byte.x61; Byte.x3b]])) + Z.of_nat (length data) <
            JERRY_SOURCE_BUFFER_SIZE).
  { intros (data & (f & Hf & Hseek & _) & _). vm_compute in Hf.
    apply (inj Some) in Hf. subst f. discriminate Hseek. }
  exact (read_sources_failure ["a.js"] "locked.js" ["b.js"] _ start Hpre Hfit Hbad).
Defined.

(** 64 arguments are too many, 63 are not. *)
Lemma main_argument_limit_witness :
  main (replicate 64 "jerry") start =
    (JERRY_STANDALONE_EXIT_CODE_FAIL, emit (Stderr_too_many_arguments 64) start) ∧
  ∀ flags file_names log_file_name w',
    parse_arguments (drop 1 (replicate 63 "a.js")) JERRY_FLAG_EMPTY [] None
      (emit Ev_jerry_get_memory_limits start) =
      Arguments_ok flags file_names log_file_name w' →
    Z.of_nat (length file_names) < JERRY_MAX_COMMAND_LINE_ARGS.
Proof.
  split.
  - apply (proj1 (main_argument_limit (replicate 64 "jerry") start)). by vm_compute.
  - apply (proj2 (main_argument_limit (replicate 63 "a.js") start)). by vm_compute.
Defined.

(** Options and no script. *)
Lemma main_options_only_witness :
  main ["jerry"; "-v"; "--parse-only"; "--mem-stats"] start =
  (JERRY_STANDALONE_EXIT_CODE_OK,
   Build_world [] [] 0 Log_null [Ev_jerry_get_memory_limits; Stdout_build_info]).
Proof.
  apply (main_options_only ["jerry"; "-v"; "--parse-only"; "--mem-stats"] start).
  - by vm_compute.
  - repeat constructor; by intros [?|?].
Defined.

(** Two scripts with [--parse-only] between them. *)
Lemma main_hands_over_witness :
  main ["jerry"; "a.js"; "--parse-only"; "b.js"] start =
    run_engine 16 [Byte.x61; Byte.x3b; Byte.x62; Byte.x3b; Byte.x0a]
      (Build_world [] [] 0 Log_stdout [Ev_jerry_get_memory_limits]) ∧
  Z.land 16 JERRY_FLAG_PARSE_ONLY = JERRY_FLAG_PARSE_ONLY.
Proof.
  assert (Hfew : Z.of_nat (length ["jerry"; "a.js"; "--parse-only"; "b.js"]) <
                 JERRY_MAX_COMMAND_LINE_ARGS) by reflexivity.
  assert (Hall : Forall (λ a, ¬ takes_argument a)
                   (drop 1 ["jerry"; "a.js"; "--parse-only"; "b.js"]))
    by (repeat constructor; by intros [?|?]).
  assert (Hne : List.filter is_script (drop 1 ["jerry"; "a.js"; "--parse-only"; "b.js"]) ≠ [])
    by discriminate.
  assert (Hread : Forall2 readable
            (List.filter is_script (drop 1 ["jerry"; "a.js"; "--parse-only"; "b.js"]))
            [[Byte.x61; Byte.x3b]; [Byte.x62; Byte.x3b; Byte.x0a]]).
  { constructor; [exact readable_a|]. constructor; [exact readable_b|]. constructor. }
  assert (Hfit : Z.of_nat (length (concat [[Byte.x61; Byte.x3b]; [Byte.x62; Byte.x3b; Byte.x0a]]))
                 < JERRY_SOURCE_BUFFER_SIZE) by reflexivity.
  destruct (main_hands_over ["jerry"; "a.js"; "--parse-only"; "b.js"] start _
              Hfew Hall Hne Hread Hfit) as [Hrun Hflag].
  split; [exact Hrun|]. apply Hflag. right. left.
Defined.

(** The second of three scripts does not exist. *)
Lemma main_script_unreadable_witness :
  main ["jerry"; "a.js"; "-v"; "missing.js"; "b.js"] start =
  (JERRY_STANDALONE_EXIT_CODE_FAIL,
   Build_world [] [] 0 Log_null
     [Ev_jerry_get_memory_limits; Stdout_build_info; Stderr_failed_to_read_script 2]).
Proof.
  assert (Hall : Forall (λ a, ¬ takes_argument a)
                   (drop 1 ["jerry"; "a.js"; "-v"; "missing.js"; "b.js"]))
    by (repeat constructor; by intros [?|?]).
  assert (Hpre : Forall2 readable ["a.js"] [[Byte.x61; Byte.x3b]])
    by (constructor; [exact readable_a|constructor]).
  assert (Hbad : ¬ ∃ data, readable "missing.js" data ∧
            Z.of_nat (length (concat [[Byte.x61; Byte.x3b]])) + Z.of_nat (length data) <
            JERRY_SOURCE_BUFFER_SIZE).
  { intros (data & (f & Hf & _) & _). discriminate Hf. }
  exact (main_script_unreadable ["jerry"; "a.js"; "-v"; "missing.js"; "b.js"] start
           ["a.js"] "missing.js" ["b.js"] _ eq_refl Hall eq_refl Hpre eq_refl Hbad).
Defined.

(** [7] is no log level, and [--log-file] needs a name. *)
Lemma main_option_without_argument_witness :
  main ["jerry"; "a.js"; "--log-level"; "7"] start =
    (JERRY_STANDALONE_EXIT_CODE_FAIL,
     Build_world [] [] 0 Log_null
       [Ev_jerry_get_memory_limits; Stderr_wrong_format_or_invalid_argument]) ∧
  main ["jerry"; "a.js"; "--log-file"] start =
    (JERRY_STANDALONE_EXIT_CODE_FAIL,
     Build_world [] [] 0 Log_null
       [Ev_jerry_get_memory_limits; Stderr_wrong_format_of_the_arguments]).
Proof.
  assert (Hall : Forall (λ a, ¬ takes_argument a) ["a.js"])
    by (repeat constructor; by intros [?|?]).
  split.
  - apply (proj1 (main_option_without_argument ["jerry"; "a.js"; "--log-level"; "7"]
                    ["a.js"] start eq_refl Hall) ["7"] eq_refl).
    by intros b rest' [= <- <-].
  - exact (proj2 (main_option_without_argument ["jerry"; "a.js"; "--log-file"]
                    ["a.js"] start eq_refl Hall) eq_refl).
Defined.

(** The log goes to [log.txt]. *)
Lemma log_stream_closed_witness :
  ∃ w1, open_log (Some "log.txt") start = (true, w1) ∧
    open_streams w1 = ["log.txt"] ∧
    jerry_log_file w1 = Log_file "log.txt" ∧
    open_streams (run_engine 0 [Byte.x61; Byte.x3b] w1).2 = [] ∧
    jerry_log_file (run_engine 0 [Byte.x61; Byte.x3b] w1).2 = Log_null.
Proof.
  exact (log_stream_closed "log.txt" 0 [Byte.x61; Byte.x3b] start eq_refl eq_refl).
Defined.

End Sample.
End MainLinux.
